(** * funsor: named-dimension functional tensors and sum-product elimination

    A verification development for two parts of the repository:
    - [src/funsor/sum_product.py]: the plated sum-product engine
      ([_partition], [partial_sum_product], [sum_product]) and the
      parallel-scan chain contraction ([Slice], [Cat],
      [sequential_sum_product]);
    - [src/funsor.py]: the term algebra ([Funsor], [Variable], [Function],
      [Tensor], [var]).

    Python exceptions are modelled by the [result] type, dictionaries that are
    iterated by insertion-ordered association lists, frozensets by [gset]. *)

From Stdlib Require Import ZArith Lia Ring.
From stdpp Require Import base option list gmap strings sets sorting.

Open Scope string_scope.
Open Scope list_scope.
Open Scope Z_scope.
Open Scope nat_scope.

(** ** Exceptions and results *)

Inductive exn : Type :=
| ValueError (msg : string)
| KeyError
| IndexError
| TypeError
| AssertionError
| NotImplementedError (msg : string)
| AttributeError
| RuntimeError (msg : string)
| OutOfFuel.   (* not a Python exception: a loop of the model ran out of fuel *)

Inductive result (A : Type) : Type :=
| Ok (a : A)
| Raise (e : exn).
Arguments Ok {A} a.
Arguments Raise {A} e.

Definition rbind {A B} (m : result A) (k : A → result B) : result B :=
  match m with
  | Ok a => k a
  | Raise e => Raise e
  end.

Notation "'let*' x := m 'in' k" := (rbind m (fun x => k))
  (at level 10, x pattern, m at level 100, k at level 200).

Definition of_option {A} (o : option A) (e : exn) : result A :=
  match o with
  | Some a => Ok a
  | None => Raise e
  end.

(** Left fold of a fallible step over a list ([for x in l: acc = step(acc, x)]). *)
Fixpoint foldM {A B} (step : A → B → result A) (l : list B) (acc : A) : result A :=
  match l with
  | [] => Ok acc
  | x :: l' => let* acc' := step acc x in foldM step l' acc'
  end.

(** [functools.reduce(op, seq)] without an initial value. *)
Definition py_reduce {A} (op : A → A → result A) (l : list A) : result A :=
  match l with
  | [] => Raise TypeError
  | x :: l' => foldM op l' x
  end.

(** ** Insertion-ordered dictionaries (Python 3.7+ [dict], [OrderedDict]) *)

Module OD.
Section OD.
Context {K V : Type} `{EqDecision K}.

Definition t := list (K * V).

Fixpoint get (k : K) (d : list (K * V)) : option V :=
  match d with
  | [] => None
  | (k', v) :: d' => if decide (k = k') then Some v else get k d'
  end.

(** [d[k] = v]: an existing key keeps its position, a new key goes last. *)
Fixpoint set (k : K) (v : V) (d : list (K * V)) : list (K * V) :=
  match d with
  | [] => [(k, v)]
  | (k', v') :: d' =>
      if decide (k = k') then (k', v) :: d' else (k', v') :: set k v d'
  end.

Fixpoint remove (k : K) (d : list (K * V)) : list (K * V) :=
  match d with
  | [] => []
  | (k', v') :: d' => if decide (k = k') then d' else (k', v') :: remove k d'
  end.

(** [d.pop(k)] *)
Definition pop (k : K) (d : list (K * V)) : option (V * list (K * V)) :=
  match get k d with
  | Some v => Some (v, remove k d)
  | None => None
  end.

(** [d.popitem()]: removes and returns the last inserted pair. *)
Definition popitem (d : list (K * V)) : option ((K * V) * list (K * V)) :=
  match rev d with
  | [] => None
  | kv :: r => Some (kv, rev r)
  end.

Definition keys (d : list (K * V)) : list K := map fst d.

(** [d.update(other)] *)
Definition update (d other : list (K * V)) : list (K * V) :=
  fold_left (fun acc kv => set kv.1 kv.2 acc) other d.
End OD.
End OD.

(** [max(iterable, key=key)]: the first element whose key is maximal. *)
Fixpoint py_max_by {A} (key : A → nat) (best : A) (l : list A) : A :=
  match l with
  | [] => best
  | x :: l' => py_max_by key (if Nat.ltb (key best) (key x) then x else best) l'
  end.

Definition py_max {A} (key : A → nat) (l : list A) : option A :=
  match l with
  | [] => None
  | x :: l' => Some (py_max_by key x l')
  end.

(** [[f(x) for x in l]] for a fallible [f]. *)
Fixpoint mapR {A B} (f : A → result B) (l : list A) : result (list B) :=
  match l with
  | [] => Ok []
  | x :: l' => let* y := f x in let* ys := mapR f l' in Ok (y :: ys)
  end.

(** [l.pop()]: removes and returns the last element of a Python list. *)
Definition list_pop {A} (l : list A) : option (A * list A) :=
  match rev l with
  | [] => None
  | x :: r => Some (x, rev r)
  end.

(** ** Dense arrays ([torch.Tensor])

    The array backend is an external library; the few primitives the sources
    call are modelled on arrays given by a shape and the cells in row-major
    order. *)
Module Torch.

(** A bare array: its shape and its cells in row-major order
    ([torch.Tensor]). Axes are addressed by position. *)
Record array (A : Type) : Type := mkArray {
  ashape : list nat;
  acells : list A;
}.
Arguments mkArray {A} ashape acells.
Arguments ashape {A} a.
Arguments acells {A} a.

(** All index tuples of an array of the given shape, in row-major order. *)
Fixpoint indices (shape : list nat) : list (list nat) :=
  match shape with
  | [] => [[]]
  | n :: shape' => flat_map (fun i => map (cons i) (indices shape')) (seq 0 n)
  end.

Fixpoint aoffset (shape idx : list nat) : option nat :=
  match shape, idx with
  | [], [] => Some 0
  | n :: shape', i :: idx' =>
      if Nat.ltb i n
      then match aoffset shape' idx' with
           | Some o => Some (i * fold_right Nat.mul 1 shape' + o)
           | None => None
           end
      else None
  | _, _ => None
  end.

Definition aget {A} (a : array A) (idx : list nat) : result A :=
  match aoffset (ashape a) idx with
  | Some o => of_option (acells a !! o) IndexError
  | None => Raise IndexError
  end.

Definition atabulate {A} (shape : list nat) (f : list nat → result A)
    : result (array A) :=
  let* d := mapR f (indices shape) in
  Ok (mkArray shape d).

(** [a.expand(shape)]: axes of size 1 are repeated, others must agree. *)
Definition expand {A} (a : array A) (shape : list nat) : result (array A) :=
  if decide (length shape = length (ashape a)) then
    if forallb (fun '(n, m) => orb (Nat.eqb n m) (Nat.eqb n 1)) (zip (ashape a) shape)
    then atabulate shape (fun idx =>
           aget a (map (fun '(n, i) => if Nat.eqb n 1 then 0 else i)
                       (zip (ashape a) idx)))
    else Raise (RuntimeError "expand")
  else Raise (RuntimeError "expand").

(** The part of [parts] and the index within it that position [i] along
    the concatenated axis falls in. *)
Fixpoint cat_locate {A} (dim : nat) (parts : list (array A)) (i : nat)
    : option (array A * nat) :=
  match parts with
  | [] => None
  | p :: parts' =>
      let n := default 0 (ashape p !! dim) in
      if Nat.ltb i n then Some (p, i) else cat_locate dim parts' (i - n)
  end.

(** [torch.cat(tensors, dim=dim)]: all shapes agree except along [dim]. *)
Definition cat {A} (tensors : list (array A)) (dim : nat) : result (array A) :=
  match tensors with
  | [] => Raise (RuntimeError "cat")
  | p0 :: _ =>
      if decide (dim < length (ashape p0)) then
        if forallb (fun p => bool_decide (<[dim := 0]> (ashape p) = <[dim := 0]> (ashape p0)))
             tensors
        then
          let total := sum_list (map (fun p => default 0 (ashape p !! dim)) tensors) in
          atabulate (<[dim := total]> (ashape p0)) (fun idx =>
            let* i := of_option (idx !! dim) IndexError in
            let* (p, j) := of_option (cat_locate dim tensors i) IndexError in
            aget p (<[dim := j]> idx))
        else Raise (RuntimeError "cat")
      else Raise IndexError
  end.

(** [torch.arange(start, stop, step)] on integers, for a positive [step]:
    the values of [range(start, stop, step)]; torch rejects a [stop] below
    [start] ("upper bound and larger bound inconsistent with step sign"). *)
Definition py_range (start stop step : Z) : list Z :=
  map (fun i => (start + Z.of_nat i * step)%Z)
      (seq 0 (Z.to_nat ((stop - start + step - 1) / step))).

Definition arange (start stop step : Z) : result (list Z) :=
  if Z.ltb stop start then Raise (RuntimeError "upper bound and larger bound inconsistent with step sign")
  else Ok (py_range start stop step).

(** A Python index into an axis of size [n]: negative indices count from
    the end. *)
Definition norm_index (n : nat) (i : Z) : option nat :=
  if Z.leb 0 i && Z.ltb i (Z.of_nat n) then Some (Z.to_nat i)
  else if Z.leb (- Z.of_nat n) i && Z.ltb i 0 then Some (Z.to_nat (i + Z.of_nat n))
  else None.

(** Elementwise application of a function. *)
Definition amap {A} (f : A → result A) (a : array A) : result (array A) :=
  let* d := mapR f (acells a) in Ok (mkArray (ashape a) d).

(** Broadcasting: shapes are aligned at their last axes; two sizes are
    compatible when they are equal or one of them is 1. *)
Definition pad_shape (n : nat) (s : list nat) : list nat :=
  replicate (n - length s) 1 ++ s.

Definition broadcast_shapes (s1 s2 : list nat) : option (list nat) :=
  let n := Nat.max (length s1) (length s2) in
  mapM (fun '(a, b) =>
          if Nat.eqb a b then Some a
          else if Nat.eqb a 1 then Some b
          else if Nat.eqb b 1 then Some a
          else None)
       (zip (pad_shape n s1) (pad_shape n s2)).

(** The cell of [a] that the index [idx] of a broadcast result reads. *)
Definition aview {A} (a : array A) (idx : list nat) : result A :=
  aget a (zip_with (fun n i => if Nat.eqb n 1 then 0 else i) (ashape a)
            (drop (length idx - length (ashape a)) idx)).

Definition amap2 {A} (f : A → A → result A) (x y : array A) : result (array A) :=
  match broadcast_shapes (ashape x) (ashape y) with
  | None => Raise (RuntimeError "size mismatch")
  | Some s => atabulate s (fun idx =>
      let* a := aview x idx in let* b := aview y idx in f a b)
  end.

(** [a[:, ..., :, i]] with [pos] full slices: selects index [i] of axis [pos]
    and drops the axis. *)
Definition aselect {A} (a : array A) (pos : nat) (i : Z) : result (array A) :=
  let* n := of_option (ashape a !! pos) IndexError in
  let* k := of_option (norm_index n i) IndexError in
  atabulate (delete pos (ashape a)) (fun idx =>
    aget a (take pos idx ++ [k] ++ drop pos idx)).

(** Indexing axis [pos] by an integer array [ix] (all other axes sliced in
    full): the axes of [ix] take the place of axis [pos]. *)
Definition agather {A B} (to_index : B → option Z) (a : array A) (pos : nat)
    (ix : array B) : result (array A) :=
  let* n := of_option (ashape a !! pos) IndexError in
  let r := length (ashape ix) in
  atabulate (take pos (ashape a) ++ ashape ix ++ drop (S pos) (ashape a)) (fun idx =>
    let* i := aget ix (take r (drop pos idx)) in
    let* z := of_option (to_index i) IndexError in
    let* k := of_option (norm_index n z) IndexError in
    aget a (take pos idx ++ [k] ++ drop (pos + r) idx)).

(** [a.permute(perm)]: axis [k] of the result is axis [perm[k]] of [a]. *)
Definition apermute {A} (a : array A) (perm : list nat) : result (array A) :=
  if decide (perm ≡ₚ seq 0 (length (ashape a))) then
    let* shape := of_option (mapM (fun ax => ashape a !! ax) perm) IndexError in
    atabulate shape (fun idx =>
      let* old := of_option
        (mapM (fun ax => match list_find (fun x => x = ax) perm with
                         | Some (k, _) => idx !! k
                         | None => None
                         end)
              (seq 0 (length (ashape a)))) IndexError in
      aget a old)
  else Raise (RuntimeError "permute").

(** [a.reshape(shape)]: the same cells, in the same row-major order. *)
Definition areshape {A} (a : array A) (shape : list nat) : result (array A) :=
  if decide (fold_right Nat.mul 1 shape = length (acells a))
  then Ok (mkArray shape (acells a))
  else Raise (RuntimeError "reshape").

(** Reduction of axis [pos] with a binary operator; [unit] is the value for
    an axis of size 0, when the reduction has one. *)
Definition areduce {A} (f : A → A → result A) (unit : option A) (a : array A)
    (pos : nat) : result (array A) :=
  let* n := of_option (ashape a !! pos) IndexError in
  atabulate (delete pos (ashape a)) (fun idx =>
    let* cells := mapR (fun k => aget a (take pos idx ++ [k] ++ drop pos idx)) (seq 0 n) in
    match cells with
    | [] => of_option unit (RuntimeError "reduction of an empty axis")
    | _ => py_reduce f cells
    end).

(** Reduction of all cells to a scalar (an array without axes). *)
Definition areduce_all {A} (f : A → A → result A) (unit : option A) (a : array A)
    : result (array A) :=
  let* x := match acells a with
            | [] => of_option unit (RuntimeError "reduction of an empty tensor")
            | cells => py_reduce f cells
            end in
  Ok (mkArray [] [x]).

End Torch.

(** * Part I: [src/funsor/sum_product.py] *)

(** The module imports [Funsor] and [Number] from [funsor.terms] and [UNITS]
    from [funsor.ops]; none of them is in the sources at hand, so the engine is
    developed over an interface. [Op] is the type of the operators
    ([sum_op], [prod_op]); funsors are dictionary keys in [_partition], hence
    the decidable equality. *)
Class FunsorAPI (F Op R : Type) := {
  funsor_eq_dec :: EqDecision F;
(** the keys of [f.inputs], in the order of the [OrderedDict] *)
inputs : F → list string;
(** [op(f, g)] for two funsors *)
apply_op : Op → F → F → result F;
(** [f.reduce(op, vars)] for a frozenset [vars] of names *)
reduce : F → Op → gset string → result F;
(** [Number(x)] *)
Number : R → F;
(** the table [funsor.ops.UNITS] *)
UNITS : Op → option R;
}.

Module SumProduct.
Section Engine.
Context {F Op R : Type} `{API : FunsorAPI F Op R}.

(** Nodes of the bipartite graph of [_partition]: the dictionary
    [neighbors] is keyed by terms and by dimension names alike. *)
Inductive node : Type :=
| NTerm (t : F)
| NDim (d : string).

#[export] Instance node_eq_dec : EqDecision node.
Proof. solve_decision. Defined.

Definition is_term (v : node) : option F :=
  match v with NTerm t => Some t | NDim _ => None end.
Definition is_dim (v : node) : option string :=
  match v with NTerm _ => None | NDim d => Some d end.

(** [d.setdefault(k, []).append(x)] (also [d[k].append(x)] for a present
    key and for a [defaultdict(list)]). *)
Definition append_to {K V} `{EqDecision K}
    (k : K) (x : V) (d : list (K * list V)) : list (K * list V) :=
  OD.set k (default [] (OD.get k d) ++ [x]) d.

(** [component[v] = None] on an [OrderedDict] used as an ordered set. *)
Definition oset_add (c : list node) (v : node) : list node :=
  if decide (v ∈ c) then c else c ++ [v].

(** The bipartite graph between terms and the variables of [sum_vars]. *)
Definition build_neighbors (terms : list F) (sum_vars : gset string)
    : list (node * list node) :=
  let neighbors := fold_left (fun acc t => OD.set (NTerm t) [] acc) terms [] in
  fold_left (fun acc term =>
    fold_left (fun acc dim =>
      if decide (dim ∈ sum_vars)
      then append_to (NDim dim) (NTerm term) (append_to (NTerm term) (NDim dim) acc)
      else acc) (inputs term) acc) terms neighbors.

(** The inner loop [while pending: ...] of [_partition]. *)
Fixpoint grow (fuel : nat) (neighbors : list (node * list node))
    (component pending : list node)
    : result (list (node * list node) * list node) :=
  match list_pop pending with
  | None => Ok (neighbors, component)
  | Some (v, pending) =>
      match fuel with
      | O => Raise OutOfFuel
      | S fuel =>
          match OD.pop v neighbors with
          | None => Raise KeyError
          | Some (adj, neighbors) =>
              let '(component, pending) :=
                fold_left (fun '(c, p) u =>
                  if decide (u ∈ c) then (c, p) else (c ++ [u], p ++ [u]))
                  adj (component, pending) in
              grow fuel neighbors component pending
          end
      end
  end.

(** The outer loop [while neighbors: ...] of [_partition]. *)
Fixpoint components_loop (fuel : nat) (neighbors : list (node * list node))
    (components : list (list F * gset string))
    : result (list (list F * gset string)) :=
  match OD.popitem neighbors with
  | None => Ok components
  | Some ((v, pending), neighbors) =>
      match fuel with
      | O => Raise OutOfFuel
      | S fuel =>
          let component := fold_left oset_add pending [v] in
          let* (neighbors, component) :=
            grow (S (length neighbors)) neighbors component pending in
          let component_terms := omap is_term component in
          let components :=
            match component_terms with
            | [] => components
            | _ =>
                let component_dims : gset string :=
                  list_to_set (omap is_dim component) in
                components ++ [(component_terms, component_dims)]
            end in
          components_loop fuel neighbors components
      end
  end.

Definition _partition (terms : list F) (sum_vars : gset string)
    : result (list (list F * gset string)) :=
  let neighbors := build_neighbors terms sum_vars in
  components_loop (length neighbors) neighbors [].

(** The keys of [f.inputs] as a set ([set.intersection(f.inputs)]). *)
Definition input_set (f : F) : gset string := list_to_set (inputs f).

(** State of [partial_sum_product] before and during its main loop. *)
Record state : Type := {
  ordinal_to_factors : list (gset string * list F);
  results : list F;
}.

(** First loop: buckets of factors by ordinal, and the ordinal of every
    sum variable. *)
Definition index_factor (plates sum_vars : gset string)
    (acc : gmap string (gset string) * list (gset string * list F)) (f : F)
    : gmap string (gset string) * list (gset string * list F) :=
  let ordinal := plates ∩ input_set f in
  let otf := append_to ordinal f acc.2 in
  let vto :=
    fold_left (fun (vto : gmap string (gset string)) var =>
      <[var := default ordinal (vto !! var) ∩ ordinal]> vto)
      (elements (sum_vars ∩ input_set f)) acc.1 in
  (vto, otf).

Definition index_factors (plates sum_vars : gset string) (factors : list F)
    : gmap string (gset string) * list (gset string * list F) :=
  fold_left (index_factor plates sum_vars) factors (∅, []).

(** Second loop: [ordinal_to_vars[ordinal].add(var)]. *)
Definition build_ordinal_to_vars (var_to_ordinal : gmap string (gset string))
    : gmap (gset string) (gset string) :=
  fold_left (fun (otv : gmap (gset string) (gset string)) '(var, ordinal) =>
    <[ordinal := default ∅ (otv !! ordinal) ∪ {[var]}]> otv)
    (map_to_list var_to_ordinal) ∅.

(** [max(ordinal_to_factors, key=len)]: iterating a dictionary yields its
    keys, so [len] measures the ordinal. *)
Definition choose_leaf (otf : list (gset string * list F)) : option (gset string) :=
  py_max size (OD.keys otf).

(** The union of [var_to_ordinal[v]] over [v] in [remaining_sum_vars];
    a missing key raises [KeyError]. *)
Definition recompute_ordinal (var_to_ordinal : gmap string (gset string))
    (remaining_sum_vars : gset string) : result (gset string) :=
  foldM (fun acc v =>
    let* o := of_option (var_to_ordinal !! v) KeyError in Ok (acc ∪ o))
    (elements remaining_sum_vars) ∅.

Section Loop.
Variables (sum_op prod_op : Op) (eliminate plates : gset string).
Variable var_to_ordinal : gmap string (gset string).
Variable ordinal_to_vars : gmap (gset string) (gset string).

Definition sum_vars : gset string := eliminate ∖ plates.

(** Body of [for (group_factors, group_vars) in _partition(...)]. *)
Definition process_group (leaf : gset string) (st : state)
    (group : list F * gset string) : result state :=
  let '(group_factors, group_vars) := group in
  let* p := py_reduce (apply_op prod_op) group_factors in
  let* f := reduce p sum_op group_vars in
  let remaining_sum_vars := sum_vars ∩ input_set f in
  if decide (remaining_sum_vars = ∅) then
    let* r := reduce f prod_op (leaf ∩ eliminate) in
    Ok {| ordinal_to_factors := ordinal_to_factors st;
          results := results st ++ [r] |}
  else
    let* new_plates := recompute_ordinal var_to_ordinal remaining_sum_vars in
    if decide (new_plates = leaf) then Raise (ValueError "intractable!")
    else
      let* f := reduce f prod_op (leaf ∖ new_plates) in
      Ok {| ordinal_to_factors := append_to new_plates f (ordinal_to_factors st);
            results := results st |}.

(** Body of [while ordinal_to_factors: ...]. *)
Definition process_leaf (st : state) : result state :=
  let* leaf := of_option (choose_leaf (ordinal_to_factors st)) (ValueError "max") in
  let* (leaf_factors, otf) :=
    of_option (OD.pop leaf (ordinal_to_factors st)) KeyError in
  let leaf_reduce_vars := default ∅ (ordinal_to_vars !! leaf) in
  let* groups := _partition leaf_factors leaf_reduce_vars in
  foldM (process_group leaf) groups
    {| ordinal_to_factors := otf; results := results st |}.

Fixpoint main_loop (fuel : nat) (st : state) : result (list F) :=
  match ordinal_to_factors st with
  | [] => Ok (results st)
  | _ :: _ =>
      match fuel with
      | O => Raise OutOfFuel
      | S fuel => let* st := process_leaf st in main_loop fuel st
      end
  end.
End Loop.

(** [partial_sum_product]; [fuel] bounds the number of rounds of the
    [while] loop. *)
Definition partial_sum_product (fuel : nat) (sum_op prod_op : Op)
    (factors : list F) (eliminate plates : gset string) : result (list F) :=
  let '(var_to_ordinal, otf) := index_factors plates (sum_vars eliminate plates) factors in
  let ordinal_to_vars := build_ordinal_to_vars var_to_ordinal in
  main_loop sum_op prod_op eliminate plates var_to_ordinal ordinal_to_vars fuel
    {| ordinal_to_factors := otf; results := [] |}.

(** The states the main loop passes through: [reaches st st'] when the
    loop, started in [st], is about to test its guard in [st'] after some
    number of completed rounds. *)
Inductive reaches (sum_op prod_op : Op) (eliminate plates : gset string)
    (vto : gmap string (gset string)) (otv : gmap (gset string) (gset string))
    : state → state → Prop :=
| reaches_here st : reaches sum_op prod_op eliminate plates vto otv st st
| reaches_round st st' st'' :
    ordinal_to_factors st ≠ [] →
    process_leaf sum_op prod_op eliminate plates vto otv st = Ok st' →
    reaches sum_op prod_op eliminate plates vto otv st' st'' →
    reaches sum_op prod_op eliminate plates vto otv st st''.

(** The group [group] of the bucket [leaf] leaves a residual factor whose
    recomputed ordinal is [leaf] again. *)
Definition stuck_group (sum_op prod_op : Op) (eliminate plates : gset string)
    (vto : gmap string (gset string)) (leaf : gset string)
    (group : list F * gset string) : Prop :=
  ∃ p f new_plates,
    py_reduce (apply_op prod_op) group.1 = Ok p
    ∧ reduce p sum_op group.2 = Ok f
    ∧ sum_vars eliminate plates ∩ input_set f ≠ ∅
    ∧ recompute_ordinal vto (sum_vars eliminate plates ∩ input_set f) = Ok new_plates
    ∧ new_plates = leaf.

(** In state [st] the round of the main loop comes to such a group, the
    groups before it having been processed. *)
Definition stuck (sum_op prod_op : Op) (eliminate plates : gset string)
    (vto : gmap string (gset string)) (otv : gmap (gset string) (gset string))
    (st : state) : Prop :=
  ∃ leaf leaf_factors otf groups_before group groups_after st1,
    choose_leaf (ordinal_to_factors st) = Some leaf
    ∧ OD.pop leaf (ordinal_to_factors st) = Some (leaf_factors, otf)
    ∧ _partition leaf_factors (default ∅ (otv !! leaf))
        = Ok (groups_before ++ group :: groups_after)
    ∧ foldM (process_group sum_op prod_op eliminate plates vto leaf) groups_before
        {| ordinal_to_factors := otf; results := results st |} = Ok st1
    ∧ stuck_group sum_op prod_op eliminate plates vto leaf group.

(** The claim that the bucket processed has the most factors. *)
Definition most_factors_first (otf : list (gset string * list F))
    (leaf : gset string) : Prop :=
  ∃ fs, OD.get leaf otf = Some fs
    ∧ ∀ o fs', OD.get o otf = Some fs' → length fs' ≤ length fs.

(** [sum_product]: [reduce(prod_op, factors, Number(UNITS[prod_op]))]. *)
Definition sum_product (fuel : nat) (sum_op prod_op : Op)
    (factors : list F) (eliminate plates : gset string) : result F :=
  let* factors := partial_sum_product fuel sum_op prod_op factors eliminate plates in
  let* unit := of_option (UNITS prod_op) KeyError in
  foldM (apply_op prod_op) factors (Number unit).
(** ** Vocabulary for the properties of [_partition] and of the main loop *)

(** The nodes of the graph of [_partition terms sum_vars]. *)
Definition node_of_graph (terms : list F) (sum_vars : gset string) (v : node) : Prop :=
  match v with
  | NTerm t => t ∈ terms
  | NDim d => d ∈ sum_vars
  end.

Definition graph_nodes (terms : list F) (sum_vars : gset string)
    (neighbors : list (node * list node)) : Prop :=
  ∀ k adj, (k, adj) ∈ neighbors →
    node_of_graph terms sum_vars k ∧ Forall (node_of_graph terms sum_vars) adj.

Definition component_of_graph (terms : list F) (sum_vars : gset string)
    (c : list F * gset string) : Prop :=
  c.1 ≠ [] ∧ (∀ t, t ∈ c.1 → t ∈ terms) ∧ (∀ d, d ∈ c.2 → d ∈ sum_vars).

(** The number of terms among some nodes. *)
Definition nterms (l : list node) : nat := length (omap is_term l).

(** [u] is in the adjacency list of [k]. *)
Definition has_edge (g : list (node * list node)) (k u : node) : Prop :=
  ∃ adj, OD.get k g = Some adj ∧ u ∈ adj.

(** The edges of the graph of [_partition terms sum_vars]: a term and a
    variable of [sum_vars] among its inputs, in both directions. *)
Definition edge_of_graph (terms : list F) (sum_vars : gset string) (k u : node) : Prop :=
  match k, u with
  | NTerm t, NDim d => t ∈ terms ∧ d ∈ sum_vars ∧ d ∈ inputs t
  | NDim d, NTerm t => t ∈ terms ∧ d ∈ sum_vars ∧ d ∈ inputs t
  | _, _ => False
  end.

(** The state of the inner loop of [_partition] while it grows a component
    from the dictionary [start]: the nodes of the component that are not
    pending have left the dictionary, and their neighbours are in the
    component. *)
Definition grow_inv (start N : list (node * list node))
    (component pending : list node) : Prop :=
  (∀ kv, kv ∈ N → kv ∈ start)
  ∧ NoDup (OD.keys N)
  ∧ (∀ k, k ∈ OD.keys start → k ∈ OD.keys N ∨ k ∈ component)
  ∧ (∀ u, u ∈ pending → u ∈ component)
  ∧ (∀ u, u ∈ component →
       u ∈ pending
       ∨ ((u ∉ OD.keys N) ∧ ∃ adj, (u, adj) ∈ start ∧ ∀ w, w ∈ adj → w ∈ component))
  ∧ NoDup component.

(** No term and no variable belongs to two components. *)
Definition separated (comps : list (list F * gset string)) : Prop :=
  ∀ i j c c', comps !! i = Some c → comps !! j = Some c' → i ≠ j →
    (∀ t, t ∈ c.1 → t ∉ c'.1) ∧ c.2 ## c'.2.

(** A component of [_partition terms sum_vars]: some of the terms, each
    once, with exactly the variables of [sum_vars] among their inputs. *)
Definition component_of (terms : list F) (sum_vars : gset string)
    (c : list F * gset string) : Prop :=
  c.1 ≠ [] ∧ NoDup c.1 ∧ (∀ t, t ∈ c.1 → t ∈ terms)
  ∧ ∀ d, d ∈ c.2 ↔ d ∈ sum_vars ∧ ∃ t, t ∈ c.1 ∧ d ∈ inputs t.

(** The state of the outer loop of [_partition]. *)
Definition partition_inv (terms : list F) (sum_vars : gset string)
    (N : list (node * list node)) (comps : list (list F * gset string)) : Prop :=
  (∀ kv, kv ∈ N → kv ∈ build_neighbors terms sum_vars)
  ∧ NoDup (OD.keys N)
  ∧ (∀ t, t ∈ terms → NTerm t ∈ OD.keys N ∨ ∃ c, c ∈ comps ∧ t ∈ c.1)
  ∧ Forall (component_of terms sum_vars) comps
  ∧ (∀ c, c ∈ comps →
       (∀ t, t ∈ c.1 → NTerm t ∉ OD.keys N) ∧ (∀ d, d ∈ c.2 → NDim d ∉ OD.keys N))
  ∧ separated comps.

(** A factor [f] fits the bucket of the ordinal [L]: its plates are among
    [L], and so is the ordinal recorded for each of its sum variables. *)
Definition bucket_ok (plates svars : gset string)
    (vto : gmap string (gset string)) (L : gset string) (f : F) : Prop :=
  plates ∩ input_set f ⊆ L
  ∧ ∀ v, v ∈ svars → v ∈ input_set f → ∃ o, vto !! v = Some o ∧ o ⊆ L.

Definition otf_ok (plates svars : gset string)
    (vto : gmap string (gset string)) (otf : list (gset string * list F)) : Prop :=
  ∀ L fs, (L, fs) ∈ otf → Forall (bucket_ok plates svars vto L) fs.

(** None of the variables of [eliminate] is an input of [r]. *)
Definition eliminated (eliminate : gset string) (r : F) : Prop :=
  input_set r ∩ eliminate = ∅.

Definition state_ok (eliminate plates : gset string)
    (vto : gmap string (gset string)) (st : state) : Prop :=
  otf_ok plates (sum_vars eliminate plates) vto (ordinal_to_factors st)
  ∧ Forall (eliminated eliminate) (results st).

(** A measure of the work left in the main loop: every bucket counts, and
    every factor counts for more the larger its ordinal is. *)
Definition bucket_weight (b : gset string * list F) : nat :=
  1 + length b.2 * 2 ^ size b.1.

Definition weight (otf : list (gset string * list F)) : nat :=
  sum_list (map bucket_weight otf).
(** No adjacency list of the graph names a node twice. *)
Definition adj_NoDup (g : list (node * list node)) : Prop :=
  ∀ k adj, OD.get k g = Some adj → NoDup adj.

(** The neighbours of the keys of the dictionary are keys of it, and no node
    is its own neighbour. *)
Definition closed_graph (N : list (node * list node)) : Prop :=
  ∀ k adj u, (k, adj) ∈ N → u ∈ adj → u ∈ OD.keys N ∧ u ≠ k.

End Engine.
End SumProduct.

(** ** The operators of [funsor.ops] on integer scalars *)

(** Modelled from the spec: the "supported semiring-reduction operators (add,
    multiply, logical-and, logical-or, log-sum-exp, min, max)" of
    [funsor.ops], on integers; log-sum-exp is a floating point operator and
    has no counterpart here. *)
Inductive binop : Type := OpAdd | OpMul | OpAnd | OpOr | OpMin | OpMax.

Definition binop_fn (o : binop) : Z → Z → Z :=
  match o with
  | OpAdd => Z.add
  | OpMul => Z.mul
  | OpAnd => Z.land
  | OpOr => Z.lor
  | OpMin => Z.min
  | OpMax => Z.max
  end.

(** Modelled from the spec: the table [UNITS] of [funsor.ops], "the
    multiplicative/additive identity element appropriate to [prod_op]". *)
Definition binop_units (o : binop) : option Z :=
  match o with
  | OpMul => Some 1%Z
  | OpAdd => Some 0%Z
  | _ => None
  end.

(** ** Dense tensors with named inputs

    [funsor.torch.Tensor], [align_tensor] and the operators of [funsor.ops]
    are imported by [sum_product.py] but are not among the sources. *)
Module DenseTensor.
Import Torch.

(** [dtype] of a tensor: ["real"] or the bound of a bounded integer. *)
Inductive dtype : Type :=
| Real
| Bounded (bound : Z).

#[export] Instance dtype_eq_dec : EqDecision dtype.
Proof. solve_decision. Defined.

(** Modelled from the spec: [funsor.torch.Tensor], a funsor "backed by a
    concrete dense numeric array" whose "dims order matches the backing
    array's axis order exactly". [tinputs] is the ordered mapping from
    input names to sizes ([bint(size)]); [data] is the array in row-major
    order; outputs are scalars. *)
Record Tensor (A : Type) : Type := mkTensor {
  data : list A;
  tinputs : list (string * nat);
  tdtype : dtype;
}.
Arguments mkTensor {A} data tinputs tdtype.
Arguments data {A} t.
Arguments tinputs {A} t.
Arguments tdtype {A} t.

#[export] Instance Tensor_eq_dec {A} `{EqDecision A} : EqDecision (Tensor A).
Proof. solve_decision. Defined.

(** An assignment of an index to each named dimension. *)
Definition env := list (string * nat).

(** All assignments over [ins], in row-major order. *)
Fixpoint envs (ins : list (string * nat)) : list env :=
  match ins with
  | [] => [[]]
  | (k, n) :: ins' =>
      flat_map (fun i => map (cons (k, i)) (envs ins')) (seq 0 n)
  end.

Definition numel (ins : list (string * nat)) : nat :=
  fold_right (fun kn acc => kn.2 * acc) 1 ins.

(** Row-major offset of the cell addressed by [e]; [None] when a dimension
    is unassigned or its index is out of range. *)
Fixpoint offset (ins : list (string * nat)) (e : env) : option nat :=
  match ins with
  | [] => Some 0
  | (k, n) :: ins' =>
      match OD.get k e with
      | Some i =>
          if Nat.ltb i n
          then match offset ins' e with
               | Some o => Some (i * numel ins' + o)
               | None => None
               end
          else None
      | None => None
      end
  end.

Definition tget {A} (t : Tensor A) (e : env) : result A :=
  match offset (tinputs t) e with
  | Some o => of_option (data t !! o) IndexError
  | None => Raise IndexError
  end.

(** The array over [ins] whose cell at [e] is [f e]. *)
Definition tabulate {A} (ins : list (string * nat)) (f : env → result A)
    : result (list A) :=
  mapR f (envs ins).

(** Modelled from the spec: the constructor of a funsor checks that "all dim
    names are unique"; the array must have one cell per index. *)
Definition Tensor_init {A} (d : list A) (ins : list (string * nat)) (dt : dtype)
    : result (Tensor A) :=
  if decide (NoDup (map fst ins)) then
    if decide (length d = numel ins) then Ok (mkTensor d ins dt)
    else Raise AssertionError
  else Raise AssertionError.

(** *** Substitution *)

(** Values that [sum_product.py] substitutes for a dimension: an integer,
    a new name, or an integer tensor produced by [Slice]. *)
Inductive subvalue : Type :=
| SubInt (i : Z)
| SubName (s : string)
| SubTensor (u : Tensor Z).

Definition subs_inputs {A} (t : Tensor A) (subs : list (string * subvalue))
    : list (string * nat) :=
  flat_map (fun '(k, n) =>
    match OD.get k subs with
    | None => [(k, n)]
    | Some (SubInt _) => []
    | Some (SubName s) => [(s, n)]
    | Some (SubTensor u) => tinputs u
    end) (tinputs t).

Definition index_of_Z (i : Z) : result nat :=
  if Z.ltb i 0 then Raise IndexError else Ok (Z.to_nat i).

(** The index that dimension [k] of the receiver takes at cell [e] of the
    result. *)
Definition subs_index (subs : list (string * subvalue)) (e : env) (k : string)
    : result nat :=
  match OD.get k subs with
  | None => of_option (OD.get k e) KeyError
  | Some (SubInt i) => index_of_Z i
  | Some (SubName s) => of_option (OD.get s e) KeyError
  | Some (SubTensor u) => let* i := tget u e in index_of_Z i
  end.

(** Modelled from the spec: [Funsor.__call__] with named arguments on a
    [Tensor] (section 4.1): "Substituting an integer into a Tensor's
    dimension indexes and drops that dimension; [...] substituting a
    rename-string relabels a dimension in place without touching data;
    substituting a Tensor-valued index performs a gather along that axis and
    splices in the indexing funsor's own dims at that position", and dims
    that collide make the call fail. Arguments naming no dimension of the
    receiver are dropped. *)
Definition Tensor_call {A} (t : Tensor A) (subs : list (string * subvalue))
    : result (Tensor A) :=
  let ins := subs_inputs t subs in
  if decide (NoDup (map fst ins)) then
    let* d := tabulate ins (fun e =>
      let* old := mapR (fun '(k, _) =>
                    let* i := subs_index subs e k in Ok (k, i)) (tinputs t) in
      tget t old) in
    Tensor_init d ins (tdtype t)
  else Raise (NotImplementedError "TODO").

(** *** Pointwise operators and reductions *)

(** Modelled from the spec: a binary operator on two tensors (sections 4.1
    and 4.2) broadcasts "over the union of named dims", "dims are merged
    keeping first-seen order", "later operand's domain wins on conflicting
    name". *)
Definition Tensor_binary {A} (op : A → A → A) (x y : Tensor A)
    : result (Tensor A) :=
  let ins := OD.update (tinputs x) (tinputs y) in
  let* d := tabulate ins (fun e =>
    let* a := tget x e in let* b := tget y e in Ok (op a b)) in
  Tensor_init d ins (tdtype x).

(** Modelled from the spec: [reduce(op, dims)] (section 4.1) "eliminates
    one or more named dimensions", "enumerates every index of a finite
    dimension [...] and folds results pairwise with [op]"; "Unknown [...]
    dims cannot be reduced". *)
Definition Tensor_reduce {A} (op : A → A → A) (t : Tensor A) (vars : gset string)
    : result (Tensor A) :=
  if decide (vars ⊆ list_to_set (map fst (tinputs t))) then
    let kept := filter (fun kn => kn.1 ∉ vars) (tinputs t) in
    let gone := filter (fun kn => kn.1 ∈ vars) (tinputs t) in
    let* d := tabulate kept (fun e =>
      let* cells := mapR (fun e' => tget t (e ++ e')) (envs gone) in
      py_reduce (fun a b => Ok (op a b)) cells) in
    Tensor_init d kept (tdtype t)
  else Raise (NotImplementedError "cannot reduce dim").

(** Modelled from the spec: [align_tensor(new_inputs, x)] (section 4.2)
    yields "a possibly-transposed, possibly-size-1-padded view matching
    that union order"; "dimensions the array does not have are inserted as
    broadcastable size-1 axes". *)
Definition align_tensor {A} (new_inputs : list (string * nat)) (x : Tensor A)
    : result (array A) :=
  let shape := map (fun '(k, _) => default 1 (OD.get k (tinputs x))) new_inputs in
  atabulate shape (fun idx =>
    tget x (omap (fun '((k, _), i) =>
              match OD.get k (tinputs x) with
              | Some _ => Some (k, i)
              | None => None
              end) (zip new_inputs idx))).

(** [Slice(name, *args)] *)
Definition Slice (name : string) (args : list Z) : result (Tensor Z) :=
  let* (start, stop, step, bound) :=
    match args with
    | [stop] => Ok (0%Z, stop, 1%Z, stop)
    | [start; stop] => Ok (start, stop, 1%Z, stop)
    | [start; stop; step] => Ok (start, stop, step, stop)
    | [start; stop; step; bound] => Ok (start, stop, step, bound)
    | _ => Raise (ValueError "")
    end in
  if Z.leb step 0 then Raise (ValueError "")
  else
    let* data := arange start stop step in
    let inputs := [(name, length data)] in
    Tensor_init data inputs (Bounded bound).

(** Position of [x] in a tuple ([tuple.index]). *)
Fixpoint index_of (x : string) (l : list string) : option nat :=
  match l with
  | [] => None
  | y :: l' => if decide (x = y) then Some 0 else S <$> index_of x l'
  end.

(** [Cat(parts, name)]. Every part is a [Tensor] by typing, so the second
    guard of the source never fires; [part.output] is the part's [dtype]
    (outputs are scalars). *)
Definition Cat {A} (parts : list (Tensor A)) (name : string) : result (Tensor A) :=
  match parts with
  | [part] => Ok part
  | _ =>
      if decide (1 < length (remove_dups (map tdtype parts)))
      then Raise (NotImplementedError "TODO")
      else
        let inputs := fold_left (fun acc x => OD.update acc (tinputs x)) parts [] in
        let* (inputs, tensors) :=
          foldM (fun '(inputs, tensors) part =>
            let* n := of_option (OD.get name (tinputs part)) KeyError in
            let inputs := OD.set name n inputs in
            let shape := map snd inputs in
            let* a := align_tensor inputs part in
            let* a := expand a shape in
            Ok (inputs, tensors ++ [a])) parts (inputs, []) in
        let* dim := of_option (index_of name (map fst inputs)) (ValueError "") in
        let* tensor := cat tensors dim in
        let* n := of_option (ashape tensor !! dim) IndexError in
        let inputs := OD.set name n inputs in
        let* part0 := of_option (head parts) IndexError in
        Tensor_init (acells tensor) inputs (tdtype part0)
  end.

Section Sequential.
Context {A Op : Type}.
(** The function an operator of [funsor.ops] computes on two scalars. *)
Variable op_fn : Op → A → A → A.

(** [trans.inputs[time].size] *)
Definition input_size (trans : Tensor A) (time : string) : result nat :=
  of_option (OD.get time (tinputs trans)) KeyError.

(** The loop [while trans.inputs[time].size > 1: ...], one round per unit
    of [fuel]. *)
Fixpoint scan_loop (fuel : nat) (sum_op prod_op : Op) (trans : Tensor A)
    (time prev curr : string) : result (Tensor A) :=
  let* duration := input_size trans time in
  if Nat.ltb 1 duration then
    match fuel with
    | O => Raise OutOfFuel
    | S fuel =>
        let even_duration := duration / 2 * 2 in
        let* sx := Slice time [0%Z; Z.of_nat even_duration; 2%Z; Z.of_nat duration] in
        let* x := Tensor_call trans
                    (OD.set curr (SubName "_drop") (OD.set time (SubTensor sx) [])) in
        let* sy := Slice time [1%Z; Z.of_nat even_duration; 2%Z; Z.of_nat duration] in
        let* y := Tensor_call trans
                    (OD.set prev (SubName "_drop") (OD.set time (SubTensor sy) [])) in
        let* xy := Tensor_binary (op_fn prod_op) x y in
        let* contracted := Tensor_reduce (op_fn sum_op) xy {["_drop"]} in
        let* contracted :=
          if Nat.ltb even_duration duration then
            let* se := Slice time [(Z.of_nat duration - 1)%Z; Z.of_nat duration] in
            let* extra := Tensor_call trans [(time, SubTensor se)] in
            Cat [contracted; extra] time
          else Ok contracted in
        scan_loop fuel sum_op prod_op contracted time prev curr
    end
  else Tensor_call trans [(time, SubInt 0)].

(** [sequential_sum_product]: every round leaves fewer time steps than it
    found, so the size of [time] bounds the number of rounds. *)
Definition sequential_sum_product (sum_op prod_op : Op) (trans : Tensor A)
    (time prev curr : string) : result (Tensor A) :=
  let* duration := input_size trans time in
  scan_loop duration sum_op prod_op trans time prev curr.
End Sequential.
(** ** Vocabulary for the properties of [Slice] and of the scan *)

(** How [Slice] reads its positional arguments: [start], [stop], [step]
    and [bound] for one to four arguments. *)
Inductive slice_args : list Z → Z → Z → Z → Z → Prop :=
| slice_args1 stop : slice_args [stop] 0 stop 1 stop
| slice_args2 start stop : slice_args [start; stop] start stop 1 stop
| slice_args3 start stop step : slice_args [start; stop; step] start stop step stop
| slice_args4 start stop step bound :
    slice_args [start; stop; step; bound] start stop step bound.

Section ChainSum.
Context {A Op : Type} (op_fn : Op → A → A → A) (sum_op prod_op : Op).
Context (zero : A).

(** The transition tensor with entries [M t prev curr] over the inputs
    [ins] (the three dimensions in some order). *)
Definition transition (ins : list (string * nat)) (M : nat → nat → nat → A)
    : Tensor A :=
  mkTensor
    (map (fun e => M (default 0 (OD.get "time" e)) (default 0 (OD.get "prev" e))
                     (default 0 (OD.get "curr" e))) (envs ins))
    ins Real.

(** All sequences of [n] intermediate states of a 2-state chain. *)
Fixpoint state_paths (n : nat) : list (list nat) :=
  match n with
  | O => [[]]
  | S n' => flat_map (fun s => map (cons s) (state_paths n')) [0; 1]
  end.

(** The product [M t s s1 * M (t+1) s1 s2 * ... * M _ sk s_end] along the
    intermediate states [path]. *)
Fixpoint path_product (M : nat → nat → nat → A) (t s : nat) (path : list nat)
    (s_end : nat) : A :=
  match path with
  | [] => M t s s_end
  | s' :: path' => op_fn prod_op (M t s s') (path_product M (S t) s' path' s_end)
  end.

(** The explicit chain sum of the specification: the sum over all
    intermediate states [s1 .. s(T-1)] of the product of the [T] entries
    along them. *)
Definition chain_sum (M : nat → nat → nat → A) (T s0 sT : nat) : A :=
  fold_right (op_fn sum_op) zero
    (map (fun path => path_product M 0 s0 path sT) (state_paths (T - 1))).
End ChainSum.

End DenseTensor.

(** * Part II: [src/funsor.py] *)

Module Terms.
Import Torch.

(** A size: "either a nonnegative integer or a string denoting a continuous
    domain". *)
Inductive domain : Type :=
| Int (n : nat)
| Cont (tag : string).

#[export] Instance domain_eq_dec : EqDecision domain.
Proof. solve_decision. Defined.

#[export] Instance domain_countable : Countable domain.
Proof.
  refine (inj_countable'
    (fun d => match d with Int n => inl n | Cont s => inr s end)
    (fun x => match x with inl n => Int n | inr s => Cont s end) _).
  by intros [].
Defined.

Definition DOMAINS : list string := ["real"; "positive"; "unit_interval"].

(** The functions used as operators: those of [operator] and of this module
    ([_abs], [_sqrt], [_exp], [_log], [_log1p]; [_logaddexp], [min], [max],
    [_marginal], [_sample]). *)
Inductive unary_op : Type :=
| op_invert | op_neg | op_abs | op_sqrt | op_exp | op_log | op_log1p.

Inductive binary_op : Type :=
| op_add | op_mul | op_and | op_or | op_logaddexp | op_min | op_max
| op_marginal | op_sample.

#[export] Instance unary_op_eq_dec : EqDecision unary_op.
Proof. solve_decision. Defined.
#[export] Instance binary_op_eq_dec : EqDecision binary_op.
Proof. solve_decision. Defined.

(** Python numbers and their arithmetic. Floating point is not modelled: the
    development is parametric in the numbers. *)
Class Numeric (num : Type) := {
  (** the number an [int] denotes *)
  num_of_Z : Z → num;
  (** the integer value of a number that is an [int] *)
  num_int : num → option Z;
  num_unary : unary_op → num → result num;
  num_binary : binary_op → num → num → result num;
  (** the result of a torch reduction over no elements, where defined *)
  num_unit : binary_op → option num;
}.

Section Values.
Context {num : Type} `{Numeric num}.

(** Python values that reach the methods of a funsor, the three concrete
    variants of [Funsor], and the functions behind a [Function]: one given by
    the user, the closures [fn] that [pointwise_unary] and [pointwise_binary]
    build, and [functools.partial]. *)
Inductive value : Type :=
| VNone
| VEllipsis
| VNum (x : num)
| VStr (s : string)
| VSlice (start stop step : option Z)
| VData (t : array num)                (* a [torch.Tensor] *)
| VUnary (o : unary_op)
| VBinary (o : binary_op)
| VLambda (op other : value)           (* [lambda a: op(a, other)] *)
| VFunsor (f : funsor)
with funsor : Type :=
| Variable_ (name : string) (size : domain)
| Function (dims : list string) (shape : list domain) (fn : pyfn)
| Tensor (dims : list string) (data : array num)
with pyfn : Type :=
| fn_def (id : nat)
| fn_unary (self : funsor) (op : value)
| fn_binary (self other : funsor) (op : value)
| fn_broadcast (dims : list string) (self other : funsor) (op : value)
| fn_partial (fn : pyfn) (args : list value) (kwargs : list (string * value)).

Definition f_dims (f : funsor) : list string :=
  match f with
  | Variable_ name _ => [name]
  | Function dims _ _ => dims
  | Tensor dims _ => dims
  end.

Definition f_shape (f : funsor) : list domain :=
  match f with
  | Variable_ _ size => [size]
  | Function _ shape _ => shape
  | Tensor _ data => map Int (ashape data)
  end.

(** [self.schema = OrderedDict(zip(dims, shape))] *)
Definition f_schema (f : funsor) : list (string * domain) :=
  fold_left (fun acc kv => OD.set kv.1 kv.2 acc) (zip (f_dims f) (f_shape f)) [].

Definition valid_size (s : domain) : bool :=
  match s with
  | Int _ => true
  | Cont tag => bool_decide (tag ∈ DOMAINS)
  end.

(** The assertions of [Funsor.__init__]. *)
Definition Funsor_init (dims : list string) (shape : list domain) : result unit :=
  if decide (NoDup dims) then
    if forallb valid_size shape then
      if decide (length dims = length shape) then Ok ()
      else Raise AssertionError
    else Raise AssertionError
  else Raise AssertionError.

(** [Function(dims, shape, fn)] *)
Definition Function_init (dims : list string) (shape : list domain) (fn : pyfn)
    : result funsor :=
  let* _ := Funsor_init dims shape in Ok (Function dims shape fn).

(** [Tensor(dims, data)]: [data] must be a [torch.Tensor]; the shape of the
    funsor is [data.shape]. *)
Definition Tensor_init (dims : list string) (data : value) : result funsor :=
  match data with
  | VData t => let* _ := Funsor_init dims (map Int (ashape t)) in Ok (Tensor dims t)
  | _ => Raise AssertionError
  end.

(** ** The registry of variables *)

(** Objects whose identity matters carry an identifier. *)
Record obj : Type := mkObj {
  oid : nat;
  oval : funsor;
}.

(** The interpreter state: the weak dictionary [_VARIABLES] and the next
    fresh object identifier. *)
Record registry : Type := mkRegistry {
  next_id : nat;
  _VARIABLES : gmap (string * domain) obj;
}.

(** Computations that read and update the registry and may raise. *)
Definition M (A : Type) : Type := registry → result (A * registry).

Definition ret {A} (a : A) : M A := fun reg => Ok (a, reg).
Definition raise {A} (e : exn) : M A := fun _ => Raise e.
Definition lift {A} (x : result A) : M A :=
  fun reg => match x with Ok a => Ok (a, reg) | Raise e => Raise e end.
Definition bind {A B} (m : M A) (k : A → M B) : M B :=
  fun reg => match m reg with
             | Ok (a, reg') => k a reg'
             | Raise e => Raise e
             end.

Notation "'let!' x := m 'in' k" := (bind m (fun x => k))
  (at level 10, x pattern, m at level 100, k at level 200).

Fixpoint foldMM {A B} (step : A → B → M A) (l : list B) (acc : A) : M A :=
  match l with
  | [] => ret acc
  | x :: l' => let! acc' := step acc x in foldMM step l' acc'
  end.

(** [Variable(name, size)] *)
Definition Variable_init (name : string) (size : domain) : M funsor :=
  fun reg =>
    match _VARIABLES reg !! (name, size) with
    | Some _ => Raise AssertionError
    | None => lift (let* _ := Funsor_init [name] [size] in Ok (Variable_ name size)) reg
    end.

(** [torch.arange(size)] *)
Definition torch_arange (n : nat) : array num :=
  mkArray [n] (map (fun i => num_of_Z (Z.of_nat i)) (seq 0 n)).

(** [var(name, size)] *)
Definition var (name : string) (size : domain) : M obj :=
  fun reg =>
    let key := (name, size) in
    match _VARIABLES reg !! key with
    | Some o => Ok (o, reg)
    | None =>
        let* (result, reg) :=
          match size with
          | Int n => lift (Tensor_init [name] (VData (torch_arange n))) reg
          | Cont _ => Variable_init name size reg
          end in
        let o := mkObj (next_id reg) result in
        Ok (o, mkRegistry (S (next_id reg)) (<[key := o]> (_VARIABLES reg)))
    end.

(** ** [__call__] *)

(** [Variable.__call__] *)
Definition Variable_call (self : funsor) (args : list value)
    (kwargs : list (string * value)) : M value :=
  match self with
  | Variable_ name size =>
      let kwargs := OD.update kwargs (zip (f_dims self) args) in
      match OD.get name kwargs with
      | None => ret (VFunsor self)
      | Some VEllipsis => ret (VFunsor self)
      | Some (VStr value) => let! o := var value size in ret (VFunsor (oval o))
      | Some (VNum _) => ret VNone
      | Some (VFunsor value) => ret (VFunsor value)
      | Some _ => raise (NotImplementedError "TODO handle")
      end
  | _ => raise TypeError
  end.

(** [{d: i for d, i in kwargs.items() if d in self.dims}] *)
Definition own_kwargs (dims : list string) (kwargs : list (string * value))
    : list (string * value) :=
  filter (fun kv => kv.1 ∈ dims) kwargs.

(** [Function.__call__] *)
Definition Function_call (self : funsor) (args : list value)
    (kwargs : list (string * value)) : result value :=
  match self with
  | Function sdims sshape sfn =>
      let kwargs := own_kwargs sdims kwargs in
      match args, kwargs with
      | [], [] => Ok (VFunsor self)
      | _, _ =>
          let dims := filter (fun d => d ∉ OD.keys kwargs) (drop (length args) sdims) in
          let* shape := mapR (fun d => of_option (OD.get d (f_schema self)) KeyError) dims in
          let fn := fn_partial sfn args kwargs in
          let* f := Function_init dims shape fn in
          Ok (VFunsor f)
      end
  | _ => Raise TypeError
  end.

(** [tuple.index] *)
Fixpoint index_of (x : string) (l : list string) : option nat :=
  match l with
  | [] => None
  | y :: l' => if decide (x = y) then Some 0 else S <$> index_of x l'
  end.

(** [torch.arange(start, stop, step)] for the bounds of a slice. *)
Definition slice_arange (start stop step : Z) : result (array num) :=
  if Z.eqb step 0 then Raise (RuntimeError "step must be nonzero")
  else if Z.ltb 0 step then
    let* l := arange start stop step in
    Ok (mkArray [length l] (map num_of_Z l))
  else
    if Z.ltb start stop
    then Raise (RuntimeError "upper bound and larger bound inconsistent with step sign")
    else
      let l := map (fun z => (- z)%Z) (py_range (- start) (- stop) (- step)) in
      Ok (mkArray [length l] (map num_of_Z l)).

(** The last part of [Tensor._substitute], for a [Tensor] value. *)
Definition substitute_tensor (sdims : list string) (sdata : array num)
    (dim : string) (pos : nat) (vdims : list string) (vdata : array num)
    : result funsor :=
  let dims := take pos sdims ++ vdims ++ drop (1 + pos) sdims in
  if existsb (fun d => bool_decide (d ≠ dim ∧ d ∈ sdims)) vdims
  then Raise (NotImplementedError "TODO")
  else
    let* data := agather num_int sdata pos vdata in
    Tensor_init dims (VData data).

(** [Tensor._substitute] *)
Definition Tensor__substitute (self : funsor) (dim : string) (value : value)
    : result funsor :=
  match self with
  | Tensor sdims sdata =>
      let* pos := of_option (index_of dim sdims) (ValueError "tuple.index") in
      match value with
      | VNum x =>
          let dims := take pos sdims ++ drop (1 + pos) sdims in
          let* i := of_option (num_int x) IndexError in
          let* data := aselect sdata pos i in
          Tensor_init dims (VData data)
      | VSlice None None None => Ok self
      | VSlice start stop step =>
          let start := default 0%Z start in
          let* size := of_option (ashape sdata !! pos) IndexError in
          let stop := default (Z.of_nat size) stop in
          let step := default 1%Z step in
          let* r := slice_arange start stop step in
          let* value := Tensor_init [dim] (VData r) in
          substitute_tensor sdims sdata dim pos (f_dims value) r
      | VFunsor (Tensor vdims vdata) =>
          substitute_tensor sdims sdata dim pos vdims vdata
      | VStr value =>
          if decide (sdims !! pos = Some value) then Ok self
          else
            (* [dims[pos] = dim]: the position gets the name it already has *)
            let dims := <[pos := dim]> sdims in
            Tensor_init dims (VData sdata)
      | _ => Raise (NotImplementedError "TODO handle")
      end
  | _ => Raise TypeError
  end.

Definition is_Ellipsis (v : value) : bool :=
  match v with VEllipsis => true | _ => false end.

(** Position of the first element that satisfies [p]. *)
Fixpoint find_pos {A} (p : A → bool) (l : list A) : option nat :=
  match l with
  | [] => None
  | x :: l' => if p x then Some 0 else S <$> find_pos p l'
  end.

(** [Tensor.__call__] *)
Definition Tensor_call (self : funsor) (args : list value)
    (kwargs : list (string * value)) : result value :=
  let kwargs := own_kwargs (f_dims self) kwargs in
  (* Handle Ellipsis notation like x[..., 0]. *)
  let '(args, kwargs) :=
    match find_pos is_Ellipsis args with
    | Some pos =>
        (take pos args,
         OD.update kwargs (zip (rev (f_dims self)) (rev (drop (1 + pos) args))))
    | None => (args, kwargs)
    end in
  (* Substitute one dim at a time. *)
  let kwargs := OD.update kwargs (zip (f_dims self) args) in
  let* result := foldM (fun result kv => Tensor__substitute result kv.1 kv.2) kwargs self in
  Ok (VFunsor result).

(** Calling a funsor [f] with positional and named arguments: dispatch on
    the class of [f]. *)
Definition call (f : funsor) (args : list value) (kwargs : list (string * value))
    : M value :=
  match f with
  | Variable_ _ _ => Variable_call f args kwargs
  | Function _ _ _ => lift (Function_call f args kwargs)
  | Tensor _ _ => lift (Tensor_call f args kwargs)
  end.

(** ** Alignment of tensors *)

(** [_align_tensors]: the arguments are pairs [(dims, data)]. *)
Definition _align_tensors (args : list (list string * array num))
    : result (list string * list (array num)) :=
  let* sizes :=
    foldM (fun (sizes : list (string * nat)) '(x_dims, x) =>
      if decide (length x_dims = length (ashape x))
      then Ok (fold_left (fun acc ds => OD.set ds.1 ds.2 acc) (zip x_dims (ashape x)) sizes)
      else Raise AssertionError) args [] in
  let dims := OD.keys sizes in
  let* tensors :=
    mapR (fun '(x_dims, x) =>
      let* x :=
        if decide (x_dims = dims) then Ok x
        else
          let* x := apermute x (omap (fun d => index_of d x_dims) dims) in
          areshape x (map (fun d => if decide (d ∈ x_dims)
                                    then default 0 (OD.get d sizes) else 1) dims) in
      if decide (length (ashape x) = length dims) then Ok x
      else Raise AssertionError) args in
  Ok (dims, tensors).

(** ** Operators on numbers and arrays *)

Definition as_array (v : value) : option (array num) :=
  match v with
  | VNum x => Some (mkArray [] [x])
  | VData t => Some t
  | _ => None
  end.

(** A binary operator on numbers and arrays: elementwise, with broadcasting. *)
Definition data_binary (o : binary_op) (x y : value) : result value :=
  match x, y with
  | VNum a, VNum b => let* c := num_binary o a b in Ok (VNum c)
  | _, _ =>
      match as_array x, as_array y with
      | Some a, Some b => let* c := amap2 (num_binary o) a b in Ok (VData c)
      | _, _ => Raise TypeError
      end
  end.

(** The keys of [_REDUCE_OP_TO_TORCH]. *)
Definition in_REDUCE_OP_TO_TORCH (o : binary_op) : bool :=
  match o with
  | op_add | op_mul | op_and | op_or | op_logaddexp | op_min | op_max => true
  | op_marginal | op_sample => false
  end.

(** ** The methods of [Funsor] and its subclasses *)

Section Methods.
(** The order in which a [frozenset] is iterated. *)
Variable frozenset_iter : gset string → list string.
(** Calling a callable value on positional arguments; the knot is tied by
    [apply] below. *)
Variable apply : value → list value → M value.

(** [Funsor.pointwise_unary] *)
Definition Funsor_pointwise_unary (self : funsor) (op : value) : M value :=
  lift (let* f := Function_init (f_dims self) (f_shape self) (fn_unary self op) in
        Ok (VFunsor f)).

(** [Variable.pointwise_unary]: [TransformedVariable] does not define
    [__call__], which is abstract in [Funsor], so that instantiating it
    raises [TypeError]. *)
Definition Variable_pointwise_unary (self : funsor) (op : value) : M value :=
  match op with
  | VUnary op_exp => raise TypeError
  | VUnary op_log => raise TypeError
  | _ => Funsor_pointwise_unary self op
  end.

(** [Tensor.pointwise_unary] *)
Definition Tensor_pointwise_unary (self : funsor) (op : value) : M value :=
  match self with
  | Tensor sdims sdata =>
      let! data := apply op [VData sdata] in
      lift (let* f := Tensor_init sdims data in Ok (VFunsor f))
  | _ => raise TypeError
  end.

(** [self.pointwise_unary(op)] *)
Definition pointwise_unary (self : funsor) (op : value) : M value :=
  match self with
  | Variable_ _ _ => Variable_pointwise_unary self op
  | Function _ _ _ => Funsor_pointwise_unary self op
  | Tensor _ _ => Tensor_pointwise_unary self op
  end.

(** [Funsor.pointwise_binary(self, other, op)] *)
Definition Funsor_pointwise_binary (self : funsor) (other op : value) : M value :=
  match other with
  | VFunsor other =>
      if decide (f_dims self = f_dims other) then
        let dims := f_dims self in
        let shape := f_shape self in
        lift (let* f := Function_init dims shape (fn_binary self other op) in
              Ok (VFunsor f))
      else
        let schema := OD.update (f_schema self) (f_schema other) in
        let dims := map fst schema in
        let shape := map snd schema in
        lift (let* f := Function_init dims shape (fn_broadcast dims self other op) in
              Ok (VFunsor f))
  | _ => pointwise_unary self (VLambda op other)
  end.

(** [Tensor.pointwise_binary(self, other, op)] *)
Definition Tensor_pointwise_binary (self : funsor) (other op : value) : M value :=
  match self, other with
  | Tensor sdims sdata, VFunsor (Tensor odims odata) =>
      if decide (sdims = odims) then
        let! data := apply op [VData sdata; VData odata] in
        lift (let* f := Tensor_init sdims data in Ok (VFunsor f))
      else
        let! (dims, xs) := lift (_align_tensors [(sdims, sdata); (odims, odata)]) in
        match xs with
        | [self_x; other_x] =>
            let! data := apply op [VData self_x; VData other_x] in
            lift (let* f := Tensor_init dims data in Ok (VFunsor f))
        | _ => raise (ValueError "unpack")
        end
  | _, _ => Funsor_pointwise_binary self other op
  end.

(** [self.pointwise_binary(other, op)] *)
Definition pointwise_binary (self : funsor) (other op : value) : M value :=
  match self with
  | Tensor _ _ => Tensor_pointwise_binary self other op
  | _ => Funsor_pointwise_binary self other op
  end.

(** [op(x)] for a unary operator: [operator.neg(x)] is [x.__neg__()],
    [_exp(x)] is [x.exp()] unless [x] is a number, and so on; on a funsor all
    of them are [x.pointwise_unary(op)]. *)
Definition apply_unary (o : unary_op) (x : value) : M value :=
  match x with
  | VNum a => lift (let* b := num_unary o a in Ok (VNum b))
  | VData t => lift (let* u := amap (num_unary o) t in Ok (VData u))
  | VFunsor f => pointwise_unary f (VUnary o)
  | _ =>
      match o with
      | op_invert | op_neg => raise TypeError
      | _ => raise AttributeError
      end
  end.

(** [op(x, y)] for a binary operator. [_logaddexp], [_marginal] and
    [_sample] are placeholders that raise. With a funsor on the left,
    [operator.add(x, y)] is [x.__add__(y)] and [min(x, y)] is [x.__min__(y)],
    that is [x.pointwise_binary(y, op)]; with a funsor on the right only, the
    reflected method gives [y.pointwise_binary(x, op)], except that the
    arithmetic of a [torch.Tensor] rejects a funsor operand itself. *)
Definition apply_binary (o : binary_op) (x y : value) : M value :=
  match o with
  | op_logaddexp => raise (NotImplementedError "")
  | op_marginal | op_sample => raise (ValueError "")
  | _ =>
      match x, y with
      | VFunsor f, _ => pointwise_binary f y (VBinary o)
      | VData _, VFunsor g =>
          match o with
          | op_min | op_max => pointwise_binary g x (VBinary o)
          | _ => raise TypeError
          end
      | _, VFunsor g => pointwise_binary g x (VBinary o)
      | _, _ => lift (data_binary o x y)
      end
  end.

(** The generator [(result(dim=i) for i in range(size))] folded by
    [functools.reduce(op, ...)]: items are produced one at a time. *)
Definition reduce_dim (op : value) (result : funsor) (dim : string) (size : nat)
    : M value :=
  match size with
  | O => raise TypeError
  | S size' =>
      let! first := call result [] [(dim, VNum (num_of_Z 0))] in
      foldMM (fun acc i =>
        let! item := call result [] [(dim, VNum (num_of_Z (Z.of_nat i)))] in
        apply op [acc; item]) (seq 1 size') first
  end.

(** The body of the loop [for dim in dims] of [Funsor.reduce]. *)
Definition reduce_round (op : value) (result : value) (dim : string) : M value :=
  match result with
  | VFunsor result =>
      let! size := lift (of_option (OD.get dim (f_schema result)) KeyError) in
      match size with
      | Int size => reduce_dim op result dim size
      | Cont _ => raise (NotImplementedError "cannot reduce dim")
      end
  | _ => raise AttributeError
  end.

(** [Funsor.reduce(self, op, dims=None)] *)
Definition Funsor_reduce (self : funsor) (op : value) (dims : option (gset string))
    : M value :=
  let dims : gset string :=
    match dims with
    | None => list_to_set (f_dims self)
    | Some dims => dims ∩ list_to_set (f_dims self)
    end in
  foldMM (reduce_round op) (frozenset_iter dims) (VFunsor self).

(** Positions in decreasing order ([reversed(sorted(...))]). *)
Definition sorted_desc (l : list nat) : list nat :=
  rev (merge_sort Nat.le l).

(** [Tensor.reduce(self, op, dims=None)]. A funsor defines [__eq__] and not
    [__hash__], so that looking it up in the table raises [TypeError]. *)
Definition Tensor_reduce (self : funsor) (op : value) (dims : option (gset string))
    : M value :=
  match self, op with
  | Tensor sdims sdata, VFunsor _ => raise TypeError
  | Tensor sdims sdata, VBinary o =>
      if in_REDUCE_OP_TO_TORCH o then
        match dims with
        | None =>
            lift (let* data := areduce_all (num_binary o) (num_unit o) sdata in
                  let* f := Tensor_init [] (VData data) in Ok (VFunsor f))
        | Some dims =>
            let dims : gset string := dims ∩ list_to_set sdims in
            if decide (dims = ∅) then ret (VFunsor self)
            else
              lift (let* data :=
                      foldM (fun data pos => areduce (num_binary o) (num_unit o) data pos)
                        (sorted_desc (omap (fun d => index_of d sdims) (frozenset_iter dims)))
                        sdata in
                    let dims := filter (fun d => d ∉ dims) sdims in
                    let* f := Tensor_init dims (VData data) in Ok (VFunsor f))
        end
      else Funsor_reduce self op dims
  | _, _ => Funsor_reduce self op dims
  end.

(** [self.reduce(op, dims)] *)
Definition reduce_ (self : funsor) (op : value) (dims : option (gset string))
    : M value :=
  match self with
  | Tensor _ _ => Tensor_reduce self op dims
  | _ => Funsor_reduce self op dims
  end.

(** A method called on a value that may not be a funsor. *)
Definition method_reduce (v : value) (op : value) (dims : option (gset string))
    : M value :=
  match v with
  | VFunsor f => reduce_ f op dims
  | _ => raise AttributeError
  end.

(** [Funsor.contract(self, sum_op, prod_op, other, dims=None)]: the body
    passes [prod_op] for the parameter [other] of [pointwise_binary] and
    [other] for its parameter [op]. *)
Definition Funsor_contract (self : funsor) (sum_op prod_op other : value)
    (dims : option (gset string)) : M value :=
  let! product := pointwise_binary self prod_op other in
  method_reduce product sum_op dims.

(** The contraction the docstring of [contract] describes: "equivalent to
    binary product followed by a sum reduction",
    [self.pointwise_binary(other, prod_op).reduce(sum_op, dims)]. *)
Definition contract_spec (self : funsor) (sum_op prod_op other : value)
    (dims : option (gset string)) : M value :=
  let! product := pointwise_binary self other prod_op in
  method_reduce product sum_op dims.

End Methods.

(** Calling a Python value [c] on [args]. [fuel] bounds the nesting of calls
    made while operators are applied to funsors. *)
Fixpoint apply (frozenset_iter : gset string → list string) (fuel : nat)
    (c : value) (args : list value) : M value :=
  match fuel with
  | O => raise OutOfFuel
  | S fuel =>
      match c with
      | VUnary o =>
          match args with
          | [x] => apply_unary (apply frozenset_iter fuel) o x
          | _ => raise TypeError
          end
      | VBinary o =>
          match args with
          | [x; y] => apply_binary (apply frozenset_iter fuel) o x y
          | _ => raise TypeError
          end
      | VLambda op other =>
          match args with
          | [a] => apply frozenset_iter fuel op [a; other]
          | _ => raise TypeError
          end
      | VFunsor f => call f args []
      | _ => raise TypeError
      end
  end.

(** ** Evaluation and arg-reduction *)

Section Evaluation.
Variable frozenset_iter : gset string → list string.
Variable apply : value → list value → M value.
(** The functions that users wrap in a [Function], by identifier. *)
Variable user_fn : nat → list value → list (string * value) → M value.

(** Calling the function behind a [Function]: the bodies of the closures
    [fn] of [pointwise_unary] and [pointwise_binary], and
    [functools.partial]. *)
Fixpoint run_fn (fn : pyfn) (args : list value) (kwargs : list (string * value))
    : M value :=
  match fn with
  | fn_def id => user_fn id args kwargs
  | fn_unary self op =>
      let! x := call self args kwargs in
      apply op [x]
  | fn_binary self other op =>
      let! x := call self args kwargs in
      let! y := call other args kwargs in
      apply op [x; y]
  | fn_broadcast dims self other op =>
      let kwargs := OD.update kwargs (zip dims args) in
      let kwargs1 := own_kwargs (f_dims self) kwargs in
      let kwargs2 := own_kwargs (f_dims other) kwargs in
      let! x := call self [] kwargs1 in
      let! y := call other [] kwargs2 in
      apply op [x; y]
  | fn_partial fn args0 kwargs0 =>
      run_fn fn (args0 ++ args) (OD.update kwargs0 kwargs)
  end.

(** [v.item()] *)
Definition item (v : value) : M value :=
  match v with
  | VFunsor (Variable_ _ _) =>
      raise (ValueError "Variable cannot be converted to a Python scalar")
  | VFunsor (Function _ shape fn) =>
      match shape with
      | [] => run_fn fn [] []
      | _ => raise (ValueError "only one element Funsors can be converted to Python scalars")
      end
  | VFunsor (Tensor _ data) =>
      match acells data with
      | [x] => ret (VNum x)
      | _ => raise (ValueError "only one element tensors can be converted to Python scalars")
      end
  | VData data =>
      match acells data with
      | [x] => ret (VNum x)
      | _ => raise (ValueError "only one element tensors can be converted to Python scalars")
      end
  | _ => raise AttributeError
  end.

(** [Funsor.materialize(self)], with the default [vectorize=True]. *)
Definition Funsor_materialize (self : funsor) : M value :=
  let! sizes := lift (mapR (fun size =>
                  match size with
                  | Int n => Ok n
                  | Cont _ => Raise (NotImplementedError "cannot materialize domain")
                  end) (f_shape self)) in
  let dim := length sizes in
  let args := imap (fun i s =>
                VData (mkArray (s :: replicate (dim - i - 1) 1)
                         (acells (torch_arange s)))) sizes in
  let! applied := call self args [] in
  let! data := item applied in
  lift (let* f := Tensor_init (f_dims self) data in Ok (VFunsor f)).

(** [self.materialize()] *)
Definition materialize (self : funsor) : M value :=
  match self with
  | Variable_ name size =>
      match size with
      | Int n => lift (let* f := Tensor_init [name] (VData (torch_arange n)) in
                       Ok (VFunsor f))
      | Cont _ => raise (ValueError "cannot materialize variable")
      end
  | Function _ _ _ => Funsor_materialize self
  | Tensor _ _ => ret (VFunsor self)
  end.

(** [Funsor.argreduce(self, op, dims)] *)
Definition Funsor_argreduce (self : funsor) (op : binary_op) (dims : gset string)
    : M (list (string * value) * value) :=
  let dims : gset string := dims ∩ list_to_set (f_dims self) in
  if decide (dims = ∅) then ret ([], VFunsor self)
  else raise (NotImplementedError "").

(** [Tensor.argreduce(self, op, dims)]. For [min] and [max] over one
    dimension the method [self.data.min] is unpacked without being called;
    for [_sample] the pair that [self.data.max(pos, keepdim=True)] returns is
    subtracted from the data. Both raise [TypeError]. *)
Definition Tensor_argreduce (self : funsor) (op : binary_op) (dims : gset string)
    : M (list (string * value) * value) :=
  let dims : gset string := dims ∩ list_to_set (f_dims self) in
  if decide (dims = ∅) then ret ([], VFunsor self)
  else
    match op with
    | op_min | op_max =>
        if decide (size dims = 1) then raise TypeError
        else raise (NotImplementedError "TODO implement multiway argmin, argmax")
    | op_sample =>
        if decide (size dims = 1) then
          match self with
          | Tensor sdims sdata =>
              let! pos := lift (of_option
                (head (omap (fun d => index_of d sdims) (frozenset_iter dims)))
                (ValueError "tuple.index")) in
              match ashape sdata !! pos with
              | Some (S _) => raise TypeError
              | _ => raise (RuntimeError "max of an empty axis")
              end
          | _ => raise TypeError
          end
        else raise (NotImplementedError "TODO implement multiway sample")
    | _ => raise (NotImplementedError "TODO handle")
    end.

(** [Function.argreduce(self, op, dims)] *)
Definition Function_argreduce (self : funsor) (op : binary_op) (dims : gset string)
    : M (list (string * value) * value) :=
  let dims : gset string := dims ∩ list_to_set (f_dims self) in
  if decide (dims = ∅) then ret ([], VFunsor self)
  else
    let! m := materialize self in
    match m with
    | VFunsor (Tensor tdims tdata) => Tensor_argreduce (Tensor tdims tdata) op dims
    | VFunsor f => Funsor_argreduce f op dims
    | _ => raise AttributeError
    end.

(** [self.argreduce(op, dims)] *)
Definition argreduce (self : funsor) (op : binary_op) (dims : gset string)
    : M (list (string * value) * value) :=
  match self with
  | Variable_ _ _ => Funsor_argreduce self op dims
  | Function _ _ _ => Function_argreduce self op dims
  | Tensor _ _ => Tensor_argreduce self op dims
  end.

Definition method_argreduce (v : value) (op : binary_op) (dims : gset string)
    : M (list (string * value) * value) :=
  match v with
  | VFunsor f => argreduce f op dims
  | _ => raise AttributeError
  end.

(** [Funsor.argcontract(self, sum_op, prod_op, other, dims)], with the
    arguments of [pointwise_binary] in the order of the source. *)
Definition Funsor_argcontract (self : funsor) (sum_op : binary_op)
    (prod_op other : value) (dims : gset string)
    : M (list (string * value) * value) :=
  let! product := pointwise_binary apply self prod_op other in
  method_argreduce product sum_op dims.

(** What the docstring of [argcontract] describes: "binary product followed
    by a sum argreduction". *)
Definition argcontract_spec (self : funsor) (sum_op : binary_op)
    (prod_op other : value) (dims : gset string)
    : M (list (string * value) * value) :=
  let! product := pointwise_binary apply self other prod_op in
  method_argreduce product sum_op dims.

End Evaluation.

(** ** Vocabulary for the properties of the term algebra *)

(** The schema of a funsor over [dims] and [shape]. *)
Definition schema_of (dims : list string) (shape : list domain)
    : list (string * domain) :=
  fold_left (fun acc kv => OD.set kv.1 kv.2 acc) (zip dims shape) [].

(** What the assertions of [Funsor.__init__] establish. *)
Definition constructed (f : funsor) : Prop :=
  NoDup (f_dims f) ∧ Forall (fun s => valid_size s = true) (f_shape f)
  ∧ length (f_dims f) = length (f_shape f).

(** The invariant of [Funsor]: unique dimension names, as many as sizes. *)
Definition wf (f : funsor) : Prop :=
  NoDup (f_dims f) ∧ length (f_dims f) = length (f_shape f).

(** Every funsor that a value carries at its surface satisfies the
    invariant. *)
Fixpoint wf_value (v : value) : Prop :=
  match v with
  | VFunsor f => wf f
  | VLambda op other => wf_value op ∧ wf_value other
  | _ => True
  end.

Definition wf_registry (reg : registry) : Prop :=
  ∀ key o, _VARIABLES reg !! key = Some o → wf (oval o).

Definition wf_kwargs (kwargs : list (string * value)) : Prop :=
  Forall (fun kv => wf_value kv.2) kwargs.

(** Garbage collection of the weak dictionary: the entries of the keys in
    [dead] whose object is not among the [held] ones disappear. *)
Definition collect (held : gset nat) (dead : gset (string * domain))
    (reg : registry) : registry :=
  mkRegistry (next_id reg)
    (filter (fun kv => kv.1 ∉ dead ∨ oid kv.2 ∈ held) (_VARIABLES reg)).

(** What may happen to the registry while the object [o] is held: garbage
    collection that spares it, and calls of [var]. *)
Inductive evolves (o : obj) : registry → registry → Prop :=
| evolves_refl reg : evolves o reg reg
| evolves_collect reg reg' held dead :
    oid o ∈ held →
    evolves o (collect held dead reg) reg' → evolves o reg reg'
| evolves_var reg reg' reg1 name size o' :
    var name size reg = Ok (o', reg1) →
    evolves o reg1 reg' → evolves o reg reg'.


(** A computation whose result satisfies [P] and which keeps the registry
    well formed. *)
Definition sound {A} (P : A → Prop) (m : M A) : Prop :=
  ∀ reg a reg', wf_registry reg → m reg = Ok (a, reg') → P a ∧ wf_registry reg'.

(** What a computation yields: a value that satisfies [P], or an exception
    of Python. *)
Definition outcome {A} (P : A → Prop) (r : result (A * registry)) : Prop :=
  match r with
  | Ok (a, _) => P a
  | Raise e => e ≠ OutOfFuel
  end.

(** The value is a [Function] over [dims] and [shape]. *)
Definition function_over (dims : list string) (shape : list domain)
    (v : value) : Prop :=
  ∃ fn, v = VFunsor (Function dims shape fn).

(** The value is a [Function] whose schema gives [d] the continuous domain
    [tag]. *)
Definition continuous_at (d tag : string) (v : value) : Prop :=
  ∃ dims shape fn,
    v = VFunsor (Function dims shape fn)
    ∧ OD.get d (f_schema (Function dims shape fn)) = Some (Cont tag).

(** A funsor of one of the two classes with data or a function behind it. *)
Definition concrete (f : funsor) : Prop :=
  match f with Variable_ _ _ => False | _ => True end.

(** The value is such a funsor, over the dims [D]. *)
Definition over_dims (D : list string) (v : value) : Prop :=
  ∃ f, v = VFunsor f ∧ f_dims f = D ∧ wf f ∧ concrete f.

End Values.

Arguments value : clear implicits.
Arguments funsor : clear implicits.
Arguments pyfn : clear implicits.
Arguments obj : clear implicits.
Arguments registry : clear implicits.
Arguments M : clear implicits.

End Terms.

(** * Instances and examples *)

(** Integer tensors as an instance of the interface of the engine. *)
#[export] Instance Tensor_API : FunsorAPI (DenseTensor.Tensor Z) binop Z := {
  funsor_eq_dec := DenseTensor.Tensor_eq_dec;
  inputs t := map fst (DenseTensor.tinputs t);
  apply_op o := DenseTensor.Tensor_binary (binop_fn o);
  reduce t o vars := DenseTensor.Tensor_reduce (binop_fn o) t vars;
  Number x := DenseTensor.mkTensor [x] [] DenseTensor.Real;
  UNITS := binop_units;
}.

(** A few factors for examples; [a] and [b] are plates. *)
Module Examples.
Import DenseTensor.
Definition f_abxy : Tensor Z :=
  mkTensor (map Z.of_nat (seq 1 16)) [("a", 2); ("b", 2); ("x", 2); ("y", 2)] Real.
Definition g_ax : Tensor Z := mkTensor [1; 2; 3; 4]%Z [("a", 2); ("x", 2)] Real.
Definition h_by : Tensor Z := mkTensor [1; 2; 3; 4]%Z [("b", 2); ("y", 2)] Real.
Definition k_x : Tensor Z := mkTensor [1; 2]%Z [("x", 2)] Real.
Definition m_x : Tensor Z := mkTensor [5; 7]%Z [("x", 2)] Real.
Definition abxy : gset string := {["a"; "b"; "x"; "y"]}.
Definition ab : gset string := {["a"; "b"]}.
End Examples.

(** Python's integers as numbers; the floating point functions have no value
    on them. *)
#[export] Instance Z_Numeric : Terms.Numeric Z := {
  Terms.num_of_Z z := z;
  Terms.num_int z := Some z;
  Terms.num_unary o z :=
    match o with
    | Terms.op_invert => Ok (Z.lnot z)
    | Terms.op_neg => Ok (- z)%Z
    | Terms.op_abs => Ok (Z.abs z)
    | _ => Raise (ValueError "float")
    end;
  Terms.num_binary o a b :=
    match o with
    | Terms.op_add => Ok (a + b)%Z
    | Terms.op_mul => Ok (a * b)%Z
    | Terms.op_and => Ok (Z.land a b)
    | Terms.op_or => Ok (Z.lor a b)
    | Terms.op_min => Ok (Z.min a b)
    | Terms.op_max => Ok (Z.max a b)
    | _ => Raise (ValueError "float")
    end;
  Terms.num_unit o :=
    match o with
    | Terms.op_add => Some 0%Z
    | Terms.op_mul => Some 1%Z
    | Terms.op_and => Some 1%Z
    | Terms.op_or => Some 0%Z
    | _ => None
    end;
}.

(** Funsors for examples. *)
Module TermExamples.
Import Torch Terms.
Definition empty_registry : registry Z := mkRegistry 0 ∅.
Definition t_i : funsor Z := Tensor ["i"] (mkArray [2] [1; 2]%Z).
Definition u_i : funsor Z := Tensor ["i"] (mkArray [2] [3; 4]%Z).
Definition f_i : funsor Z := Function ["i"] [Int 2] (fn_def 0).
Definition f_j : funsor Z := Function ["j"] [Int 2] (fn_def 1).
Definition f_ix : funsor Z := Function ["i"; "x"] [Int 2; Cont "real"] (fn_def 2).
Definition v_x : funsor Z := Variable_ "x" (Cont "real").
End TermExamples.

(** * Properties of the sum-product engine *)

(** Inversion of a successful bind. *)
Lemma rbind_Ok {A B} (m : result A) (k : A → result B) (b : B) :
  rbind m k = Ok b → ∃ a, m = Ok a ∧ k a = Ok b.
Proof. destruct m as [a|e]; simpl; [by exists a | done]. Qed.

Section MaxFacts.
Context {A : Type} (key : A → nat).

Lemma py_max_by_spec (l : list A) (best : A) :
  ∃ i, (best :: l) !! i = Some (py_max_by key best l)
    ∧ (∀ x, x ∈ best :: l → key x ≤ key (py_max_by key best l))
    ∧ (∀ j x, j < i → (best :: l) !! j = Some x → key x < key (py_max_by key best l)).
Proof.
  revert best. induction l as [|x l IH]; intros best; simpl.
  - exists 0. split; [done|]. split.
    + intros y Hy. apply list_elem_of_singleton in Hy. by subst.
    + intros j y Hj. lia.
  - destruct (IH (if Nat.ltb (key best) (key x) then x else best))
      as (i & Hi & Hmax & Hfirst).
    set (m := py_max_by key (if Nat.ltb (key best) (key x) then x else best) l) in *.
    destruct (Nat.ltb_spec (key best) (key x)) as [Hlt | Hge].
    + exists (S i). split; [exact Hi|]. split.
      * intros y Hy. apply elem_of_cons in Hy as [-> | Hy]; [|by apply Hmax].
        specialize (Hmax x (list_elem_of_here _ _)). lia.
      * intros [|j] y Hj Hy; simpl in Hy.
        -- injection Hy as <-. specialize (Hmax x (list_elem_of_here _ _)). lia.
        -- apply (Hfirst j); [lia | exact Hy].
    + destruct i as [|i].
      * simpl in Hi. injection Hi as Hi. exists 0. split; [by rewrite <- Hi|]. split.
        -- intros y Hy. apply elem_of_cons in Hy as [-> | Hy]; [rewrite <- Hi; lia|].
           apply elem_of_cons in Hy as [-> | Hy]; [rewrite <- Hi; lia|].
           apply Hmax. by apply list_elem_of_further.
        -- intros j y Hj. lia.
      * exists (S (S i)). split; [exact Hi|]. split.
        -- intros y Hy. apply elem_of_cons in Hy as [-> | Hy].
           ++ apply Hmax, list_elem_of_here.
           ++ apply elem_of_cons in Hy as [-> | Hy].
              ** specialize (Hfirst 0 best). simpl in Hfirst.
                 specialize (Hfirst ltac:(lia) eq_refl). lia.
              ** apply Hmax. by apply list_elem_of_further.
        -- intros [|[|j]] y Hj Hy; simpl in Hy.
           ++ injection Hy as <-. apply (Hfirst 0); [lia | done].
           ++ injection Hy as <-.
              specialize (Hfirst 0 best). simpl in Hfirst.
              specialize (Hfirst ltac:(lia) eq_refl). lia.
           ++ apply (Hfirst (S j)); [lia | exact Hy].
Qed.
End MaxFacts.

Section EngineFacts.
Context {F Op R : Type} `{API : FunsorAPI F Op R}.
Import SumProduct.

(** C3 (as amended): in every round of the main loop of
    [partial_sum_product] the bucket taken is the one whose ordinal holds
    the most plate names ([max] of the dictionary's keys by [len]); among
    ordinals of that size it is the first in the dictionary's iteration
    order. The dictionary is empty exactly when nothing is chosen. *)
Theorem choose_leaf_largest_ordinal (otf : list (gset string * list F)) :
  match choose_leaf otf with
  | None => otf = []
  | Some leaf =>
      ∃ i, OD.keys otf !! i = Some leaf
        ∧ (∀ o, o ∈ OD.keys otf → size o ≤ size leaf)
        ∧ (∀ j o, j < i → OD.keys otf !! j = Some o → size o < size leaf)
  end.
Proof.
  unfold choose_leaf, py_max. destruct otf as [|[o fs] otf]; [done|].
  simpl. apply py_max_by_spec.
Qed.

Section LoopFacts.
Variables (sum_op prod_op : Op) (eliminate plates : gset string).
Variable vto : gmap string (gset string).
Variable otv : gmap (gset string) (gset string).

Lemma foldM_app {A B} (step : A → B → result A) (l1 l2 : list B) (acc : A) :
  foldM step (l1 ++ l2) acc = let* acc' := foldM step l1 acc in foldM step l2 acc'.
Proof.
  revert acc. induction l1 as [|x l1 IH]; intros acc; simpl; [done|].
  destruct (step acc x); simpl; [apply IH | done].
Qed.

Lemma process_group_stuck (leaf : gset string) (st : state)
    (group : list F * gset string) :
  stuck_group sum_op prod_op eliminate plates vto leaf group →
  process_group sum_op prod_op eliminate plates vto leaf st group
    = Raise (ValueError "intractable!").
Proof.
  intros (p & f & new_plates & Hp & Hf & Hrem & Hnew & Heq).
  destruct group as [group_factors group_vars]. simpl in Hp, Hf.
  unfold process_group. rewrite Hp. simpl. rewrite Hf. simpl.
  destruct (decide (sum_vars eliminate plates ∩ input_set f = ∅)); [done|].
  rewrite Hnew. simpl. by rewrite decide_True.
Qed.

Lemma process_leaf_stuck (st : state) :
  stuck sum_op prod_op eliminate plates vto otv st →
  process_leaf sum_op prod_op eliminate plates vto otv st
    = Raise (ValueError "intractable!").
Proof.
  intros (leaf & fs & otf & before & group & after & st1
          & Hleaf & Hpop & Hpart & Hbefore & Hstuck).
  unfold process_leaf. rewrite Hleaf. simpl. rewrite Hpop. simpl.
  rewrite Hpart. simpl. rewrite foldM_app, Hbefore. simpl.
  by rewrite (process_group_stuck _ _ _ Hstuck).
Qed.

Lemma stuck_nonempty (st : state) :
  stuck sum_op prod_op eliminate plates vto otv st → ordinal_to_factors st ≠ [].
Proof.
  intros (leaf & fs & otf & before & group & after & st1 & Hleaf & _) Hnil.
  rewrite Hnil in Hleaf. discriminate.
Qed.

Lemma main_loop_raises (st0 st : state) (e : exn) :
  reaches sum_op prod_op eliminate plates vto otv st0 st →
  ordinal_to_factors st ≠ [] →
  process_leaf sum_op prod_op eliminate plates vto otv st = Raise e →
  ∃ n, ∀ fuel, n ≤ fuel →
    main_loop sum_op prod_op eliminate plates vto otv fuel st0 = Raise e.
Proof.
  intros Hreach Hne Hraise. induction Hreach as [st | st st' st'' Hne' Hstep _ IH].
  - exists 1. intros [|fuel] Hfuel; [lia|]. simpl.
    destruct (ordinal_to_factors st); [done|]. by rewrite Hraise.
  - destruct (IH Hne Hraise) as [n Hn]. exists (S n).
    intros [|fuel] Hfuel; [lia|]. simpl.
    destruct (ordinal_to_factors st); [done|]. rewrite Hstep. simpl.
    apply Hn. lia.
Qed.
End LoopFacts.

(** C4: whenever a run of [partial_sum_product] comes to a residual factor
    whose recomputed ordinal equals the ordinal being processed, the call
    raises [ValueError("intractable!")]: with enough fuel for the rounds
    before, no list of results is returned and the loop does not go on. *)
Theorem partial_sum_product_intractable (sum_op prod_op : Op) (factors : list F)
    (eliminate plates : gset string) (st : state) :
  let indexed := index_factors plates (sum_vars eliminate plates) factors in
  let vto := indexed.1 in
  let otv := build_ordinal_to_vars vto in
  reaches sum_op prod_op eliminate plates vto otv
    {| ordinal_to_factors := indexed.2; results := [] |} st →
  stuck sum_op prod_op eliminate plates vto otv st →
  ∃ n, ∀ fuel, n ≤ fuel →
    partial_sum_product fuel sum_op prod_op factors eliminate plates
      = Raise (ValueError "intractable!").
Proof.
  intros indexed vto otv Hreach Hstuck.
  destruct (main_loop_raises sum_op prod_op eliminate plates vto otv _ st
              (ValueError "intractable!") Hreach) as [n Hn].
  - by eapply stuck_nonempty.
  - by apply process_leaf_stuck.
  - exists n. intros fuel Hfuel. unfold partial_sum_product.
    specialize (Hn fuel Hfuel). subst vto otv indexed.
    destruct (index_factors plates (sum_vars eliminate plates) factors) as [v o].
    exact Hn.
Qed.

(** C5: on an empty collection of factors [sum_product] returns
    [Number(UNITS[prod_op])], the identity element of [prod_op]; in general
    its result is the left fold of [prod_op] over the results of
    [partial_sum_product], started from that identity. *)
Theorem sum_product_fold (fuel : nat) (sum_op prod_op : Op)
    (eliminate plates : gset string) (unit : R) :
  UNITS prod_op = Some unit →
  sum_product fuel sum_op prod_op [] eliminate plates = Ok (Number unit)
  ∧ ∀ factors results,
      partial_sum_product fuel sum_op prod_op factors eliminate plates = Ok results →
      sum_product fuel sum_op prod_op factors eliminate plates
        = foldM (apply_op prod_op) results (Number unit).
Proof.
  intros Hunit. split.
  - unfold sum_product, partial_sum_product. simpl.
    destruct fuel; simpl; by rewrite Hunit.
  - intros factors results Hpartial. unfold sum_product.
    rewrite Hpartial. simpl. by rewrite Hunit.
Qed.
End EngineFacts.

Section DictLength.
Context {K V : Type} `{EqDecision K}.

Lemma OD_pop_length (k : K) (v : V) (d d' : list (K * V)) :
  OD.pop k d = Some (v, d') → length d = S (length d').
Proof.
  unfold OD.pop. destruct (OD.get k d) as [v'|] eqn:Hget; [|done].
  intros [= <- <-]. revert v' Hget.
  induction d as [|[k0 v0] d IH]; intros v' Hget; simpl in *; [done|].
  destruct (decide (k = k0)); [done|]. simpl. f_equal. by eapply IH.
Qed.

Lemma OD_popitem_length (kv : K * V) (d d' : list (K * V)) :
  OD.popitem d = Some (kv, d') → length d = S (length d').
Proof.
  unfold OD.popitem. destruct (rev d) as [|x r] eqn:Hrev; [done|].
  intros [= <- <-]. rewrite length_rev. rewrite <- (length_rev d), Hrev. done.
Qed.
End DictLength.

Section PartitionFuel.
Context {F Op R : Type} `{API : FunsorAPI F Op R}.
Import SumProduct.

(** With more fuel than keys, the inner loop of [_partition] does not run out
    of fuel, and it only removes keys. *)
Lemma grow_fuel (fuel : nat) (neighbors : list (node * list node))
    (component pending : list node) :
  length neighbors < fuel →
  match grow fuel neighbors component pending with
  | Ok (neighbors', _) => length neighbors' ≤ length neighbors
  | Raise e => e ≠ OutOfFuel
  end.
Proof.
  revert neighbors component pending.
  induction fuel as [|fuel IH]; intros neighbors component pending Hfuel; [lia|].
  simpl. destruct (list_pop pending) as [[v pending']|]; [|done].
  destruct (OD.pop v neighbors) as [[adj neighbors']|] eqn:Hpop; [|done].
  apply OD_pop_length in Hpop.
  destruct (fold_left _ adj (component, pending')) as [component' pending''].
  specialize (IH neighbors' component' pending'' ltac:(lia)).
  destruct (grow fuel neighbors' component' pending'') as [[n c]|e]; [lia | done].
Qed.

Lemma components_loop_fuel (fuel : nat) (neighbors : list (node * list node))
    (components : list (list F * gset string)) :
  length neighbors ≤ fuel →
  components_loop fuel neighbors components ≠ Raise OutOfFuel.
Proof.
  revert neighbors components.
  induction fuel as [|fuel IH]; intros neighbors components Hfuel.
  - destruct neighbors; [done | simpl in Hfuel; lia].
  - cbn [components_loop].
    destruct (OD.popitem neighbors) as [[[v pending] neighbors']|] eqn:Hpop;
      [|done].
    apply OD_popitem_length in Hpop.
    pose proof (grow_fuel (S (length neighbors')) neighbors'
                  (fold_left oset_add pending [v]) pending ltac:(lia)) as Hgrow.
    destruct (grow _ neighbors' _ pending) as [[n c]|e]; cbn [rbind];
      [|by intros [= ->]].
    apply IH. lia.
Qed.

(** [_partition] always comes to a result of Python: components or
    [KeyError]. *)
Lemma _partition_fuel (terms : list F) (sum_vars : gset string) :
  _partition terms sum_vars ≠ Raise OutOfFuel.
Proof. unfold _partition. by apply components_loop_fuel. Qed.
End PartitionFuel.

(** The engine on integer tensors. *)
Section EngineExamples.
Import SumProduct DenseTensor Examples.

(** Two factors without plates and one inside plate [a]: the loop takes the
    bucket of the ordinal [{a}], which holds one factor, before the bucket
    of the empty ordinal, which holds two. *)
Lemma choose_leaf_not_most_factors :
  let otf := (index_factors ab (sum_vars abxy ab) [k_x; m_x; g_ax]).2 in
  choose_leaf otf = Some {["a"]} ∧ ¬ most_factors_first otf {["a"]}.
Proof.
  split; [by vm_compute|].
  intros (fs & Hget & Hall).
  specialize (Hall ∅ [k_x; m_x]).
  vm_compute in Hget. injection Hget as <-.
  assert (Hlen : length [k_x; m_x] ≤ length [g_ax]) by (apply Hall; by vm_compute).
  simpl in Hlen. lia.
Qed.

Lemma partial_sum_product_intractable_witness :
  ∃ n, ∀ fuel, n ≤ fuel →
    partial_sum_product fuel OpAdd OpMul [f_abxy; g_ax; h_by] abxy ab
      = Raise (ValueError "intractable!").
Proof.
  eapply (partial_sum_product_intractable OpAdd OpMul [f_abxy; g_ax; h_by] abxy ab).
  - apply reaches_here.
  - exists ab, [f_abxy], [({["a"]}, [g_ax]); ({["b"]}, [h_by])], [],
      ([f_abxy], ∅), [], {| ordinal_to_factors := [({["a"]}, [g_ax]); ({["b"]}, [h_by])];
                            results := [] |}.
    split; [by vm_compute|]. split; [by vm_compute|].
    split; [by vm_compute|]. split; [by vm_compute|].
    exists f_abxy, f_abxy, ab.
    split; [by vm_compute|]. split; [by vm_compute|].
    split; [by vm_compute|]. split; by vm_compute.
Defined.

Lemma sum_product_fold_witness :
  sum_product 8 OpAdd OpMul [] abxy ab = Ok (Number 1%Z)
  ∧ ∀ factors results,
      partial_sum_product 8 OpAdd OpMul factors abxy ab = Ok results →
      sum_product 8 OpAdd OpMul factors abxy ab
        = foldM (apply_op OpMul) results (Number 1%Z).
Proof. apply (sum_product_fold 8 OpAdd OpMul abxy ab 1%Z). reflexivity. Defined.
End EngineExamples.

(** * Properties of [Slice] and of the scan *)

Section SliceFacts.
Import Torch DenseTensor.

(** [py_range] lists the numbers [start + i * step] below [stop], in order. *)
Lemma py_range_lookup (start stop step : Z) (i : nat) (z : Z) :
  (0 < step)%Z →
  py_range start stop step !! i = Some z ↔
  z = (start + Z.of_nat i * step)%Z ∧ (z < stop)%Z.
Proof.
  intros Hstep. unfold py_range. rewrite list_lookup_fmap.
  set (n := Z.to_nat ((stop - start + step - 1) / step)).
  assert (Hn : ∀ j : nat, j < n ↔ (start + Z.of_nat j * step < stop)%Z).
  { intros j. subst n. split.
    - intros Hj.
      assert (Hq : (Z.of_nat j < (stop - start + step - 1) / step)%Z) by lia.
      assert (Hm := Z.mul_div_le (stop - start + step - 1) step Hstep). nia.
    - intros Hj.
      assert (Hq : (Z.of_nat j < (stop - start + step - 1) / step)%Z).
      { assert (Hq' : (Z.of_nat j + 1 ≤ (stop - start + step - 1) / step)%Z)
          by (apply Z.div_le_lower_bound; lia).
        lia. }
      lia. }
  split.
  - intros Hi. destruct (seq 0 n !! i) as [k|] eqn:Hk; [|done].
    simpl in Hi. injection Hi as <-.
    apply lookup_seq in Hk as [-> Hlt]. simpl. split; [done|]. by apply Hn.
  - intros [-> Hlt]. apply Hn in Hlt.
    rewrite (lookup_seq_lt 0 n i Hlt). done.
Qed.

(** C9: [Slice(name, *args)] raises [ValueError] when given fewer than one
    or more than four arguments, and when the step is not positive. With a
    positive step it returns, when [start] is not above [stop], the tensor
    over the one dimension [name] whose data is [range(start, stop, step)]
    and whose dtype is the declared bound (the fourth argument, else
    [stop]); when [stop] is below [start] it raises the [RuntimeError] of
    [torch.arange] instead of returning the empty range. *)
Theorem Slice_spec (name : string) (args : list Z) :
  (¬ (1 ≤ length args ≤ 4) → Slice name args = Raise (ValueError ""))
  ∧ ∀ start stop step bound,
      slice_args args start stop step bound →
      ((step ≤ 0)%Z → Slice name args = Raise (ValueError ""))
      ∧ ((0 < step)%Z → (start ≤ stop)%Z →
         Slice name args
           = Ok (mkTensor (py_range start stop step)
                   [(name, length (py_range start stop step))] (Bounded bound)))
      ∧ ((0 < step)%Z → (stop < start)%Z →
         ∃ msg, Slice name args = Raise (RuntimeError msg)).
Proof.
  split.
  - intros Hlen. destruct args as [|a [|b [|c [|d [|e args]]]]]; simpl in Hlen;
      try lia; reflexivity.
  - assert (Hvalid : ∀ start stop step bound, (0 < step)%Z → (start ≤ stop)%Z →
      (if Z.leb step 0 then Raise (ValueError "")
       else let* data := arange start stop step in
            Tensor_init data [(name, length data)] (Bounded bound))
      = Ok (mkTensor (py_range start stop step)
              [(name, length (py_range start stop step))] (Bounded bound))).
    { intros start stop step bound Hstep Hle.
      destruct (Z.leb_spec step 0); [lia|]. unfold arange.
      destruct (Z.ltb_spec stop start); [lia|]. simpl. unfold Tensor_init.
      rewrite decide_True by (simpl; apply NoDup_singleton).
      rewrite decide_True; [done|]. simpl. lia. }
    assert (Hbelow : ∀ start stop step bound, (0 < step)%Z → (stop < start)%Z →
      ∃ msg,
        (if Z.leb step 0 then Raise (ValueError "")
         else let* data := arange start stop step in
              Tensor_init data [(name, length data)] (Bounded bound))
        = Raise (RuntimeError msg)).
    { intros start stop step bound Hstep Hlt.
      destruct (Z.leb_spec step 0); [lia|]. unfold arange.
      destruct (Z.ltb_spec stop start); [|lia]. by eexists. }
    intros start stop step bound Hargs.
    destruct Hargs;
      (split; [intros Hstep | split; [intros Hstep Hle | intros Hstep Hlt]]);
      try lia; unfold Slice; simpl.
    + by apply (Hvalid 0%Z stop 1%Z stop).
    + by apply (Hbelow 0%Z stop 1%Z stop).
    + by apply (Hvalid start stop 1%Z stop).
    + by apply (Hbelow start stop 1%Z stop).
    + destruct (Z.leb_spec step 0); [done | lia].
    + by apply (Hvalid start stop step stop).
    + by apply (Hbelow start stop step stop).
    + destruct (Z.leb_spec step 0); [done | lia].
    + by apply (Hvalid start stop step bound).
    + by apply (Hbelow start stop step bound).
Qed.

Lemma Slice_spec_witness :
  Slice "time" [0; 4; 2; 5]%Z
    = Ok (mkTensor [0; 2]%Z [("time", 2)] (Bounded 5))
  ∧ Slice "time" [0; 4; 0]%Z = Raise (ValueError "")
  ∧ Slice "time" [] = Raise (ValueError "")
  ∧ ∃ msg, Slice "time" [4; 0; 2]%Z = Raise (RuntimeError msg).
Proof.
  destruct (Slice_spec "time" [0; 4; 2; 5]%Z) as [_ H4].
  destruct (H4 0 4 2 5 (slice_args4 0 4 2 5))%Z as (_ & Hok & _).
  destruct (Slice_spec "time" [0; 4; 0]%Z) as [_ H3].
  destruct (H3 0 4 0 4 (slice_args3 0 4 0))%Z as (Hbad & _ & _).
  destruct (Slice_spec "time" []) as [Hnone _].
  destruct (Slice_spec "time" [4; 0; 2]%Z) as [_ H3'].
  destruct (H3' 4 0 2 0 (slice_args3 4 0 2))%Z as (_ & _ & Hbelow).
  split; [apply Hok; lia|]. split; [apply Hbad; lia|].
  split; [apply Hnone; simpl; lia|]. apply Hbelow; lia.
Defined.

(** The call [Slice("t", 5, 3)] has two arguments and the default step 1,
    and [range(5, 3)] is empty; it returns no tensor: [torch.arange(5, 3, 1)]
    raises [RuntimeError]. *)
Lemma Slice_empty_range_raises :
  slice_args [5; 3]%Z 5 3 1 3
  ∧ py_range 5 3 1 = []
  ∧ Slice "t" [5; 3]%Z
      = Raise (RuntimeError "upper bound and larger bound inconsistent with step sign")
  ∧ Slice "t" [5; 3]%Z ≠ Raise (ValueError "")
  ∧ ¬ ∃ t, Slice "t" [5; 3]%Z = Ok t.
Proof.
  assert (Hraise : Slice "t" [5; 3]%Z
            = Raise (RuntimeError "upper bound and larger bound inconsistent with step sign"))
    by reflexivity.
  split; [constructor|]. split; [reflexivity|]. split; [exact Hraise|].
  split; [by rewrite Hraise|]. intros [t Ht]. by rewrite Hraise in Ht.
Qed.
End SliceFacts.

Section ScanChain.
Import Torch DenseTensor.
Context {A Op : Type} (op_fn : Op → A → A → A) (sum_op prod_op : Op).
Context (zero one : A).
Hypothesis semiring : semi_ring_theory zero one (op_fn sum_op) (op_fn prod_op) eq.
Add Ring A_semiring : semiring.

Lemma scan_chain_semiring (T : nat) (ins : list (string * nat))
    (M : nat → nat → nat → A) (s0 sT : nat) :
  1 ≤ T ≤ 5 → ins ≡ₚ [("time", T); ("prev", 2); ("curr", 2)] →
  s0 < 2 → sT < 2 →
  ∃ r, sequential_sum_product op_fn sum_op prod_op (transition ins M)
         "time" "prev" "curr" = Ok r
     ∧ tinputs r ≡ₚ [("prev", 2); ("curr", 2)]
     ∧ tget r [("prev", s0); ("curr", sT)]
         = Ok (chain_sum op_fn sum_op prod_op zero M T s0 sT).
Proof.
  intros HT Hins Hs0 HsT.
  assert (HT' : T = 1 ∨ T = 2 ∨ T = 3 ∨ T = 4 ∨ T = 5) by lia.
  assert (Hs0' : s0 = 0 ∨ s0 = 1) by lia.
  assert (HsT' : sT = 0 ∨ sT = 1) by lia.
  clear HT Hs0 HsT.
  symmetry in Hins. apply permutations_Permutation in Hins.
  destruct HT' as [-> | [-> | [-> | [-> | ->]]]];
    simpl in Hins; set_unfold in Hins;
    destruct Hins as [-> | [-> | [-> | [-> | [-> | [-> | []]]]]]];
    (eexists; split; [vm_compute; reflexivity | split;
      [ first [ reflexivity | apply perm_swap ] |]]);
    destruct Hs0' as [-> | ->], HsT' as [-> | ->];
    vm_compute; f_equal; ring.
Qed.
End ScanChain.

Section ScanFacts.
Import Torch DenseTensor.

Lemma Z_semiring : semi_ring_theory 0%Z 1%Z (binop_fn OpAdd) (binop_fn OpMul) eq.
Proof. constructor; intros; simpl; ring. Qed.

(** C6: for a time dimension of size 1 to 5, [sum_op = add],
    [prod_op = mul] and any 2-state transition tensor with entries
    [M t prev curr] (its three inputs in any order),
    [sequential_sum_product] returns a tensor over [prev] and [curr] whose
    value at the boundary states [s0], [sT] is the explicit chain sum over
    the intermediate states. Sizes 3 and 5 go through the branch that
    appends the leftover slice with [Cat]. *)
Theorem sequential_sum_product_chain (T : nat) (ins : list (string * nat))
    (M : nat → nat → nat → Z) (s0 sT : nat) :
  1 ≤ T ≤ 5 → ins ≡ₚ [("time", T); ("prev", 2); ("curr", 2)] →
  s0 < 2 → sT < 2 →
  ∃ r, sequential_sum_product binop_fn OpAdd OpMul (transition ins M)
         "time" "prev" "curr" = Ok r
     ∧ tinputs r ≡ₚ [("prev", 2); ("curr", 2)]
     ∧ tget r [("prev", s0); ("curr", sT)]
         = Ok (chain_sum binop_fn OpAdd OpMul 0%Z M T s0 sT).
Proof. apply (scan_chain_semiring binop_fn OpAdd OpMul 0%Z 1%Z Z_semiring). Qed.

Lemma sequential_sum_product_chain_witness :
  ∃ r, sequential_sum_product binop_fn OpAdd OpMul
         (transition [("time", 4); ("prev", 2); ("curr", 2)]
            (fun t p c => Z.of_nat (1 + 4 * t + 2 * p + c)))
         "time" "prev" "curr" = Ok r
     ∧ tinputs r ≡ₚ [("prev", 2); ("curr", 2)]
     ∧ tget r [("prev", 1); ("curr", 0)]
         = Ok (chain_sum binop_fn OpAdd OpMul 0%Z
                 (fun t p c => Z.of_nat (1 + 4 * t + 2 * p + c)) 4 1 0).
Proof.
  apply (sequential_sum_product_chain 4 [("time", 4); ("prev", 2); ("curr", 2)]
           (fun t p c => Z.of_nat (1 + 4 * t + 2 * p + c)) 1 0);
    [lia | reflexivity | lia | lia].
Defined.
End ScanFacts.

(** * Properties of the term algebra *)

Section VariableFacts.
Import Torch Terms.
Context {num : Type} `{Numeric num}.

(** C2, the numeric case as the code has it: a [Variable] called with a
    number for its dimension returns [None], not the number. *)
Theorem Variable_call_number (name : string) (size : domain) (n : num)
    (reg : registry num) :
  Variable_call (Variable_ name size) [VNum n] [] reg = Ok (VNone, reg)
  ∧ Variable_call (Variable_ name size) [] [(name, VNum n)] reg = Ok (VNone, reg).
Proof.
  split; unfold Variable_call; simpl; rewrite decide_True by done; reflexivity.
Qed.

(** Substituting a funsor returns that funsor. *)
Lemma Variable_call_funsor (name : string) (size : domain) (f : funsor num)
    (reg : registry num) :
  Variable_call (Variable_ name size) [VFunsor f] [] reg = Ok (VFunsor f, reg).
Proof. unfold Variable_call; simpl; rewrite decide_True by done; reflexivity. Qed.

(** Substituting a name goes through [var]: for a continuous domain that is
    not yet registered the result is a fresh [Variable] of that name and
    domain. *)
Lemma Variable_call_name (name new : string) (tag : string) (reg : registry num) :
  tag ∈ DOMAINS →
  _VARIABLES reg !! (new, Cont tag) = None →
  ∃ reg', Variable_call (Variable_ name (Cont tag)) [VStr new] [] reg
            = Ok (VFunsor (Variable_ new (Cont tag)), reg').
Proof.
  intros Htag Hfresh. unfold Variable_call; simpl. rewrite decide_True by done.
  unfold bind, var, Variable_init. rewrite Hfresh. simpl.
  unfold Funsor_init. rewrite decide_True by (apply NoDup_singleton).
  simpl. rewrite bool_decide_eq_true_2 by done. simpl.
  eexists. reflexivity.
Qed.

Lemma var_cached (name : string) (size : domain) (o : obj num) (reg : registry num) :
  _VARIABLES reg !! (name, size) = Some o → var name size reg = Ok (o, reg).
Proof. intros Hget. unfold var. by rewrite Hget. Qed.

Lemma var_registers (name : string) (size : domain) (o : obj num)
    (reg reg' : registry num) :
  var name size reg = Ok (o, reg') → _VARIABLES reg' !! (name, size) = Some o.
Proof.
  unfold var. destruct (_VARIABLES reg !! (name, size)) as [o'|] eqn:Hget.
  - intros [= <- <-]. exact Hget.
  - destruct size as [n | tag]; simpl.
    + destruct (lift (Tensor_init [name] (VData (torch_arange n))) reg)
        as [[r reg1]|] eqn:Hinit; simpl; [|done].
      intros [= <- <-]. simpl. apply lookup_insert_eq.
    + destruct (Variable_init name (Cont tag) reg) as [[r reg1]|] eqn:Hinit;
        simpl; [|done].
      intros [= <- <-]. simpl. apply lookup_insert_eq.
Qed.

Lemma var_keeps (name : string) (size : domain) (o' : obj num)
    (reg reg' : registry num) (key : string * domain) (o : obj num) :
  var name size reg = Ok (o', reg') →
  _VARIABLES reg !! key = Some o → _VARIABLES reg' !! key = Some o.
Proof.
  intros Hvar Hkey. unfold var in Hvar.
  destruct (_VARIABLES reg !! (name, size)) as [o''|] eqn:Hget.
  - injection Hvar as <- <-. exact Hkey.
  - assert (Hne : (name, size) ≠ key) by (intros Heq; subst key; congruence).
    destruct size as [n | tag]; simpl in Hvar.
    + destruct (lift (Tensor_init [name] (VData (torch_arange n))) reg)
        as [[r reg1]|] eqn:Hinit; simpl in Hvar; [|done].
      unfold lift in Hinit.
      destruct (Tensor_init [name] (VData (torch_arange n))); [|done].
      injection Hinit as <- <-. injection Hvar as <- <-. simpl.
      by rewrite lookup_insert_ne.
    + destruct (Variable_init name (Cont tag) reg) as [[r reg1]|] eqn:Hinit;
        simpl in Hvar; [|done].
      unfold Variable_init in Hinit. rewrite Hget in Hinit. unfold lift in Hinit.
      destruct (let* _ := Funsor_init [name] [Cont tag] in Ok (Variable_ name (Cont tag)));
        [|done].
      injection Hinit as <- <-. injection Hvar as <- <-. simpl.
      by rewrite lookup_insert_ne.
Qed.

Lemma evolves_keeps (o : obj num) (key : string * domain) (reg reg' : registry num) :
  evolves o reg reg' →
  _VARIABLES reg !! key = Some o → _VARIABLES reg' !! key = Some o.
Proof.
  induction 1 as [reg | reg reg' held dead Hheld _ IH
                  | reg reg' reg1 name size o' Hvar _ IH]; intros Hkey.
  - exact Hkey.
  - apply IH. unfold collect. simpl.
    apply map_lookup_filter_Some. split; [exact Hkey | by right].
  - apply IH. by eapply var_keeps.
Qed.





End VariableFacts.

Section VariableExamples.
Import Torch Terms TermExamples.

End VariableExamples.


Section ContractFacts.
Import Torch Terms.
Context {num : Type} `{Numeric num}.
Variable frozenset_iter : gset string → list string.

#[local] Arguments apply {num H} _ _ _ _ : simpl never.

Lemma apply_S (fuel : nat) (c : value num) (args : list (value num)) :
  apply frozenset_iter (S fuel) c args =
  match c with
  | VUnary o =>
      match args with
      | [x] => apply_unary (apply frozenset_iter fuel) o x
      | _ => raise TypeError
      end
  | VBinary o =>
      match args with
      | [x; y] => apply_binary (apply frozenset_iter fuel) o x y
      | _ => raise TypeError
      end
  | VLambda op other =>
      match args with
      | [a] => apply frozenset_iter fuel op [a; other]
      | _ => raise TypeError
      end
  | VFunsor f => call f args []
  | _ => raise TypeError
  end.
Proof. reflexivity. Qed.

Lemma contract_Tensor_raises (fuel : nat) (sdims : list string) (sdata : array num)
    (sum_op : value num) (o : binary_op) (other : funsor num)
    (dims : option (gset string)) (reg : registry num) :
  ∃ e, Funsor_contract frozenset_iter (apply frozenset_iter fuel)
         (Tensor sdims sdata) sum_op (VBinary o) (VFunsor other) dims reg = Raise e.
Proof.
  unfold Funsor_contract, bind. simpl.
  unfold Tensor_pointwise_unary, bind.
  destruct fuel as [|fuel]; [by eexists|]. rewrite apply_S.
  destruct fuel as [|fuel]; [by eexists|]. rewrite apply_S.
  destruct other as [name size | odims oshape ofn | odims odata]; simpl.
  - unfold Variable_call. simpl. rewrite decide_True by done. by eexists.
  - unfold lift.
    repeat match goal with
    | |- context [rbind ?m _] => destruct m; simpl
    end; by eexists.
  - unfold lift, Tensor_call. simpl.
    destruct odims as [|d odims]; simpl.
    + by eexists.
    + destruct odims as [|d2 odims]; simpl.
      * rewrite decide_True by done. simpl. by eexists.
      * unfold OD.update. simpl.
        replace (zip odims []) with ([] : list (string * value num))
          by (by destruct odims).
        destruct (decide (d2 = d)) as [-> | Hne]; simpl;
          rewrite decide_True by done; simpl; by eexists.
Qed.
End ContractFacts.

Section ContractExamples.
Import Torch Terms TermExamples.

(** C1 at two inputs. For the tensors [t_i = [1, 2]] and [u_i = [3, 4]] over
    [i], [contract(add, mul, u_i, {i})] raises, whereas
    [pointwise_binary(u_i, mul).reduce(add, {i})] is the scalar [11]. For the
    functions [f_i] over [i] and [f_j] over [j], [contract] yields a funsor
    without dimensions, whereas the product reduced over [i] is a funsor over
    [j]. [argcontract] has the same exchange of arguments. *)
Theorem contract_swaps_operands :
  Funsor_contract elements (apply elements 3) t_i
      (VBinary op_add) (VBinary op_mul) (VFunsor u_i) (Some {["i"]}) empty_registry
    = Raise (NotImplementedError "TODO handle")
  ∧ contract_spec elements (apply elements 3) t_i
      (VBinary op_add) (VBinary op_mul) (VFunsor u_i) (Some {["i"]}) empty_registry
    = Ok (VFunsor (Tensor [] (mkArray [] [11%Z])), empty_registry)
  ∧ (∃ fn, Funsor_contract elements (apply elements 3) f_i
             (VBinary op_add) (VBinary op_mul) (VFunsor f_j) (Some {["i"]}) empty_registry
           = Ok (VFunsor (Function [] [] fn), empty_registry))
  ∧ (∃ fn, contract_spec elements (apply elements 3) f_i
             (VBinary op_add) (VBinary op_mul) (VFunsor f_j) (Some {["i"]}) empty_registry
           = Ok (VFunsor (Function ["j"] [Int 2] fn), empty_registry))
  ∧ (∃ fn user_fn, Funsor_argcontract elements (apply elements 3) user_fn f_i
             op_max (VBinary op_mul) (VFunsor f_j) ∅ empty_registry
           = Ok (([], VFunsor (Function ["i"] [Int 2] fn)), empty_registry))
  ∧ (∃ fn user_fn, argcontract_spec elements (apply elements 3) user_fn f_i
             op_max (VBinary op_mul) (VFunsor f_j) ∅ empty_registry
           = Ok (([], VFunsor (Function ["i"; "j"] [Int 2; Int 2] fn)), empty_registry)).
Proof.
  split; [by vm_compute|]. split; [by vm_compute|].
  split; [eexists; by vm_compute|]. split; [eexists; by vm_compute|].
  split; [eexists; exists (fun _ _ _ => raise TypeError); by vm_compute|].
  eexists; exists (fun _ _ _ => raise TypeError); by vm_compute.
Qed.
End ContractExamples.

Section DictFacts.
Context {K V : Type} `{EqDecision K}.

Lemma OD_get_set (k k' : K) (v : V) (d : list (K * V)) :
  OD.get k (OD.set k' v d) = if decide (k = k') then Some v else OD.get k d.
Proof.
  induction d as [|[k0 v0] d IH]; simpl.
  - done.
  - destruct (decide (k' = k0)) as [-> | Hne]; simpl.
    + destruct (decide (k = k0)); done.
    + destruct (decide (k = k0)) as [-> | Hne'].
      * by rewrite decide_False by done.
      * exact IH.
Qed.

Lemma OD_get_update (g : K → option V) (l acc : list (K * V)) (k : K) :
  (∀ k' v, (k', v) ∈ l → g k' = Some v) →
  OD.get k (fold_left (fun acc kv => OD.set kv.1 kv.2 acc) l acc)
    = if decide (k ∈ l.*1) then g k else OD.get k acc.
Proof.
  revert acc. induction l as [|[k0 v0] l IH]; intros acc Hg.
  - rewrite decide_False; [done | apply not_elem_of_nil].
  - cbn [fold_left fst snd]. rewrite IH by (intros k' v Hin; apply Hg; by right).
    rewrite fmap_cons. cbn [fst].
    destruct (decide (k ∈ l.*1)) as [Hin | Hnin].
    + rewrite decide_True; [done | by right].
    + rewrite OD_get_set. destruct (decide (k = k0)) as [-> | Hne].
      * rewrite decide_True by left. symmetry. apply Hg. left.
      * rewrite decide_False; [done|]. by intros [?|?]%elem_of_cons.
Qed.

Lemma OD_get_Some_keys (k : K) (v : V) (d : list (K * V)) :
  OD.get k d = Some v → k ∈ OD.keys d.
Proof.
  induction d as [|[k0 v0] d IH]; simpl; [done|].
  destruct (decide (k = k0)) as [-> | Hne]; [intros _; left | intros Hget; right; auto].
Qed.
Lemma OD_get_fold_Some (l acc : list (K * V)) (k : K) (v : V) :
  OD.get k (fold_left (fun acc kv => OD.set kv.1 kv.2 acc) l acc) = Some v →
  (k, v) ∈ l ∨ OD.get k acc = Some v.
Proof.
  revert acc. induction l as [|[k0 v0] l IH]; intros acc Hget; [by right|].
  cbn [fold_left fst snd] in Hget. apply IH in Hget as [Hin | Hget].
  - left. by right.
  - rewrite OD_get_set in Hget. destruct (decide (k = k0)) as [-> | Hne].
    + left. injection Hget as ->. left.
    + by right.
Qed.
End DictFacts.

Section ReduceFacts.
Import Torch Terms.
Context {num : Type} `{Numeric num}.
Variable frozenset_iter : gset string → list string.
Hypothesis frozenset_iter_perm : ∀ s, frozenset_iter s ≡ₚ elements s.

#[local] Arguments apply {num H} _ _ _ _ : simpl never.

Lemma mapR_Ok_lookup {A B} (f : A → result B) (l : list A) (l' : list B) :
  mapR f l = Ok l' → ∀ x y, (x, y) ∈ zip l l' → f x = Ok y.
Proof.
  revert l'. induction l as [|a l IH]; intros l' Hmap x y Hin; simpl in *.
  - injection Hmap as <-. by apply elem_of_nil in Hin.
  - destruct (f a) as [b|] eqn:Hfa; simpl in Hmap; [|done].
    destruct (mapR f l) as [bs|] eqn:Hbs; simpl in Hmap; [|done].
    injection Hmap as <-. simpl in Hin.
    apply elem_of_cons in Hin as [[= -> ->] | Hin]; [done | by eapply IH].
Qed.

Lemma mapR_Ok_length {A B} (f : A → result B) (l : list A) (l' : list B) :
  mapR f l = Ok l' → length l' = length l.
Proof.
  revert l'. induction l as [|a l IH]; intros l' Hmap; simpl in *.
  - by injection Hmap as <-.
  - destruct (f a) as [b|]; simpl in Hmap; [|done].
    destruct (mapR f l) as [bs|]; simpl in Hmap; [|done].
    injection Hmap as <-. simpl. f_equal. by apply IH.
Qed.

Lemma outcome_bind {A B} (P : A → Prop) (Q : B → Prop) (m : M num A)
    (k : A → M num B) (reg : registry num) :
  outcome P (m reg) →
  (∀ a reg', P a → outcome Q (k a reg')) →
  outcome Q (bind m k reg).
Proof.
  unfold bind. destruct (m reg) as [[a reg']|e]; simpl; [|done].
  intros HP Hk. by apply Hk.
Qed.

Lemma outcome_foldMM {A B} (P : A → Prop) (step : A → B → M num A) (l : list B)
    (acc : A) (reg : registry num) :
  P acc →
  (∀ a x reg', P a → outcome P (step a x reg')) →
  outcome P (foldMM step l acc reg).
Proof.
  intros Hacc Hstep. revert acc reg Hacc.
  induction l as [|x l IH]; intros acc reg Hacc; simpl; [done|].
  eapply outcome_bind; [by apply Hstep|]. intros a reg' Ha. by apply IH.
Qed.

Lemma outcome_impl {A} (P Q : A → Prop) (r : result (A * registry num)) :
  (∀ a, P a → Q a) → outcome P r → outcome Q r.
Proof. intros HPQ. destruct r as [[a reg]|e]; simpl; auto. Qed.

Lemma mapR_Raise {A B} (f : A → result B) (l : list A) (e : exn) :
  mapR f l = Raise e → ∃ x, x ∈ l ∧ f x = Raise e.
Proof.
  induction l as [|a l IH]; simpl; [done|].
  destruct (f a) as [b|e'] eqn:Hfa; simpl.
  - destruct (mapR f l) as [bs|e'']; simpl; [done|].
    intros [= ->]. destruct IH as (x & Hin & Hx); [done|].
    exists x. split; [by right | done].
  - intros [= ->]. exists a. split; [left | done].
Qed.

Lemma Funsor_init_Raise (dims : list string) (shape : list domain) (e : exn) :
  Funsor_init dims shape = Raise e → e = AssertionError.
Proof. unfold Funsor_init. repeat case_match; congruence. Qed.

Lemma Function_init_Ok (dims : list string) (shape : list domain) (fn : pyfn num)
    (f : funsor num) :
  Function_init dims shape fn = Ok f → f = Function dims shape fn.
Proof.
  unfold Function_init. destruct (Funsor_init dims shape); simpl; congruence.
Qed.

Lemma Function_init_Raise (dims : list string) (shape : list domain) (fn : pyfn num)
    (e : exn) :
  Function_init dims shape fn = Raise e → e = AssertionError.
Proof.
  unfold Function_init. destruct (Funsor_init dims shape) eqn:Hf; simpl; [done|].
  intros [= <-]. by eapply Funsor_init_Raise.
Qed.

Lemma schema_of_dims (dims : list string) (shape : list domain) (d : string)
    (s : domain) :
  OD.get d (schema_of dims shape) = Some s → d ∈ dims.
Proof.
  intros Hget. apply OD_get_fold_Some in Hget as [Hin | Hget]; [|done].
  by apply elem_of_zip_l in Hin.
Qed.

(** Binding the dimension [x] of a [Function] by name gives a [Function]
    whose dims and shape do not depend on the value bound, and whose schema
    agrees with the old one on the other dimensions. *)
Lemma Function_call_bound (dims : list string) (shape : list domain)
    (fn : pyfn num) (x : string) :
  ∃ dims' shape',
    (∀ d s, d ≠ x →
       OD.get d (schema_of dims shape) = Some s →
       OD.get d (schema_of dims' shape') = Some s)
    ∧ ∀ (n : num) reg,
        outcome (function_over dims' shape')
          (call (Function dims shape fn) [] [(x, VNum n)] reg).
Proof.
  destruct (decide (x ∈ dims)) as [Hin | Hnin].
  - set (dims' := filter (fun d => d ∉ [x]) dims).
    set (lookup := fun d => of_option (OD.get d (schema_of dims shape)) KeyError).
    assert (Hcall : ∀ (n : num) reg,
      call (Function dims shape fn) [] [(x, VNum n)] reg
      = lift (let* shape' := mapR lookup dims' in
              let* f := Function_init dims' shape'
                          (fn_partial fn [] [(x, VNum n)]) in
              Ok (VFunsor f)) reg).
    { intros n reg. unfold call, Function_call, own_kwargs.
      rewrite filter_cons_True by done. rewrite filter_nil. reflexivity. }
    destruct (mapR lookup dims') as [shape'|e] eqn:Hmap.
    + exists dims', shape'. split.
      * intros d s Hne Hget. unfold schema_of at 1.
        rewrite (OD_get_update (fun k => OD.get k (schema_of dims shape))).
        -- rewrite decide_True; [done|].
           rewrite fst_zip by (by rewrite (mapR_Ok_length _ _ _ Hmap)).
           apply list_elem_of_filter. split.
           ++ by intros ?%list_elem_of_singleton.
           ++ by eapply schema_of_dims.
        -- intros k v Hkv. pose proof (mapR_Ok_lookup _ _ _ Hmap k v Hkv) as Hl.
           unfold lookup in Hl.
           destruct (OD.get k (schema_of dims shape)); simpl in Hl; congruence.
      * intros n reg. rewrite Hcall. unfold lift. simpl.
        destruct (Function_init _ _ _) as [f|e] eqn:Hinit; simpl.
        -- apply Function_init_Ok in Hinit as ->. by eexists.
        -- by apply Function_init_Raise in Hinit as ->.
    + exists dims, shape. split; [done|].
      intros n reg. rewrite Hcall. unfold lift. simpl.
      apply mapR_Raise in Hmap as (k & _ & Hk). unfold lookup in Hk.
      destruct (OD.get k (schema_of dims shape)); simpl in Hk; [done|].
      by injection Hk as <-.
  - exists dims, shape. split; [done|].
    intros n reg. unfold call, lift, Function_call, own_kwargs.
    rewrite filter_cons_False by done. rewrite filter_nil. simpl. by eexists.
Qed.

(** A binary operator applied to two [Function]s over the same dims raises
    or gives a [Function] over these dims. *)
Lemma apply_binary_functions (fuel : nat) (o : binary_op) (dims : list string)
    (shape : list domain) (x y : value num) (reg : registry num) :
  function_over dims shape x → function_over dims shape y →
  outcome (function_over dims shape)
    (apply frozenset_iter (S fuel) (VBinary o) [x; y] reg).
Proof.
  intros [fx ->] [fy ->]. rewrite apply_S.
  destruct o; simpl; try done;
    unfold Funsor_pointwise_binary; simpl; rewrite decide_True by done;
    unfold lift;
    (destruct (Function_init _ _ _) as [f|e] eqn:Hinit; simpl;
     [apply Function_init_Ok in Hinit as ->; by eexists
     |by apply Function_init_Raise in Hinit as ->]).
Qed.

(** One round of the loop of [Funsor.reduce] on a [Function], for an
    operator. *)
Lemma reduce_dim_function (fuel : nat) (o : binary_op) (dims : list string)
    (shape : list domain) (fn : pyfn num) (x : string) (size : nat)
    (reg : registry num) :
  ∃ dims' shape',
    (∀ d s, d ≠ x →
       OD.get d (schema_of dims shape) = Some s →
       OD.get d (schema_of dims' shape') = Some s)
    ∧ outcome (function_over dims' shape')
        (reduce_dim (apply frozenset_iter (S fuel)) (VBinary o)
           (Function dims shape fn) x size reg).
Proof.
  destruct (Function_call_bound dims shape fn x) as (dims' & shape' & Hschema & Hcall).
  exists dims', shape'. split; [exact Hschema|].
  destruct size as [|size]; simpl; [done|].
  eapply outcome_bind; [apply Hcall|]. intros first reg1 Hfirst.
  apply outcome_foldMM; [exact Hfirst|].
  intros acc i reg2 Hacc.
  eapply outcome_bind; [apply Hcall|]. intros item reg3 Hitem.
  by apply apply_binary_functions.
Qed.

(** The loop of [Funsor.reduce] on a [Function] with a continuous dimension
    among those to reduce does not come to an end. *)
Lemma reduce_loop_continuous (fuel : nat) (o : binary_op) (d tag : string)
    (l : list string) (result : value num) (reg : registry num) :
  d ∈ l → continuous_at d tag result →
  outcome (fun _ => False)
    (foldMM (reduce_round (apply frozenset_iter (S fuel)) (VBinary o)) l result reg).
Proof.
  revert result reg. induction l as [|x l IH]; intros result reg Hin Hcont.
  - by apply elem_of_nil in Hin.
  - destruct Hcont as (dims & shape & fn & -> & Hd). cbn [foldMM].
    change (f_schema (Function dims shape fn)) with (schema_of dims shape) in Hd.
    destruct (decide (x = d)) as [-> | Hne].
    + unfold bind, reduce_round, lift.
      change (f_schema (Function dims shape fn)) with (schema_of dims shape).
      rewrite Hd. simpl. done.
    + apply elem_of_cons in Hin as [-> | Hin]; [done|].
      eapply (outcome_bind (continuous_at d tag)); [|intros; by apply IH].
      unfold reduce_round.
      change (f_schema (Function dims shape fn)) with (schema_of dims shape).
      unfold bind at 1. unfold lift at 1.
      destruct (OD.get x (schema_of dims shape)) as [[size | tag']|] eqn:Hx; simpl;
        [|done|done].
      destruct (reduce_dim_function fuel o dims shape fn x size reg)
        as (dims' & shape' & Hschema & Hout).
      eapply outcome_impl; [|exact Hout].
      intros v [fn' ->]. exists dims', shape', fn'. split; [done|].
      change (f_schema (Function dims' shape' fn')) with (schema_of dims' shape').
      by apply Hschema.
Qed.

Lemma Tensor_schema_Int (dims : list string) (data : array num) (d : string)
    (s : domain) :
  OD.get d (f_schema (Tensor dims data)) = Some s → ∃ n, s = Int n.
Proof.
  change (f_schema (Tensor dims data)) with (schema_of dims (map Int (ashape data))).
  intros Hget. apply OD_get_fold_Some in Hget as [Hin | Hget]; [|done].
  apply elem_of_zip_r in Hin. apply list_elem_of_fmap in Hin as (n & -> & _).
  by exists n.
Qed.

Lemma reduce_round_continuous (op : value num) (apply' : value num → list (value num) → M num (value num))
    (self : funsor num) (d tag : string) (reg : registry num) :
  OD.get d (f_schema self) = Some (Cont tag) →
  reduce_round apply' op (VFunsor self) d reg
    = Raise (NotImplementedError "cannot reduce dim").
Proof. intros Hget. unfold reduce_round, bind, lift. by rewrite Hget. Qed.

(** C8 (as amended): [reduce(op, dims)] skips the names in [dims] that are
    not dims of the funsor (when none is, the funsor itself is returned);
    when [dims] holds a dim of the funsor whose domain is continuous, the call
    raises, and the exception is [NotImplementedError("cannot reduce dim")]
    when that dim is the only one of the funsor in [dims]. *)
Theorem reduce_unknown_and_continuous (fuel : nat) (self : funsor num)
    (o : binary_op) (dims : gset string) (reg : registry num) :
  (dims ∩ list_to_set (f_dims self) = ∅ →
   reduce_ frozenset_iter (apply frozenset_iter fuel) self (VBinary o) (Some dims) reg
     = Ok (VFunsor self, reg))
  ∧ ∀ d tag,
      d ∈ dims → OD.get d (f_schema self) = Some (Cont tag) →
      (1 ≤ fuel →
       ∃ e, reduce_ frozenset_iter (apply frozenset_iter fuel) self (VBinary o)
              (Some dims) reg = Raise e
            ∧ e ≠ OutOfFuel)
      ∧ (dims ∩ list_to_set (f_dims self) = {[d]} →
         reduce_ frozenset_iter (apply frozenset_iter fuel) self (VBinary o)
           (Some dims) reg
           = Raise (NotImplementedError "cannot reduce dim")).
Proof.
  split.
  - intros Hempty.
    assert (Hiter : frozenset_iter (dims ∩ list_to_set (f_dims self)) = []).
    { apply Permutation_nil_r. rewrite frozenset_iter_perm, Hempty.
      by rewrite elements_empty. }
    assert (Hgen : Funsor_reduce frozenset_iter (apply frozenset_iter fuel) self
                     (VBinary o) (Some dims) reg = Ok (VFunsor self, reg)).
    { unfold Funsor_reduce. by rewrite Hiter. }
    destruct self as [name size | sdims sshape sfn | sdims sdata]; try exact Hgen.
    unfold reduce_, Tensor_reduce. destruct (in_REDUCE_OP_TO_TORCH o); [|exact Hgen].
    by rewrite decide_True.
  - intros d tag Hd Hget.
    assert (Hdin : d ∈ f_dims self).
    { change (f_schema self) with (schema_of (f_dims self) (f_shape self)) in Hget.
      by eapply schema_of_dims. }
    assert (Hiter : d ∈ frozenset_iter (dims ∩ list_to_set (f_dims self))).
    { rewrite frozenset_iter_perm. apply elem_of_elements. set_solver. }
    assert (Hred : reduce_ frozenset_iter (apply frozenset_iter fuel) self
                     (VBinary o) (Some dims) reg
                   = foldMM (reduce_round (apply frozenset_iter fuel) (VBinary o))
                       (frozenset_iter (dims ∩ list_to_set (f_dims self)))
                       (VFunsor self) reg).
    { destruct self as [name size | sdims sshape sfn | sdims sdata]; try reflexivity.
      apply Tensor_schema_Int in Hget as [n Hn]. done. }
    rewrite Hred. split.
    + intros Hfuel. destruct fuel as [|fuel]; [lia|].
      destruct self as [name size | sdims sshape sfn | sdims sdata].
      * destruct (frozenset_iter _) as [|x l]; [by apply elem_of_nil in Hiter|].
        cbn [foldMM]. unfold bind at 1. unfold reduce_round, bind, lift.
        destruct (OD.get x (f_schema (Variable_ name size))) as [[n|tag']|] eqn:Hx;
          simpl.
        -- exfalso. simpl in Hx, Hget. case_decide; [|done]. case_decide; [|done].
           congruence.
        -- eexists. split; [reflexivity | done].
        -- eexists. split; [reflexivity | done].
      * pose proof (reduce_loop_continuous fuel o d tag _
                      (VFunsor (Function sdims sshape sfn)) reg Hiter) as Hloop.
        destruct (foldMM _ _ _ reg) as [[v reg']|e].
        -- exfalso. apply Hloop. by exists sdims, sshape, sfn.
        -- eexists. split; [reflexivity|]. apply Hloop. by exists sdims, sshape, sfn.
      * apply Tensor_schema_Int in Hget as [n Hn]. done.
    + intros Hsingle.
      assert (Hl : frozenset_iter (dims ∩ list_to_set (f_dims self)) = [d]).
      { apply Permutation_singleton_r. rewrite frozenset_iter_perm, Hsingle.
        by rewrite elements_singleton. }
      rewrite Hl. cbn [foldMM]. unfold bind.
      by rewrite (reduce_round_continuous _ _ _ d tag).
Qed.
End ReduceFacts.

Section ReduceExamples.
Import Torch Terms TermExamples.

(** The name [zz] is not a dim of the function [f_i] over [i], and reducing
    over it does not fail: the call returns [f_i]. *)
Lemma reduce_skips_unknown_dim :
  ("zz" ∉ f_dims f_i)
  ∧ reduce_ elements (apply elements 3) f_i (VBinary op_add) (Some {["zz"]})
      empty_registry = Ok (VFunsor f_i, empty_registry)
  ∧ ¬ ∃ e, reduce_ elements (apply elements 3) f_i (VBinary op_add) (Some {["zz"]})
             empty_registry = Raise e.
Proof.
  assert (Hred : reduce_ elements (apply elements 3) f_i (VBinary op_add)
                   (Some {["zz"]}) empty_registry = Ok (VFunsor f_i, empty_registry))
    by (by vm_compute).
  split; [by intros ?%list_elem_of_singleton|]. split; [exact Hred|].
  intros [e He]. rewrite Hred in He. discriminate.
Qed.

Lemma reduce_unknown_and_continuous_witness :
  reduce_ elements (apply elements 3) f_ix (VBinary op_add) (Some {["zz"]})
    empty_registry = Ok (VFunsor f_ix, empty_registry)
  ∧ (∃ e, reduce_ elements (apply elements 3) f_ix (VBinary op_add)
            (Some {["i"; "x"; "zz"]}) empty_registry = Raise e
          ∧ e ≠ OutOfFuel)
  ∧ reduce_ elements (apply elements 3) f_ix (VBinary op_add) (Some {["x"; "zz"]})
      empty_registry = Raise (NotImplementedError "cannot reduce dim").
Proof.
  pose proof (reduce_unknown_and_continuous elements (fun s => reflexivity _) 3 f_ix op_add)
    as Hreduce.
  split; [|split].
  - apply (Hreduce {["zz"]} empty_registry). by vm_compute.
  - refine (proj1 (proj2 (Hreduce {["i"; "x"; "zz"]} empty_registry) "x" "real" _ _) _).
    + by vm_compute.
    + reflexivity.
    + lia.
  - refine (proj2 (proj2 (Hreduce {["x"; "zz"]} empty_registry) "x" "real" _ _) _).
    + by vm_compute.
    + reflexivity.
    + by vm_compute.
Defined.
End ReduceExamples.

Section DictKeys.
Context {K V : Type} `{EqDecision K}.

Lemma OD_keys_set (k : K) (v : V) (d : list (K * V)) :
  OD.keys (OD.set k v d) = if decide (k ∈ OD.keys d) then OD.keys d else OD.keys d ++ [k].
Proof.
  unfold OD.keys. induction d as [|[k0 v0] d IH]; cbn [OD.set map fst].
  - rewrite decide_False; [done | apply not_elem_of_nil].
  - destruct (decide (k = k0)) as [-> | Hne]; cbn [map fst].
    + rewrite decide_True; [done | left].
    + rewrite IH. destruct (decide (k ∈ map fst d)) as [Hin | Hnin].
      * rewrite decide_True; [done | by right].
      * rewrite decide_False; [done|]. by intros [?|?]%elem_of_cons.
Qed.

Lemma OD_keys_set_NoDup (k : K) (v : V) (d : list (K * V)) :
  NoDup (OD.keys d) → NoDup (OD.keys (OD.set k v d)).
Proof.
  intros Hnd. rewrite OD_keys_set. case_decide; [done|].
  apply NoDup_app. split; [done|]. split; [|apply NoDup_singleton].
  intros x Hx ->%list_elem_of_singleton. done.
Qed.

Lemma OD_keys_set_elem (k k' : K) (v : V) (d : list (K * V)) :
  k' ∈ OD.keys (OD.set k v d) ↔ k' = k ∨ k' ∈ OD.keys d.
Proof.
  rewrite OD_keys_set. case_decide.
  - split; [by right | by intros [-> | ?]].
  - rewrite elem_of_app, list_elem_of_singleton. tauto.
Qed.

Lemma OD_values_set (P : V → Prop) (k : K) (v : V) (d : list (K * V)) :
  P v → Forall P (map snd d) → Forall P (map snd (OD.set k v d)).
Proof.
  intros Hv. induction d as [|[k0 v0] d IH]; simpl; intros Hd.
  - by repeat constructor.
  - inversion Hd; subst. destruct (decide (k = k0)); simpl; constructor; auto.
Qed.

Lemma OD_fold_set (P : V → Prop) (l acc : list (K * V)) :
  NoDup (OD.keys acc) → Forall P (map snd acc) → Forall P (map snd l) →
  let d := fold_left (fun acc kv => OD.set kv.1 kv.2 acc) l acc in
  NoDup (OD.keys d) ∧ Forall P (map snd d) ∧ length (OD.keys d) = length (map snd d)
  ∧ ∀ k, k ∈ OD.keys d ↔ k ∈ map fst l ∨ k ∈ OD.keys acc.
Proof.
  revert acc. induction l as [|[k v] l IH]; intros acc Hnd Hacc Hl; simpl.
  - split; [done|]. split; [done|]. split.
    + unfold OD.keys. by rewrite !length_map.
    + intros k. split; [by right | by intros [?%elem_of_nil | ?]].
  - inversion Hl; subst.
    destruct (IH (OD.set k v acc)) as (Hnd' & HP & Hlen & Hkeys);
      [by apply OD_keys_set_NoDup | by apply OD_values_set | done |].
    split; [done|]. split; [done|]. split; [done|].
    intros k'. rewrite Hkeys, OD_keys_set_elem, elem_of_cons. tauto.
Qed.
End DictKeys.

Section Construction.
Import Torch Terms.
Context {num : Type} `{Numeric num}.

Lemma Funsor_init_constructed (dims : list string) (shape : list domain) :
  NoDup dims → Forall (fun s => valid_size s = true) shape →
  length dims = length shape → Funsor_init dims shape = Ok ().
Proof.
  intros Hnd Hvalid Hlen. unfold Funsor_init.
  rewrite decide_True by done.
  rewrite (proj2 (forallb_forall _ _)); [by rewrite decide_True|].
  intros s Hs. rewrite Forall_forall in Hvalid. apply Hvalid. by apply list_elem_of_In.
Qed.

(** On two constructed funsors that are not both tensors,
    [pointwise_binary] fails no assertion: it returns a [Function] whose dims
    are those of the operands, each once. *)
Lemma Funsor_pointwise_binary_constructed
    (apply' : value num → list (value num) → M num (value num))
    (self other : funsor num) (op : value num) (reg : registry num) :
  constructed self → constructed other →
  ∃ dims shape fn,
    Funsor_pointwise_binary apply' self (VFunsor other) op reg
      = Ok (VFunsor (Function dims shape fn), reg)
    ∧ NoDup dims ∧ length dims = length shape
    ∧ ∀ d, d ∈ dims ↔ d ∈ f_dims self ∨ d ∈ f_dims other.
Proof.
  intros (Hnd1 & Hv1 & Hlen1) (Hnd2 & Hv2 & Hlen2).
  unfold Funsor_pointwise_binary. case_decide as Hdims.
  - exists (f_dims self), (f_shape self), (fn_binary self other op).
    unfold lift, Function_init. rewrite Funsor_init_constructed by done. simpl.
    split; [done|]. split; [done|]. split; [done|].
    intros d. rewrite <- Hdims. tauto.
  - set (schema := OD.update (f_schema self) (f_schema other)).
    exists (map fst schema), (map snd schema),
      (fn_broadcast (map fst schema) self other op).
    assert (Hself : NoDup (OD.keys (f_schema self))
                    ∧ Forall (fun s => valid_size s = true) (map snd (f_schema self))
                    ∧ length (OD.keys (f_schema self)) = length (map snd (f_schema self))
                    ∧ ∀ k, k ∈ OD.keys (f_schema self)
                           ↔ k ∈ map fst (zip (f_dims self) (f_shape self))
                             ∨ k ∈ OD.keys ([] : list (string * domain))).
    { apply (OD_fold_set (fun s => valid_size s = true)); [constructor | constructor |].
      by rewrite snd_zip by lia. }
    destruct Hself as (Hs1 & Hs2 & Hs3 & Hs4).
    assert (Hother : Forall (fun s => valid_size s = true) (map snd (f_schema other))
                     ∧ ∀ k, k ∈ OD.keys (f_schema other) ↔ k ∈ f_dims other).
    { destruct (OD_fold_set (fun s => valid_size s = true)
                  (zip (f_dims other) (f_shape other)) [])
        as (_ & Ho2 & _ & Ho4); [constructor | constructor | by rewrite snd_zip by lia |].
      split; [exact Ho2|]. intros k. unfold f_schema. rewrite Ho4.
      rewrite fst_zip by lia. split; [by intros [?|?%elem_of_nil] | by left]. }
    destruct Hother as [Ho2 Ho4].
    destruct (OD_fold_set (fun s => valid_size s = true) (f_schema other) (f_schema self))
      as (Hu1 & Hu2 & Hu3 & Hu4); [done | done | done |].
    fold (OD.update (f_schema self) (f_schema other)) in Hu1, Hu2, Hu3, Hu4.
    fold schema in Hu1, Hu2, Hu3, Hu4.
    unfold lift, Function_init. rewrite Funsor_init_constructed by done. simpl.
    split; [done|]. split; [done|]. split; [done|].
    intros d. fold (OD.keys schema). rewrite Hu4.
    fold (OD.keys (f_schema other)). rewrite Ho4, Hs4.
    rewrite fst_zip by lia. split.
    + intros [? | [? | ?%elem_of_nil]]; tauto.
    + intros [? | ?]; tauto.
Qed.
End Construction.

Section Invariant.
Import Torch Terms.
Context {num : Type} `{Numeric num}.
Variable frozenset_iter : gset string → list string.

#[local] Arguments apply {num H} _ _ _ _ : simpl never.

Lemma sound_ret {A} (P : A → Prop) (a : A) : P a → sound (num:=num) P (ret a).
Proof. intros HP reg a' reg' Hreg [= <- <-]. done. Qed.

Lemma sound_raise {A} (P : A → Prop) (e : exn) : sound (num:=num) P (raise e).
Proof. intros reg a reg' Hreg Heq. discriminate. Qed.

Lemma sound_lift {A} (P : A → Prop) (x : result A) :
  (∀ a, x = Ok a → P a) → sound (num:=num) P (lift x).
Proof.
  intros HP reg a reg' Hreg. unfold lift. destruct x as [a'|e]; [|done].
  intros [= <- <-]. split; [by apply HP | done].
Qed.

Lemma sound_bind {A B} (P : A → Prop) (Q : B → Prop) (m : M num A)
    (k : A → M num B) :
  sound P m → (∀ a, P a → sound Q (k a)) → sound Q (bind m k).
Proof.
  intros Hm Hk reg b reg' Hreg. unfold bind.
  destruct (m reg) as [[a reg1]|e] eqn:Hmr; [|done].
  destruct (Hm reg a reg1 Hreg Hmr) as [Ha Hreg1]. by apply Hk.
Qed.

Lemma sound_foldMM {A B} (P : A → Prop) (step : A → B → M num A) (l : list B)
    (acc : A) :
  P acc → (∀ a x, P a → sound P (step a x)) → sound P (foldMM step l acc).
Proof.
  intros Hacc Hstep. revert acc Hacc.
  induction l as [|x l IH]; intros acc Hacc; simpl.
  - by apply sound_ret.
  - eapply sound_bind; [by apply Hstep | by apply IH].
Qed.

Lemma Funsor_init_Ok (dims : list string) (shape : list domain) :
  Funsor_init dims shape = Ok () → NoDup dims ∧ length dims = length shape.
Proof. unfold Funsor_init. repeat case_match; done. Qed.

Lemma Function_init_wf (dims : list string) (shape : list domain) (fn : pyfn num)
    (f : funsor num) :
  Function_init dims shape fn = Ok f → wf f.
Proof.
  unfold Function_init. intros (u & Hinit & [= <-])%rbind_Ok. destruct u.
  by apply Funsor_init_Ok in Hinit.
Qed.

Lemma Tensor_init_wf (dims : list string) (data : value num) (f : funsor num) :
  Tensor_init dims data = Ok f → wf f.
Proof.
  unfold Tensor_init. destruct data; try done.
  intros (u & Hinit & [= <-])%rbind_Ok. destruct u.
  apply Funsor_init_Ok in Hinit as [Hnd Hlen]. split; [done|].
  simpl. by rewrite length_map in Hlen |- *.
Qed.

Lemma Variable_wf (name : string) (size : domain) :
  wf (num:=num) (Variable_ name size).
Proof. split; [apply NoDup_singleton | done]. Qed.

Lemma Variable_init_wf (name : string) (size : domain) :
  sound (wf (num:=num)) (Variable_init name size).
Proof.
  intros reg f reg' Hreg. unfold Variable_init.
  destruct (_VARIABLES reg !! (name, size)); [done|].
  unfold lift. destruct (Funsor_init [name] [size]); simpl; [|done].
  intros [= <- <-]. split; [apply Variable_wf | done].
Qed.

Lemma var_wf (name : string) (size : domain) :
  sound (fun o => wf (oval o)) (var name size).
Proof.
  intros reg o reg' Hreg. unfold var.
  destruct (_VARIABLES reg !! (name, size)) as [o'|] eqn:Hget.
  - intros [= <- <-]. split; [by eapply Hreg | done].
  - intros ([f reg1] & Hmk & [= <- <-])%rbind_Ok.
    assert (Hf : wf f ∧ reg1 = reg).
    { destruct size as [n | tag].
      - unfold lift in Hmk.
        destruct (Tensor_init [name] (VData (torch_arange n))) eqn:Hinit; [|done].
        injection Hmk as <- <-. split; [by eapply Tensor_init_wf | done].
      - unfold Variable_init in Hmk. rewrite Hget in Hmk. unfold lift in Hmk.
        destruct (Funsor_init [name] [Cont tag]); simpl in Hmk; [|done].
        injection Hmk as <- <-. split; [apply Variable_wf | done]. }
    destruct Hf as [Hf ->]. split; [exact Hf|].
    intros key o Hkey. simpl in Hkey.
    destruct (decide ((name, size) = key)) as [<- | Hne].
    + rewrite lookup_insert_eq in Hkey. by injection Hkey as <-.
    + rewrite lookup_insert_ne in Hkey by done. by eapply Hreg.
Qed.

Lemma wf_kwargs_get (kwargs : list (string * value num)) (k : string) (v : value num) :
  wf_kwargs kwargs → OD.get k kwargs = Some v → wf_value v.
Proof.
  induction 1 as [|[k0 v0] kwargs Hv _ IH]; simpl in *; [done|].
  destruct (decide (k = k0)); [by intros [= <-] | exact IH].
Qed.

Lemma wf_kwargs_set (kwargs : list (string * value num)) (k : string) (v : value num) :
  wf_kwargs kwargs → wf_value v → wf_kwargs (OD.set k v kwargs).
Proof.
  intros Hk Hv. induction Hk as [|[k0 v0] kwargs Hv0 Htl IH]; simpl.
  - by repeat constructor.
  - destruct (decide (k = k0)); constructor; simpl; assumption.
Qed.

Lemma wf_kwargs_update (kwargs other : list (string * value num)) :
  wf_kwargs kwargs → wf_kwargs other → wf_kwargs (OD.update kwargs other).
Proof.
  intros Hk Ho. unfold OD.update. revert kwargs Hk.
  induction Ho as [|[k v] other Hv _ IH]; intros kwargs Hk; simpl; [done|].
  apply IH. by apply wf_kwargs_set.
Qed.

Lemma wf_kwargs_zip (dims : list string) (args : list (value num)) :
  Forall wf_value args → wf_kwargs (zip dims args).
Proof.
  intros Ha. revert dims. induction Ha as [|a args Hv _ IH]; intros [|d dims]; simpl;
    try by constructor.
  constructor; [done | apply IH].
Qed.

Lemma Variable_call_wf (self : funsor num) (args : list (value num))
    (kwargs : list (string * value num)) :
  wf self → Forall wf_value args → wf_kwargs kwargs →
  sound wf_value (Variable_call self args kwargs).
Proof.
  intros Hself Hargs Hkw. unfold Variable_call.
  destruct self as [name size | |]; try apply sound_raise.
  destruct (OD.get name _) as [v|] eqn:Hget; [|by apply sound_ret].
  assert (Hv : wf_value v).
  { eapply wf_kwargs_get; [|exact Hget].
    apply wf_kwargs_update; [done | by apply wf_kwargs_zip]. }
  destruct v; try apply sound_raise; try by apply sound_ret.
  eapply sound_bind; [apply var_wf|]. intros o Ho. by apply sound_ret.
Qed.

Lemma Function_call_wf (self : funsor num) (args : list (value num))
    (kwargs : list (string * value num)) (v : value num) :
  wf self → Function_call self args kwargs = Ok v → wf_value v.
Proof.
  intros Hself. unfold Function_call.
  destruct self as [| sdims sshape sfn |]; try done.
  destruct args as [|a args]; destruct (own_kwargs sdims kwargs) as [|kv kw];
    try (by intros [= <-]);
    intros (shape & _ & (f & Hinit & [= <-])%rbind_Ok)%rbind_Ok;
    by eapply Function_init_wf.
Qed.

Lemma Tensor__substitute_wf (self : funsor num) (dim : string) (v : value num)
    (f : funsor num) :
  wf self → Tensor__substitute self dim v = Ok f → wf f.
Proof.
  intros Hself. unfold Tensor__substitute.
  destruct self as [| | sdims sdata]; try done.
  intros (pos & _ & Hsub)%rbind_Ok.
  assert (Hgather : ∀ vdims vdata,
    substitute_tensor sdims sdata dim pos vdims vdata = Ok f → wf f).
  { intros vdims vdata. unfold substitute_tensor. destruct (existsb _ vdims); [done|].
    intros (data & _ & Hinit)%rbind_Ok. by eapply Tensor_init_wf. }
  destruct v as [| | x | s | start stop step | | | | | g]; try done.
  - apply rbind_Ok in Hsub as (i & _ & (data & _ & Hinit)%rbind_Ok).
    by eapply Tensor_init_wf.
  - case_decide; [by injection Hsub as <-|]. by eapply Tensor_init_wf.
  - destruct start, stop, step; try (by injection Hsub as <-);
      apply rbind_Ok in Hsub as (size & _ & (r & _ & (value & _ & Hg)%rbind_Ok)%rbind_Ok);
      by eapply Hgather.
  - destruct g; try done. by eapply Hgather.
Qed.

Lemma foldM_wf {B} (step : funsor num → B → result (funsor num)) (l : list B)
    (acc f : funsor num) :
  (∀ a x a', wf a → step a x = Ok a' → wf a') →
  wf acc → foldM step l acc = Ok f → wf f.
Proof.
  intros Hstep. revert acc. induction l as [|x l IH]; intros acc Hacc; simpl.
  - by intros [= <-].
  - intros (a & Ha & Hrest)%rbind_Ok. eapply IH; [|exact Hrest]. by eapply Hstep.
Qed.

Lemma Tensor_call_wf (self : funsor num) (args : list (value num))
    (kwargs : list (string * value num)) (v : value num) :
  wf self → Tensor_call self args kwargs = Ok v → wf_value v.
Proof.
  intros Hself. unfold Tensor_call.
  destruct (match find_pos is_Ellipsis args with Some _ => _ | None => _ end)
    as [args' kwargs'].
  intros (f & Hfold & [= <-])%rbind_Ok. simpl.
  eapply foldM_wf; [|exact Hself|exact Hfold].
  intros a x a' Ha. by apply Tensor__substitute_wf.
Qed.

Lemma call_wf (self : funsor num) (args : list (value num))
    (kwargs : list (string * value num)) :
  wf self → Forall wf_value args → wf_kwargs kwargs →
  sound wf_value (call self args kwargs).
Proof.
  intros Hself Hargs Hkw. destruct self as [name size | sdims sshape sfn | sdims sdata];
    unfold call.
  - by apply Variable_call_wf.
  - apply sound_lift. intros v. by apply Function_call_wf.
  - apply sound_lift. intros v. by apply Tensor_call_wf.
Qed.

Section MethodsSound.
Variable apply' : value num → list (value num) → M num (value num).
Hypothesis apply'_sound : ∀ c args,
  wf_value c → Forall wf_value args → sound wf_value (apply' c args).

Lemma Funsor_pointwise_unary_wf (self : funsor num) (op : value num) :
  sound wf_value (Funsor_pointwise_unary self op).
Proof.
  apply sound_lift. intros v (f & Hinit & [= <-])%rbind_Ok.
  by eapply Function_init_wf.
Qed.

Lemma pointwise_unary_wf (self : funsor num) (op : value num) :
  wf_value op → sound wf_value (pointwise_unary apply' self op).
Proof.
  intros Hop. destruct self as [name size | sdims sshape sfn | sdims sdata];
    unfold pointwise_unary.
  - unfold Variable_pointwise_unary.
    destruct op as [| | | | | | o | | |];
      try apply Funsor_pointwise_unary_wf.
    destruct o; try apply Funsor_pointwise_unary_wf; apply sound_raise.
  - apply Funsor_pointwise_unary_wf.
  - unfold Tensor_pointwise_unary.
    eapply sound_bind; [apply apply'_sound; [done | by repeat constructor]|].
    intros data _. apply sound_lift.
    intros v (f & Hinit & [= <-])%rbind_Ok. by eapply Tensor_init_wf.
Qed.

Lemma Funsor_pointwise_binary_wf (self : funsor num) (other op : value num) :
  wf_value other → wf_value op →
  sound wf_value (Funsor_pointwise_binary apply' self other op).
Proof.
  intros Hother Hop. unfold Funsor_pointwise_binary.
  destruct other; try (by apply pointwise_unary_wf).
  case_decide; apply sound_lift; intros v (g & Hinit & [= <-])%rbind_Ok;
    by eapply Function_init_wf.
Qed.

Lemma pointwise_binary_wf (self : funsor num) (other op : value num) :
  wf_value other → wf_value op →
  sound wf_value (pointwise_binary apply' self other op).
Proof.
  intros Hother Hop.
  destruct self as [name size | sdims sshape sfn | sdims sdata];
    unfold pointwise_binary; try by apply Funsor_pointwise_binary_wf.
  unfold Tensor_pointwise_binary.
  destruct other as [| | | | | | | | | g]; try by apply Funsor_pointwise_binary_wf.
  destruct g as [| | odims odata]; try by apply Funsor_pointwise_binary_wf.
  case_decide.
  - eapply sound_bind; [apply apply'_sound; [done | by repeat constructor]|].
    intros data _. apply sound_lift.
    intros v (f & Hinit & [= <-])%rbind_Ok. by eapply Tensor_init_wf.
  - eapply (sound_bind (fun _ => True)); [by apply sound_lift|].
    intros [dims xs] _. destruct xs as [|self_x [|other_x [|? ?]]]; try apply sound_raise.
    eapply sound_bind; [apply apply'_sound; [done | by repeat constructor]|].
    intros data _. apply sound_lift.
    intros v (f & Hinit & [= <-])%rbind_Ok. by eapply Tensor_init_wf.
Qed.

Lemma apply_unary_wf (o : unary_op) (x : value num) :
  wf_value x → sound wf_value (apply_unary apply' o x).
Proof.
  intros Hx. unfold apply_unary.
  destruct x; try (destruct o; apply sound_raise).
  - apply sound_lift. by intros v (b & _ & [= <-])%rbind_Ok.
  - apply sound_lift. by intros v (b & _ & [= <-])%rbind_Ok.
  - by apply pointwise_unary_wf.
Qed.

Lemma data_binary_wf (o : binary_op) (x y v : value num) :
  data_binary o x y = Ok v → wf_value v.
Proof.
  unfold data_binary. intros Hv.
  repeat (case_match; try done);
    by apply rbind_Ok in Hv as (c & _ & [= <-]).
Qed.

Lemma apply_binary_wf (o : binary_op) (x y : value num) :
  wf_value x → wf_value y → sound wf_value (apply_binary apply' o x y).
Proof.
  intros Hx Hy. unfold apply_binary.
  destruct o; try apply sound_raise;
    (destruct x; destruct y;
     try (by apply pointwise_binary_wf);
     try apply sound_raise;
     apply sound_lift; intros v; apply data_binary_wf).
Qed.

Lemma reduce_dim_wf (op : value num) (result : funsor num) (dim : string)
    (size : nat) :
  wf_value op → wf result → sound wf_value (reduce_dim apply' op result dim size).
Proof.
  intros Hop Hresult. unfold reduce_dim. destruct size as [|size]; [apply sound_raise|].
  assert (Hcall : ∀ i, sound wf_value (call result [] [(dim, VNum (num_of_Z i))])).
  { intros i. apply call_wf; [done | done | by repeat constructor]. }
  eapply sound_bind; [apply Hcall|]. intros first Hfirst.
  apply sound_foldMM; [done|]. intros acc i Hacc.
  eapply sound_bind; [apply Hcall|]. intros item Hitem.
  apply apply'_sound; [done | by repeat constructor].
Qed.

Lemma reduce_round_wf (op result : value num) (dim : string) :
  wf_value op → wf_value result → sound wf_value (reduce_round apply' op result dim).
Proof.
  intros Hop Hresult. unfold reduce_round.
  destruct result; try apply sound_raise.
  eapply (sound_bind (fun _ => True)); [by apply sound_lift|].
  intros [size | tag] _; [by apply reduce_dim_wf | apply sound_raise].
Qed.

Lemma Funsor_reduce_wf (self : funsor num) (op : value num)
    (dims : option (gset string)) :
  wf self → wf_value op →
  sound wf_value (Funsor_reduce frozenset_iter apply' self op dims).
Proof.
  intros Hself Hop. unfold Funsor_reduce.
  apply sound_foldMM; [done|]. intros result dim Hresult. by apply reduce_round_wf.
Qed.

Lemma reduce__wf (self : funsor num) (op : value num) (dims : option (gset string)) :
  wf self → wf_value op →
  sound wf_value (reduce_ frozenset_iter apply' self op dims).
Proof.
  intros Hself Hop.
  destruct self as [name size | sdims sshape sfn | sdims sdata];
    unfold reduce_; try by apply Funsor_reduce_wf.
  unfold Tensor_reduce.
  destruct op as [| | | | | | | o | |]; try (by apply Funsor_reduce_wf);
    [|apply sound_raise].
  destruct (in_REDUCE_OP_TO_TORCH o); [|by apply Funsor_reduce_wf].
  destruct dims as [dims|].
  - case_decide; [by apply sound_ret|].
    apply sound_lift.
    intros v (data & _ & (f & Hinit & [= <-])%rbind_Ok)%rbind_Ok.
    by eapply Tensor_init_wf.
  - apply sound_lift.
    intros v (data & _ & (f & Hinit & [= <-])%rbind_Ok)%rbind_Ok.
    by eapply Tensor_init_wf.
Qed.

Lemma Funsor_contract_wf (self : funsor num) (sum_op prod_op other : value num)
    (dims : option (gset string)) :
  wf_value sum_op → wf_value prod_op → wf_value other →
  sound wf_value (Funsor_contract frozenset_iter apply' self sum_op prod_op other dims).
Proof.
  intros Hsum Hprod Hother. unfold Funsor_contract.
  eapply sound_bind; [by apply pointwise_binary_wf|].
  intros product Hproduct. unfold method_reduce.
  destruct product; try apply sound_raise. by apply reduce__wf.
Qed.
End MethodsSound.

Lemma apply_wf (fuel : nat) (c : value num) (args : list (value num)) :
  wf_value c → Forall wf_value args →
  sound wf_value (apply frozenset_iter fuel c args).
Proof.
  revert c args. induction fuel as [|fuel IH]; intros c args Hc Hargs.
  - apply sound_raise.
  - rewrite apply_S. destruct c as [| | | | | | o | o | op other | f];
      try apply sound_raise.
    + destruct args as [|x [|? ?]]; try apply sound_raise.
      apply apply_unary_wf; [exact IH | by inversion Hargs].
    + destruct args as [|x [|y [|? ?]]]; try apply sound_raise.
      inversion Hargs as [|? ? Hx Hrest]; subst.
      inversion Hrest as [|? ? Hy _]; subst.
      by apply apply_binary_wf.
    + destruct args as [|a [|? ?]]; try apply sound_raise.
      destruct Hc as [Hop Hother]. inversion Hargs; subst.
      apply IH; [done | by repeat constructor].
    + apply call_wf; [done | done | constructor].
Qed.

(** C7: a funsor that a constructor returns has unique dimension names and
    as many sizes as names, and so has every funsor that [__call__],
    [pointwise_unary], [pointwise_binary], [reduce] and [contract] return
    when applied to funsors with this invariant. *)
Theorem funsor_invariant (fuel : nat) :
  (∀ dims shape (fn : pyfn num) f, Function_init dims shape fn = Ok f → wf f)
  ∧ (∀ dims (data : value num) f, Tensor_init dims data = Ok f → wf f)
  ∧ (∀ name size (reg : registry num) f reg',
       Variable_init name size reg = Ok (f, reg') → wf f)
  ∧ ∀ (self : funsor num) reg v reg',
      wf self → wf_registry reg →
      (∀ args kwargs,
         Forall wf_value args → wf_kwargs kwargs →
         call self args kwargs reg = Ok (v, reg') → wf_value v)
      ∧ (∀ op, wf_value op →
           pointwise_unary (apply frozenset_iter fuel) self op reg = Ok (v, reg') →
           wf_value v)
      ∧ (∀ other op, wf_value other → wf_value op →
           pointwise_binary (apply frozenset_iter fuel) self other op reg = Ok (v, reg') →
           wf_value v)
      ∧ (∀ op dims, wf_value op →
           reduce_ frozenset_iter (apply frozenset_iter fuel) self op dims reg
             = Ok (v, reg') →
           wf_value v)
      ∧ (∀ sum_op prod_op other dims,
           wf_value sum_op → wf_value prod_op → wf_value other →
           Funsor_contract frozenset_iter (apply frozenset_iter fuel) self
             sum_op prod_op other dims reg = Ok (v, reg') →
           wf_value v).
Proof.
  split; [apply Function_init_wf|]. split; [apply Tensor_init_wf|].
  split.
  { intros name size reg f reg' Hinit.
    unfold Variable_init in Hinit. destruct (_VARIABLES reg !! (name, size)); [done|].
    unfold lift in Hinit. destruct (Funsor_init [name] [size]); simpl in Hinit; [|done].
    injection Hinit as <- <-. apply Variable_wf. }
  intros self reg v reg' Hself Hreg.
  pose proof (apply_wf fuel) as Happly.
  split; [|split; [|split; [|split]]].
  - intros args kwargs Hargs Hkw Hcall.
    by apply (call_wf self args kwargs Hself Hargs Hkw reg v reg' Hreg).
  - intros op Hop Hrun.
    by apply (pointwise_unary_wf _ Happly self op Hop reg v reg' Hreg).
  - intros other op Hother Hop Hrun.
    by apply (pointwise_binary_wf _ Happly self other op Hother Hop reg v reg' Hreg).
  - intros op dims Hop Hrun.
    by apply (reduce__wf _ Happly self op dims Hself Hop reg v reg' Hreg).
  - intros sum_op prod_op other dims Hsum Hprod Hother Hrun.
    by apply (Funsor_contract_wf _ Happly self sum_op prod_op other dims
                Hsum Hprod Hother reg v reg' Hreg).
Qed.
End Invariant.

Section InvariantExamples.
Import Torch Terms TermExamples.

Lemma funsor_invariant_witness :
  ∃ v reg',
    pointwise_binary (apply elements 3) f_i (VFunsor f_j) (VBinary op_mul) empty_registry
      = Ok (v, reg')
    ∧ wf_value v.
Proof.
  eexists; eexists. split; [by vm_compute|].
  assert (Hwf_i : wf f_i) by (split; [apply NoDup_singleton | done]).
  assert (Hwf_j : wf f_j) by (split; [apply NoDup_singleton | done]).
  assert (Hreg : wf_registry empty_registry).
  { intros key o Hkey. simpl in Hkey. by rewrite lookup_empty in Hkey. }
  destruct (funsor_invariant elements 3) as (_ & _ & _ & Hops).
  destruct (Hops f_i empty_registry
              (VFunsor (Function ["i"; "j"] [Int 2; Int 2]
                          (fn_broadcast ["i"; "j"] f_i f_j (VBinary op_mul))))
              empty_registry Hwf_i Hreg) as (_ & _ & Hbinary & _).
  apply (Hbinary (VFunsor f_j) (VBinary op_mul) Hwf_j I). by vm_compute.
Defined.
End InvariantExamples.

(** * The components of [_partition] and the main loop of [partial_sum_product] *)

Section DictElems.
Context {K V : Type} `{EqDecision K}.

Lemma OD_set_elem (k : K) (v : V) (d : list (K * V)) (kv : K * V) :
  kv ∈ OD.set k v d → kv = (k, v) ∨ kv ∈ d.
Proof.
  induction d as [|[k0 v0] d IH]; simpl.
  - intros ->%list_elem_of_singleton. by left.
  - destruct (decide (k = k0)) as [-> | Hne].
    + intros [-> | Hin]%elem_of_cons; [by left | right; by right].
    + intros [-> | Hin]%elem_of_cons; [right; left|].
      destruct (IH Hin) as [-> | Hd]; [by left | right; by right].
Qed.

Lemma OD_get_elem (k : K) (v : V) (d : list (K * V)) :
  OD.get k d = Some v → (k, v) ∈ d.
Proof.
  induction d as [|[k0 v0] d IH]; simpl; [done|].
  destruct (decide (k = k0)) as [-> | Hne].
  - intros [= ->]. left.
  - intros Hget. right. by apply IH.
Qed.

Lemma OD_remove_elem (k : K) (d : list (K * V)) (kv : K * V) :
  kv ∈ OD.remove k d → kv ∈ d.
Proof.
  induction d as [|[k0 v0] d IH]; simpl; [done|].
  destruct (decide (k = k0)) as [-> | Hne].
  - intros Hin. by right.
  - intros [-> | Hin]%elem_of_cons; [left | right; by apply IH].
Qed.

Lemma OD_pop_elem (k : K) (v : V) (d d' : list (K * V)) :
  OD.pop k d = Some (v, d') → (k, v) ∈ d ∧ ∀ kv, kv ∈ d' → kv ∈ d.
Proof.
  unfold OD.pop. destruct (OD.get k d) as [v'|] eqn:Hget; [|done].
  intros [= <- <-]. split; [by apply OD_get_elem|].
  intros kv. apply OD_remove_elem.
Qed.

Lemma OD_popitem_app (kv : K * V) (d d' : list (K * V)) :
  OD.popitem d = Some (kv, d') → d = d' ++ [kv].
Proof.
  unfold OD.popitem. destruct (rev d) as [|x r] eqn:Hrev; [done|].
  intros [= <- <-]. rewrite <- (rev_involutive d), Hrev. done.
Qed.

Lemma list_pop_app {A} (l l' : list A) (x : A) :
  list_pop l = Some (x, l') → l = l' ++ [x].
Proof.
  unfold list_pop. destruct (rev l) as [|y r] eqn:Hrev; [done|].
  intros [= <- <-]. rewrite <- (rev_involutive l), Hrev. done.
Qed.

Lemma OD_remove_keys_sublist (k : K) (d : list (K * V)) :
  OD.keys (OD.remove k d) `sublist_of` OD.keys d.
Proof.
  unfold OD.keys. induction d as [|[k0 v0] d IH]; simpl; [done|].
  destruct (decide (k = k0)).
  - by apply sublist_cons.
  - simpl. by apply sublist_skip.
Qed.
End DictElems.

Section PartitionMembers.
Context {F Op R : Type} `{API : FunsorAPI F Op R}.
Import SumProduct.
Variables (terms : list F) (sum_vars : gset string).

Lemma append_to_graph_nodes (k x : node) (d : list (node * list node)) :
  (node_of_graph terms sum_vars) k → (node_of_graph terms sum_vars) x → (graph_nodes terms sum_vars) d → (graph_nodes terms sum_vars) (append_to k x d).
Proof.
  intros Hk Hx Hd k' adj Hin. unfold append_to in Hin.
  apply OD_set_elem in Hin as [[= -> ->] | Hin]; [|by apply Hd].
  split; [done|]. apply Forall_app. split; [|by repeat constructor].
  destruct (OD.get k d) as [adj|] eqn:Hget; simpl; [|constructor].
  apply OD_get_elem in Hget. by apply Hd in Hget as [_ Hadj].
Qed.

Lemma build_neighbors_graph_nodes : (graph_nodes terms sum_vars) (build_neighbors terms sum_vars).
Proof.
  unfold build_neighbors.
  assert (Hinit : ∀ (l : list F) acc, (∀ t, t ∈ l → t ∈ terms) → (graph_nodes terms sum_vars) acc →
            (graph_nodes terms sum_vars) (fold_left (fun acc t => OD.set (NTerm t) [] acc) l acc)).
  { induction l as [|t l IH]; intros acc Hl Hacc; simpl; [done|].
    apply IH; [intros t' Ht'; apply Hl; by right|].
    intros k adj [[= -> ->] | Hin]%OD_set_elem; [|by apply Hacc].
    split; [apply Hl; left | constructor]. }
  assert (Hmain : ∀ (l : list F) acc, (∀ t, t ∈ l → t ∈ terms) → (graph_nodes terms sum_vars) acc →
            (graph_nodes terms sum_vars) (fold_left (fun acc term =>
              fold_left (fun acc dim =>
                if decide (dim ∈ sum_vars)
                then append_to (NDim dim) (NTerm term)
                       (append_to (NTerm term) (NDim dim) acc)
                else acc) (inputs term) acc) l acc)).
  { induction l as [|t l IH]; intros acc Hl Hacc; simpl; [done|].
    apply IH; [intros t' Ht'; apply Hl; by right|].
    assert (Ht : t ∈ terms) by (apply Hl; left).
    clear IH Hl. generalize (inputs t). intros ds. revert acc Hacc.
    induction ds as [|d ds IHd]; intros acc Hacc; simpl; [done|].
    apply IHd. case_decide; [|done].
    apply append_to_graph_nodes; [done | done |].
    by apply append_to_graph_nodes. }
  apply Hmain; [done|]. apply Hinit; [done|].
  intros k adj Hin. by apply elem_of_nil in Hin.
Qed.

Lemma grow_graph_nodes (fuel : nat) (neighbors neighbors' : list (node * list node))
    (component pending component' : list node) :
  (graph_nodes terms sum_vars) neighbors → Forall (node_of_graph terms sum_vars) component → Forall (node_of_graph terms sum_vars) pending →
  grow fuel neighbors component pending = Ok (neighbors', component') →
  (graph_nodes terms sum_vars) neighbors' ∧ Forall (node_of_graph terms sum_vars) component'.
Proof.
  revert neighbors component pending.
  induction fuel as [|fuel IH]; intros neighbors component pending Hn Hc Hp; simpl.
  - destruct (list_pop pending) as [[v p]|]; [done|]. by intros [= <- <-].
  - destruct (list_pop pending) as [[v p]|] eqn:Hpop; [|by intros [= <- <-]].
    apply list_pop_app in Hpop as ->. apply Forall_app in Hp as [Hp _].
    destruct (OD.pop v neighbors) as [[adj n1]|] eqn:Hpopn; [|done].
    apply OD_pop_elem in Hpopn as [Hv Hn1].
    apply Hn in Hv as [_ Hadj].
    assert (Hfold : ∀ (l : list node) c q, Forall (node_of_graph terms sum_vars) l →
              Forall (node_of_graph terms sum_vars) c → Forall (node_of_graph terms sum_vars) q →
              let cq := fold_left (fun '(c, p) u =>
                          if decide (u ∈ c) then (c, p) else (c ++ [u], p ++ [u]))
                          l (c, q) in
              Forall (node_of_graph terms sum_vars) cq.1 ∧ Forall (node_of_graph terms sum_vars) cq.2).
    { induction l as [|u l IHl]; intros c q Hl Hc' Hq; simpl; [done|].
      inversion Hl; subst. case_decide; apply IHl; try done;
        apply Forall_app; split; try done; by repeat constructor. }
    destruct (Hfold adj component p Hadj Hc Hp) as [Hc2 Hp2].
    destruct (fold_left _ adj (component, p)) as [c2 p2]. simpl in Hc2, Hp2.
    apply IH; [|done|done].
    intros k a Hin. apply Hn. by apply Hn1.
Qed.

Lemma oset_add_graph_nodes (pending : list node) (c : list node) :
  Forall (node_of_graph terms sum_vars) pending → Forall (node_of_graph terms sum_vars) c →
  Forall (node_of_graph terms sum_vars) (fold_left oset_add pending c).
Proof.
  revert c. induction pending as [|u l IH]; intros c Hl Hc; simpl; [done|].
  inversion Hl; subst. apply IH; [done|]. unfold oset_add. case_decide; [done|].
  apply Forall_app. split; [done | by repeat constructor].
Qed.

Lemma components_loop_members (fuel : nat) (neighbors : list (node * list node))
    (components result : list (list F * gset string)) :
  (graph_nodes terms sum_vars) neighbors → Forall (component_of_graph terms sum_vars) components →
  components_loop fuel neighbors components = Ok result →
  Forall (component_of_graph terms sum_vars) result.
Proof.
  revert neighbors components.
  induction fuel as [|fuel IH]; intros neighbors components Hn Hcs; cbn [components_loop].
  - destruct (OD.popitem neighbors) as [[[v p] n1]|]; [done|]. by intros [= <-].
  - destruct (OD.popitem neighbors) as [[[v p] n1]|] eqn:Hpop; [|by intros [= <-]].
    apply OD_popitem_app in Hpop as ->.
    assert (Hvp : (node_of_graph terms sum_vars) v ∧ Forall (node_of_graph terms sum_vars) p).
    { apply Hn. apply elem_of_app. right. left. }
    destruct Hvp as [Hv Hp].
    assert (Hn1 : (graph_nodes terms sum_vars) n1).
    { intros k adj Hin. apply Hn. apply elem_of_app. by left. }
    destruct (grow _ n1 _ p) as [[n2 c2]|] eqn:Hgrow; cbn [rbind]; [|done].
    apply grow_graph_nodes in Hgrow as [Hn2 Hc2]; [|done| |done].
    2:{ apply oset_add_graph_nodes; [done | by repeat constructor]. }
    apply IH; [done|].
    destruct (omap is_term c2) as [|t ts] eqn:Hts; [done|].
    apply Forall_app. split; [done|]. constructor; [|constructor].
    split; [done|]. split; simpl.
    + intros t' Ht'. rewrite <- Hts in Ht'.
      apply list_elem_of_omap in Ht' as (u & Hu & Hterm).
      destruct u as [t0 | d0]; [|done]. injection Hterm as ->.
      rewrite Forall_forall in Hc2. by apply (Hc2 (NTerm t')).
    + intros d Hd. apply elem_of_list_to_set in Hd.
      apply list_elem_of_omap in Hd as (u & Hu & Hdim).
      destruct u as [t0 | d0]; [done|]. injection Hdim as ->.
      rewrite Forall_forall in Hc2. by apply (Hc2 (NDim d)).
Qed.

Lemma _partition_members (components : list (list F * gset string)) :
  _partition terms sum_vars = Ok components → Forall (component_of_graph terms sum_vars) components.
Proof.
  unfold _partition. apply components_loop_members; [|constructor].
  apply build_neighbors_graph_nodes.
Qed.
End PartitionMembers.

Section PartitionCount.
Context {F Op R : Type} `{API : FunsorAPI F Op R}.
Import SumProduct.

Lemma nterms_app (l1 l2 : list (@node F)) : nterms (l1 ++ l2) = nterms l1 + nterms l2.
Proof. unfold nterms. by rewrite omap_app, length_app. Qed.

Lemma nterms_nil : nterms (F:=F) [] = 0.
Proof. reflexivity. Qed.

Lemma list_pop_None {A} (l : list A) : list_pop l = None → l = [].
Proof.
  unfold list_pop. destruct (rev l) as [|x r] eqn:Hrev; [|done].
  intros _. apply (f_equal (@rev A)) in Hrev. by rewrite rev_involutive in Hrev.
Qed.

Lemma nterms_pop (v : @node F) (adj : list (@node F)) (d d' : list (@node F * list (@node F))) :
  OD.pop v d = Some (adj, d') →
  nterms (OD.keys d) = nterms (OD.keys d') + nterms [v].
Proof.
  unfold OD.pop. destruct (OD.get v d) as [a|] eqn:Hget; [|done].
  intros [= <- <-]. revert a Hget.
  induction d as [|[k0 a0] d IH]; intros a Hget; simpl in *; [done|].
  destruct (decide (v = k0)) as [-> | Hne].
  - change (k0 :: OD.keys d) with ([k0] ++ OD.keys d). rewrite nterms_app. lia.
  - change (OD.keys ((k0, a0) :: OD.remove v d)) with ([k0] ++ OD.keys (OD.remove v d)).
    change (k0 :: OD.keys d) with ([k0] ++ OD.keys d).
    rewrite !nterms_app. rewrite (IH a Hget). lia.
Qed.

Lemma grow_step_new (adj c p : list (@node F)) :
  ∃ new,
    fold_left (fun '(c, p) u =>
      if decide (u ∈ c) then (c, p) else (c ++ [u], p ++ [u])) adj (c, p)
    = (c ++ new, p ++ new).
Proof.
  revert c p. induction adj as [|u adj IH]; intros c p; simpl.
  - exists []. by rewrite !app_nil_r.
  - case_decide.
    + apply IH.
    + destruct (IH (c ++ [u]) (p ++ [u])) as [new Hnew].
      exists (u :: new). rewrite Hnew. by rewrite <- !app_assoc.
Qed.

Lemma grow_nterms (fuel : nat) (neighbors neighbors' : list (node * list node))
    (component pending component' : list node) :
  grow fuel neighbors component pending = Ok (neighbors', component') →
  nterms (OD.keys neighbors') + nterms component' + nterms pending
    = nterms (OD.keys neighbors) + nterms component.
Proof.
  revert neighbors component pending.
  induction fuel as [|fuel IH]; intros neighbors component pending; simpl.
  - destruct (list_pop pending) as [[v p]|] eqn:Hpop; [done|].
    intros [= <- <-]. apply list_pop_None in Hpop as ->. rewrite nterms_nil. lia.
  - destruct (list_pop pending) as [[v p]|] eqn:Hpop.
    + apply list_pop_app in Hpop as ->.
      destruct (OD.pop v neighbors) as [[adj n1]|] eqn:Hpopn; [|done].
      apply nterms_pop in Hpopn.
      destruct (grow_step_new adj component p) as [new ->].
      intros Hgrow. apply IH in Hgrow. rewrite !nterms_app in Hgrow. rewrite !nterms_app. lia.
    + intros [= <- <-]. apply list_pop_None in Hpop as ->. rewrite nterms_nil. lia.
Qed.

Lemma oset_add_nterms (pending c : list (@node F)) :
  nterms (fold_left oset_add pending c) ≤ nterms c + nterms pending.
Proof.
  revert c. induction pending as [|u l IH]; intros c; simpl.
  - rewrite nterms_nil. lia.
  - etrans; [apply IH|]. unfold oset_add.
    change (u :: l) with ([u] ++ l). rewrite (nterms_app [u] l).
    case_decide; [lia|]. rewrite nterms_app. lia.
Qed.

Lemma components_loop_count (fuel : nat) (neighbors : list (node * list node))
    (components result : list (list F * gset string)) :
  components_loop fuel neighbors components = Ok result →
  length result ≤ length components + nterms (OD.keys neighbors).
Proof.
  revert neighbors components.
  induction fuel as [|fuel IH]; intros neighbors components; cbn [components_loop].
  - destruct (OD.popitem neighbors) as [[[v p] n1]|]; [done|]. intros [= <-]. lia.
  - destruct (OD.popitem neighbors) as [[[v p] n1]|] eqn:Hpop; [|intros [= <-]; lia].
    apply OD_popitem_app in Hpop as ->.
    destruct (grow _ n1 _ p) as [[n2 c2]|] eqn:Hgrow; cbn [rbind]; [|done].
    apply grow_nterms in Hgrow.
    pose proof (oset_add_nterms p [v]) as Hadd.
    intros Hloop. apply IH in Hloop.
    unfold OD.keys in *. rewrite map_app. cbn [map fst].
    rewrite nterms_app.
    assert (Hc2 : omap is_term c2 = [] → nterms c2 = 0).
    { unfold nterms. by intros ->. }
    destruct (omap is_term c2) as [|t ts] eqn:Hts.
    + lia.
    + assert (1 ≤ nterms c2) by (unfold nterms; rewrite Hts; simpl; lia).
      rewrite length_app in Hloop. simpl in Hloop. lia.
Qed.

Lemma NoDup_omap_is_term (l : list (@node F)) : NoDup l → NoDup (omap is_term l).
Proof.
  induction 1 as [|x l Hx Hl IH]; simpl; [constructor|].
  destruct x as [t | d]; simpl; [|done].
  constructor; [|done]. intros Hin. apply Hx.
  apply list_elem_of_omap in Hin as (u & Hu & Hterm).
  destruct u as [t0 | d0]; [|done]. by injection Hterm as ->.
Qed.

Lemma build_neighbors_NoDup (terms : list F) (sum_vars : gset string) :
  NoDup (OD.keys (build_neighbors terms sum_vars)).
Proof.
  unfold build_neighbors.
  assert (Hinit : ∀ (l : list F) (acc : list (@node F * list (@node F))),
            NoDup (OD.keys acc) →
            NoDup (OD.keys (fold_left (fun acc t => OD.set (NTerm t) [] acc) l acc))).
  { induction l as [|t l IH]; intros acc Hacc; simpl; [done|].
    apply IH. by apply OD_keys_set_NoDup. }
  assert (Hmain : ∀ (l : list F) acc, NoDup (OD.keys acc) →
            NoDup (OD.keys (fold_left (fun acc term =>
              fold_left (fun acc dim =>
                if decide (dim ∈ sum_vars)
                then append_to (NDim dim) (NTerm term)
                       (append_to (NTerm term) (NDim dim) acc)
                else acc) (inputs term) acc) l acc))).
  { induction l as [|t l IH]; intros acc Hacc; simpl; [done|].
    apply IH. generalize (inputs t). intros ds. revert acc Hacc.
    induction ds as [|d ds IHd]; intros acc Hacc; simpl; [done|].
    apply IHd. case_decide; [|done]. unfold append_to.
    by do 2 apply OD_keys_set_NoDup. }
  apply Hmain, Hinit. constructor.
Qed.

Lemma build_neighbors_nterms (terms : list F) (sum_vars : gset string) :
  nterms (OD.keys (build_neighbors terms sum_vars)) ≤ length terms.
Proof.
  unfold nterms. apply submseteq_length. apply NoDup_submseteq.
  - apply NoDup_omap_is_term, build_neighbors_NoDup.
  - intros t Ht. apply list_elem_of_omap in Ht as (u & Hu & Hterm).
    destruct u as [t0 | d0]; [|done]. injection Hterm as ->.
    apply list_elem_of_fmap in Hu as ([k adj] & Hk & Hin). simpl in Hk. subst k.
    by apply (build_neighbors_graph_nodes terms sum_vars) in Hin as [Hin _].
Qed.

Lemma _partition_count (terms : list F) (sum_vars : gset string)
    (components : list (list F * gset string)) :
  _partition terms sum_vars = Ok components → length components ≤ length terms.
Proof.
  unfold _partition. intros Hloop. apply components_loop_count in Hloop.
  pose proof (build_neighbors_nterms terms sum_vars). simpl in Hloop. lia.
Qed.
End PartitionCount.

Section DictUnique.
Context {K V : Type} `{EqDecision K}.

Lemma OD_elem_get (k : K) (v : V) (d : list (K * V)) :
  NoDup (OD.keys d) → (k, v) ∈ d → OD.get k d = Some v.
Proof.
  unfold OD.keys. induction d as [|[k0 v0] d IH]; simpl; [by intros _ ?%elem_of_nil|].
  intros [Hk0 Hnd]%NoDup_cons [[= -> ->] | Hin]%elem_of_cons.
  - by rewrite decide_True.
  - rewrite decide_False; [by apply IH|]. intros ->. apply Hk0.
    apply list_elem_of_fmap. by exists (k0, v).
Qed.

Lemma OD_elem_keys (k : K) (v : V) (d : list (K * V)) : (k, v) ∈ d → k ∈ OD.keys d.
Proof. intros Hin. apply list_elem_of_fmap. by exists (k, v). Qed.

Lemma OD_remove_not_key (k : K) (d : list (K * V)) :
  NoDup (OD.keys d) → k ∉ OD.keys (OD.remove k d).
Proof.
  unfold OD.keys. induction d as [|[k0 v0] d IH]; simpl; [intros _; apply not_elem_of_nil|].
  intros [Hk0 Hnd]%NoDup_cons. destruct (decide (k = k0)) as [-> | Hne]; [done|].
  simpl. intros [? | Hin]%elem_of_cons; [done|]. by apply IH.
Qed.

Lemma OD_remove_keys_elem (k k' : K) (d : list (K * V)) :
  k' ∈ OD.keys d → k' = k ∨ k' ∈ OD.keys (OD.remove k d).
Proof.
  unfold OD.keys. induction d as [|[k0 v0] d IH]; simpl; [by intros ?%elem_of_nil|].
  destruct (decide (k = k0)) as [-> | Hne].
  - intros [-> | Hin]%elem_of_cons; [by left | by right].
  - simpl. intros [-> | Hin]%elem_of_cons; [right; left|].
    destruct (IH Hin) as [-> | Hr]; [by left | right; by right].
Qed.

Lemma OD_pop_keys (k : K) (v : V) (d d' : list (K * V)) :
  NoDup (OD.keys d) → OD.pop k d = Some (v, d') →
  NoDup (OD.keys d') ∧ (k ∉ OD.keys d')
  ∧ (∀ k', k' ∈ OD.keys d → k' = k ∨ k' ∈ OD.keys d')
  ∧ (∀ k', k' ∈ OD.keys d' → k' ∈ OD.keys d).
Proof.
  intros Hnd. unfold OD.pop. destruct (OD.get k d) as [v'|]; [|done].
  intros [= <- <-]. split; [|split; [|split]].
  - eapply sublist_NoDup; [exact Hnd | apply OD_remove_keys_sublist].
  - by apply OD_remove_not_key.
  - intros k'. apply OD_remove_keys_elem.
  - intros k' Hk'. eapply elem_of_sublist; [exact Hk' | apply OD_remove_keys_sublist].
Qed.
End DictUnique.

Section GraphFacts.
Context {F Op R : Type} `{API : FunsorAPI F Op R}.
Import SumProduct.

Lemma OD_get_append_to (g : list (@node F * list (@node F))) (k k' x : @node F) :
  OD.get k (append_to k' x g)
    = if decide (k = k') then Some (default [] (OD.get k' g) ++ [x]) else OD.get k g.
Proof. unfold append_to. by rewrite OD_get_set. Qed.

Lemma has_edge_append_to (g : list (@node F * list (@node F))) (k k' x u : @node F) :
  has_edge (append_to k' x g) k u ↔ has_edge g k u ∨ (k = k' ∧ u = x).
Proof.
  unfold has_edge. rewrite OD_get_append_to. destruct (decide (k = k')) as [-> | Hne].
  - split.
    + intros (adj & [= <-] & Hu). apply elem_of_app in Hu as [Hu | ->%list_elem_of_singleton].
      * left. destruct (OD.get k' g) as [old|]; simpl in Hu; [by exists old|].
        by apply elem_of_nil in Hu.
      * by right.
    + intros [(adj & Hget & Hu) | [_ ->]]; eexists; (split; [done|]).
      * rewrite Hget. simpl. apply elem_of_app. by left.
      * apply elem_of_app. right. left.
  - split; [by left|]. intros [? | [? _]]; done.
Qed.

Lemma is_Some_get_append_to (g : list (@node F * list (@node F))) (k k' x : @node F) :
  is_Some (OD.get k g) → is_Some (OD.get k (append_to k' x g)).
Proof. rewrite OD_get_append_to. case_decide; [by eexists | done]. Qed.

Variables (terms : list F) (sum_vars : gset string).

Lemma build_neighbors_edges (k u : @node F) :
  has_edge (build_neighbors terms sum_vars) k u ↔ edge_of_graph terms sum_vars k u.
Proof.
  unfold build_neighbors.
  set (step_dim := fun (term : F) (acc : list (@node F * list (@node F))) (dim : string) =>
         if decide (dim ∈ sum_vars)
         then append_to (NDim dim) (NTerm term) (append_to (NTerm term) (NDim dim) acc)
         else acc).
  set (pair_edge := fun (t : F) (d : string) (k u : @node F) =>
         d ∈ sum_vars ∧ ((k = NTerm t ∧ u = NDim d) ∨ (k = NDim d ∧ u = NTerm t))).
  assert (Hinit : ∀ (l : list F) (acc : list (@node F * list (@node F))),
            (∀ k u, ¬ has_edge acc k u) →
            ∀ k u, ¬ has_edge (fold_left (fun acc t => OD.set (NTerm t) [] acc) l acc) k u).
  { induction l as [|t l IH]; intros acc Hacc; simpl; [done|].
    apply IH. intros k' u' (adj & Hget & Hu). rewrite OD_get_set in Hget.
    case_decide; [injection Hget as <-; by apply elem_of_nil in Hu|].
    apply (Hacc k' u'). by exists adj. }
  assert (Hdims : ∀ (t : F) (ds : list string) (acc : list (@node F * list (@node F)))
            (k u : @node F),
            has_edge (fold_left (step_dim t) ds acc) k u
            ↔ has_edge acc k u ∨ ∃ d, d ∈ ds ∧ pair_edge t d k u).
  { intros t. induction ds as [|d ds IH]; intros acc k' u'; simpl.
    - split; [by left|]. intros [? | (d & ?%elem_of_nil & _)]; done.
    - rewrite IH. unfold step_dim at 1. case_decide as Hd.
      + rewrite !has_edge_append_to. unfold pair_edge. split.
        * intros [[[He | [-> ->]] | [-> ->]] | (d' & Hd' & Hp)].
          -- by left.
          -- right. exists d. split; [left|]. split; [done|]. by left.
          -- right. exists d. split; [left|]. split; [done|]. by right.
          -- right. exists d'. split; [by right | done].
        * intros [He | (d' & [-> | Hd']%elem_of_cons & Hp)].
          -- left. left. by left.
          -- destruct Hp as [_ [[-> ->] | [-> ->]]]; left; [left; by right | by right].
          -- right. by exists d'.
      + split.
        * intros [He | (d' & Hd' & Hp)]; [by left|]. right. exists d'. split; [by right|done].
        * intros [He | (d' & [-> | Hd']%elem_of_cons & Hp)]; [by left | |].
          -- by destruct Hp as [? _].
          -- right. by exists d'. }
  assert (Hmain : ∀ (l : list F) (acc : list (@node F * list (@node F))) (k u : @node F),
            has_edge (fold_left (fun acc term => fold_left (step_dim term) (inputs term) acc)
                        l acc) k u
            ↔ has_edge acc k u ∨ ∃ t d, t ∈ l ∧ d ∈ inputs t ∧ pair_edge t d k u).
  { induction l as [|t l IH]; intros acc k' u'; simpl.
    - split; [by left|]. intros [? | (t & d & ?%elem_of_nil & _)]; done.
    - rewrite IH, Hdims. split.
      + intros [[He | (d & Hd & Hp)] | (t' & d & Ht' & Hd & Hp)].
        * by left.
        * right. exists t, d. split; [left | done].
        * right. exists t', d. split; [by right | done].
      + intros [He | (t' & d & [-> | Ht']%elem_of_cons & Hd & Hp)].
        * left. by left.
        * left. right. by exists d.
        * right. by exists t', d. }
  change (has_edge
            (fold_left (fun acc term => fold_left (step_dim term) (inputs term) acc) terms
               (fold_left (fun acc t => OD.set (NTerm t) [] acc) terms [])) k u
          ↔ edge_of_graph terms sum_vars k u).
  rewrite Hmain. split.
  - intros [He | (t & d & Ht & Hd & Hsv & [[-> ->] | [-> ->]])].
    + exfalso. revert He. apply Hinit. intros k' u' (adj & Hget & _). done.
    + done.
    + done.
  - intros He. right. destruct k as [t | d], u as [t' | d']; try done.
    + destruct He as (Ht & Hsv & Hd). exists t, d'. repeat split; try done. by left.
    + destruct He as (Ht & Hsv & Hd). exists t', d. repeat split; try done. by right.
Qed.

Lemma build_neighbors_term_keys (t : F) :
  t ∈ terms → is_Some (OD.get (NTerm t) (build_neighbors terms sum_vars)).
Proof.
  intros Ht. unfold build_neighbors.
  assert (Hinit : ∀ (l : list F) (acc : list (@node F * list (@node F))),
            t ∈ l ∨ is_Some (OD.get (NTerm t) acc) →
            is_Some (OD.get (NTerm t)
                       (fold_left (fun acc t => OD.set (NTerm t) [] acc) l acc))).
  { induction l as [|t0 l IH]; intros acc Hacc; simpl.
    - destruct Hacc as [?%elem_of_nil | ?]; done.
    - apply IH. destruct (decide (t = t0)) as [-> | Hne].
      + right. rewrite OD_get_set, decide_True by done. by eexists.
      + destruct Hacc as [[-> | Hin]%elem_of_cons | Hs]; [done | by left |].
        right. rewrite OD_get_set. case_decide; [by eexists | done]. }
  assert (Hmain : ∀ (l : list F) (acc : list (@node F * list (@node F))),
            is_Some (OD.get (NTerm t) acc) →
            is_Some (OD.get (NTerm t) (fold_left (fun acc term =>
              fold_left (fun acc dim =>
                if decide (dim ∈ sum_vars)
                then append_to (NDim dim) (NTerm term)
                       (append_to (NTerm term) (NDim dim) acc)
                else acc) (inputs term) acc) l acc))).
  { induction l as [|t0 l IH]; intros acc Hacc; simpl; [done|].
    apply IH. generalize (inputs t0). intros ds. revert acc Hacc.
    induction ds as [|d ds IHd]; intros acc Hacc; simpl; [done|].
    apply IHd. case_decide; [|done]. by do 2 apply is_Some_get_append_to. }
  apply Hmain, Hinit. by left.
Qed.
End GraphFacts.



Section GrowFacts.
Context {F Op R : Type} `{API : FunsorAPI F Op R}.
Import SumProduct.

Lemma build_neighbors_dim_adj (terms : list F) (sum_vars : gset string) (d : string)
    (adj : list (@node F)) :
  OD.get (NDim d) (build_neighbors terms sum_vars) = Some adj → adj ≠ [].
Proof.
  unfold build_neighbors.
  assert (Hinit : ∀ (l : list F) (acc : list (@node F * list (@node F))),
            OD.get (NDim d) (fold_left (fun acc t => OD.set (NTerm t) [] acc) l acc)
            = OD.get (NDim d) acc).
  { induction l as [|t l IH]; intros acc; simpl; [done|].
    rewrite IH, OD_get_set. by rewrite decide_False. }
  assert (Hmain : ∀ (l : list F) (acc : list (@node F * list (@node F))),
            (∀ adj, OD.get (NDim d) acc = Some adj → adj ≠ []) →
            ∀ adj, OD.get (NDim d) (fold_left (fun acc term =>
              fold_left (fun acc dim =>
                if decide (dim ∈ sum_vars)
                then append_to (NDim dim) (NTerm term)
                       (append_to (NTerm term) (NDim dim) acc)
                else acc) (inputs term) acc) l acc) = Some adj → adj ≠ []).
  { induction l as [|t l IH]; intros acc Hacc; simpl; [done|].
    apply IH. generalize (inputs t). intros ds. revert acc Hacc.
    induction ds as [|d0 ds IHd]; intros acc Hacc; simpl; [done|].
    apply IHd. case_decide; [|done]. intros a. rewrite !OD_get_append_to.
    case_decide; [intros [= <-]; by destruct (default [] _)|].
    rewrite decide_False by done. apply Hacc. }
  apply Hmain. intros a. rewrite Hinit. done.
Qed.

Lemma grow_step_spec (adj c p : list (@node F)) :
  ∃ new,
    fold_left (fun '(c, p) u =>
      if decide (u ∈ c) then (c, p) else (c ++ [u], p ++ [u])) adj (c, p)
    = (c ++ new, p ++ new)
    ∧ (∀ w, w ∈ adj → w ∈ c ++ new)
    ∧ (NoDup c → NoDup (c ++ new)).
Proof.
  revert c p. induction adj as [|u adj IH]; intros c p; simpl.
  - exists []. rewrite !app_nil_r. split; [done|]. split; [by intros w ?%elem_of_nil | done].
  - case_decide as Hu.
    + destruct (IH c p) as (new & Hnew & Hadj & Hnd). exists new.
      split; [done|]. split; [|done].
      intros w [-> | Hw]%elem_of_cons; [apply elem_of_app; by left | by apply Hadj].
    + destruct (IH (c ++ [u]) (p ++ [u])) as (new & Hnew & Hadj & Hnd).
      exists (u :: new). rewrite Hnew. rewrite <- !app_assoc. split; [done|]. split.
      * intros w [-> | Hw]%elem_of_cons.
        -- apply elem_of_app. right. left.
        -- apply Hadj in Hw. by rewrite <- app_assoc in Hw.
      * intros Hc. rewrite <- app_assoc in Hnd. apply Hnd.
        apply NoDup_app. split; [done|]. split; [|apply NoDup_singleton].
        intros x Hx ->%list_elem_of_singleton. done.
Qed.

Lemma grow_inv_step (start N N1 : list (@node F * list (@node F)))
    (c q adj new : list (@node F)) (v : @node F) :
  grow_inv start N c (q ++ [v]) → OD.pop v N = Some (adj, N1) →
  (∀ w, w ∈ adj → w ∈ c ++ new) → (NoDup c → NoDup (c ++ new)) →
  grow_inv start N1 (c ++ new) (q ++ new).
Proof.
  intros (Hsub & Hnd & Hcover & Hpend & Hnodes & Hc) Hpopn Hadj Hndc.
  destruct (OD_pop_keys _ _ _ _ Hnd Hpopn) as (Hnd1 & Hv1 & Hkeys & Hkeys1).
  apply OD_pop_elem in Hpopn as [Hvadj Hsub1].
  split; [|split; [|split; [|split; [|split]]]].
  - intros kv Hkv. by apply Hsub, Hsub1.
  - done.
  - intros k Hk. apply Hcover in Hk as [Hk | Hk].
    + apply Hkeys in Hk as [-> | Hk]; [|by left].
      right. apply elem_of_app. left. apply Hpend. apply elem_of_app. right. left.
    + right. apply elem_of_app. by left.
  - intros u [Hu | Hu]%elem_of_app; apply elem_of_app; [left | by right].
    apply Hpend. apply elem_of_app. by left.
  - intros u [Hu | Hu]%elem_of_app.
    + apply Hnodes in Hu as [[Hu | ->%list_elem_of_singleton]%elem_of_app | (Hk & a & Ha & Hw)].
      * left. apply elem_of_app. by left.
      * right. split; [done|]. exists adj. split; [by apply Hsub | done].
      * right. split; [intros Hk1; by apply Hk, Hkeys1|].
        exists a. split; [done|]. intros w Hw'. apply elem_of_app. left. by apply Hw.
    + left. apply elem_of_app. by right.
  - by apply Hndc.
Qed.

Lemma grow_inv_result (start : list (@node F * list (@node F))) (fuel : nat)
    (N N' : list (@node F * list (@node F))) (c p C : list (@node F)) :
  grow fuel N c p = Ok (N', C) → grow_inv start N c p → grow_inv start N' C [].
Proof.
  revert N c p. induction fuel as [|fuel IH]; intros N c p; simpl.
  - destruct (list_pop p) as [[v q]|] eqn:Hpop; [done|].
    intros [= <- <-]. by apply list_pop_None in Hpop as ->.
  - destruct (list_pop p) as [[v q]|] eqn:Hpop.
    2:{ intros [= <- <-]. by apply list_pop_None in Hpop as ->. }
    apply list_pop_app in Hpop as ->.
    destruct (OD.pop v N) as [[adj N1]|] eqn:Hpopn; [|done].
    intros Hgrow Hinv.
    destruct (grow_step_spec adj c q) as (new & Hfold & Hadj & Hndc).
    rewrite Hfold in Hgrow. apply IH in Hgrow; [done|].
    by eapply grow_inv_step.
Qed.

Lemma oset_add_fold_spec (l c : list (@node F)) :
  (∀ w, w ∈ fold_left oset_add l c ↔ w ∈ c ∨ w ∈ l)
  ∧ (NoDup c → NoDup (fold_left oset_add l c)).
Proof.
  revert c. induction l as [|u l IH]; intros c; simpl.
  - split; [|done]. intros w. split; [by left | by intros [? | ?%elem_of_nil]].
  - destruct (IH (oset_add c u)) as [Hin Hnd]. split.
    + intros w. rewrite Hin. unfold oset_add. case_decide as Hu.
      * rewrite elem_of_cons. split; [tauto|]. intros [? | [-> | ?]]; tauto.
      * rewrite elem_of_app, list_elem_of_singleton, elem_of_cons. tauto.
    + intros Hc. apply Hnd. unfold oset_add. case_decide; [done|].
      apply NoDup_app. split; [done|]. split; [|apply NoDup_singleton].
      intros x Hx ->%list_elem_of_singleton. done.
Qed.
End GrowFacts.



Section PartitionFacts.
Context {F Op R : Type} `{API : FunsorAPI F Op R}.
Import SumProduct.
Variables (terms : list F) (sum_vars : gset string).

Lemma separated_snoc (comps : list (list F * gset string)) (new : list F * gset string) :
  separated comps →
  (∀ c, c ∈ comps → (∀ t, t ∈ c.1 → t ∉ new.1) ∧ c.2 ## new.2) →
  separated (comps ++ [new]).
Proof.
  intros Hsep Hnew i j c c' Hi Hj Hij.
  apply lookup_app_Some in Hi as [Hi | [Hlen Hi]];
    apply lookup_app_Some in Hj as [Hj | [Hlen' Hj]].
  - by apply (Hsep i j).
  - apply list_lookup_singleton_Some in Hj as [_ <-].
    apply Hnew. by eapply list_elem_of_lookup_2.
  - apply list_lookup_singleton_Some in Hi as [_ <-].
    destruct (Hnew c') as [Ht Hd]; [by eapply list_elem_of_lookup_2|].
    split; [|done]. intros t Ht1 Ht2. by apply (Ht t).
  - apply list_lookup_singleton_Some in Hi as [Hi _].
    apply list_lookup_singleton_Some in Hj as [Hj _]. lia.
Qed.

Lemma components_loop_inv (fuel : nat) (N : list (@node F * list (@node F)))
    (comps result : list (list F * gset string)) :
  components_loop fuel N comps = Ok result →
  partition_inv terms sum_vars N comps → partition_inv terms sum_vars [] result.
Proof.
  revert N comps. induction fuel as [|fuel IH]; intros N comps; cbn [components_loop].
  - destruct (OD.popitem N) as [[[v0 p0] N1]|] eqn:Hpop; [done|].
    intros [= <-]. unfold OD.popitem in Hpop. destruct (rev N) as [|x r] eqn:Hrev; [|done].
    apply (f_equal (@rev _)) in Hrev. rewrite rev_involutive in Hrev. by subst N.
  - destruct (OD.popitem N) as [[[v0 p0] N1]|] eqn:Hpop.
    2:{ intros [= <-]. unfold OD.popitem in Hpop.
        destruct (rev N) as [|x r] eqn:Hrev; [|done].
        apply (f_equal (@rev _)) in Hrev. rewrite rev_involutive in Hrev. by subst N. }
    apply OD_popitem_app in Hpop as ->.
    destruct (grow _ N1 _ p0) as [[N2 C]|] eqn:Hgrow; cbn [rbind]; [|done].
    intros Hloop (Hsub & Hnd & Hcover & Hcomps & Hgone & Hsep).
    apply IH in Hloop; [done|]. clear IH Hloop.
    set (N := N1 ++ [(v0, p0)]) in *.
    assert (HkeysN : OD.keys N = OD.keys N1 ++ [v0]).
    { unfold OD.keys, N. by rewrite map_app. }
    rewrite HkeysN in Hnd. apply NoDup_app in Hnd as (Hnd1 & Hv0 & _).
    destruct (oset_add_fold_spec p0 [v0]) as [Hc0 Hndc0].
    apply (grow_inv_result N) in Hgrow.
    2:{ split; [|split; [|split; [|split; [|split]]]].
        - intros kv Hkv. apply elem_of_app. by left.
        - done.
        - intros k. rewrite HkeysN, elem_of_app, list_elem_of_singleton.
          intros [Hk | ->]; [by left|]. right. apply Hc0. left. left.
        - intros u Hu. apply Hc0. by right.
        - intros u [->%list_elem_of_singleton | Hu]%Hc0; [|by left].
          right. split; [intros Hk; apply (Hv0 v0 Hk); left|].
          exists p0. split; [apply elem_of_app; right; left|].
          intros w Hw. apply Hc0. by right.
        - apply Hndc0, NoDup_singleton. }
    destruct Hgrow as (Hsub2 & Hnd2 & Hcover2 & _ & Hnodes & HndC).
    assert (HC : ∀ u, u ∈ C →
              (u ∉ OD.keys N2) ∧ u ∈ OD.keys N
              ∧ ∃ adj, OD.get u (build_neighbors terms sum_vars) = Some adj
                       ∧ ∀ w, w ∈ adj → w ∈ C).
    { intros u Hu. destruct (Hnodes u Hu) as [?%elem_of_nil | (Hk & adj & Hadj & Hw)]; [done|].
      split; [done|]. split; [by eapply OD_elem_keys|].
      exists adj. split; [|done]. apply OD_elem_get; [apply build_neighbors_NoDup|].
      by apply Hsub. }
    assert (Hkeys2 : ∀ k, k ∈ OD.keys N2 → k ∈ OD.keys N).
    { intros k ([k' a] & -> & Hin)%list_elem_of_fmap. simpl.
      eapply OD_elem_keys. by apply Hsub2. }
    assert (Hold : ∀ c, c ∈ comps →
              (∀ t, t ∈ c.1 → NTerm t ∉ OD.keys N2) ∧ (∀ d, d ∈ c.2 → NDim d ∉ OD.keys N2)).
    { intros c Hc. destruct (Hgone c Hc) as [Ht Hd]. split.
      - intros t Htc Hk. by apply (Ht t Htc), Hkeys2.
      - intros d Hdc Hk. by apply (Hd d Hdc), Hkeys2. }
    assert (Hterm : ∀ t, t ∈ omap is_term C ↔ NTerm t ∈ C).
    { intros t. rewrite list_elem_of_omap. split.
      - intros ([t0 | d0] & Hu & Hterm); [|done]. by injection Hterm as ->.
      - intros Hu. by exists (NTerm t). }
    assert (Hdim : ∀ d, d ∈ (list_to_set (omap is_dim C) : gset string) ↔ NDim d ∈ C).
    { intros d. rewrite elem_of_list_to_set, list_elem_of_omap. split.
      - intros ([t0 | d0] & Hu & Hd); [done|]. by injection Hd as ->.
      - intros Hu. by exists (NDim d). }
    destruct (decide (omap is_term C = [])) as [Hts | Hts].
    + rewrite Hts in Hterm |- *.
      split; [|split; [|split; [|split; [|split]]]]; try done.
      * intros kv Hkv. by apply Hsub, Hsub2.
      * intros t Ht. destruct (Hcover t Ht) as [Hk | Hc]; [|by right].
        apply Hcover2 in Hk as [Hk | Hk]; [by left|].
        apply Hterm in Hk. by apply elem_of_nil in Hk.
    + replace (match omap is_term C with
               | [] => comps
               | _ :: _ => comps ++ [(omap is_term C, list_to_set (omap is_dim C))]
               end)
        with (comps ++ [(omap is_term C, (list_to_set (omap is_dim C) : gset string))])
        by (by destruct (omap is_term C)).
      split; [|split; [|split; [|split; [|split]]]].
      * intros kv Hkv. by apply Hsub, Hsub2.
      * done.
      * intros t Ht. destruct (Hcover t Ht) as [Hk | (c & Hc & Htc)].
        -- apply Hcover2 in Hk as [Hk | Hk]; [by left|]. right.
           eexists. split; [apply elem_of_app; right; left|]. simpl. by apply Hterm.
        -- right. exists c. split; [apply elem_of_app; by left | done].
      * apply Forall_app. split; [done|]. apply Forall_singleton.
        split; [|split; [|split]]; simpl.
        -- done.
        -- by apply NoDup_omap_is_term.
        -- intros t Ht. apply Hterm in Ht. destruct (HC _ Ht) as (_ & Hk & _).
           apply list_elem_of_fmap in Hk as ([k a] & Hk & Hin). simpl in Hk. subst k.
           apply Hsub in Hin.
           by apply (build_neighbors_graph_nodes terms sum_vars) in Hin as [Hin _].
        -- intros d. rewrite Hdim. split.
           ++ intros Hd. destruct (HC _ Hd) as (_ & _ & adj & Hadj & Hw).
              pose proof (build_neighbors_dim_adj _ _ _ _ Hadj) as Hne.
              destruct adj as [|u adj]; [done|].
              assert (He : has_edge (build_neighbors terms sum_vars) (NDim d) u).
              { exists (u :: adj). split; [done | left]. }
              apply build_neighbors_edges in He.
              destruct u as [t | d']; [|done]. destruct He as (Ht & Hsv & Hin).
              split; [done|]. exists t. split; [|done].
              apply Hterm. apply Hw. left.
           ++ intros (Hsv & t & Ht & Hin). apply Hterm in Ht.
              destruct (HC _ Ht) as (_ & Hk & adj & Hadj & Hw).
              assert (Htt : t ∈ terms).
              { apply list_elem_of_fmap in Hk as ([k a] & Hk & Hin'). simpl in Hk. subst k.
                apply Hsub in Hin'.
                by apply (build_neighbors_graph_nodes terms sum_vars) in Hin' as [Hin' _]. }
              assert (He : has_edge (build_neighbors terms sum_vars) (NTerm t) (NDim d)).
              { apply build_neighbors_edges. done. }
              destruct He as (adj' & Hadj' & Hd). rewrite Hadj in Hadj'.
              injection Hadj' as <-. by apply Hw.
      * intros c [Hc | ->%list_elem_of_singleton]%elem_of_app; [by apply Hold|].
        simpl. split.
        -- intros t Ht. apply Hterm in Ht. by destruct (HC _ Ht) as (Hk & _).
        -- intros d Hd. apply Hdim in Hd. by destruct (HC _ Hd) as (Hk & _).
      * apply separated_snoc; [done|]. intros c Hc. destruct (Hgone c Hc) as [Ht Hd].
        simpl. split.
        -- intros t Htc Htn. apply Hterm in Htn. destruct (HC _ Htn) as (_ & Hk & _).
           by apply (Ht t Htc).
        -- intros d Hdc Hdn. apply Hdim in Hdn. destruct (HC _ Hdn) as (_ & Hk & _).
           by apply (Hd d Hdc).
Qed.

(** X1: when [_partition terms sum_vars] returns, its components split the
    terms: every term is in a component; a component holds at least one
    term, each once and each from [terms], and its dims are exactly the
    variables of [sum_vars] among the inputs of its terms; two components
    have no term and no variable in common, so that terms which share a
    variable to sum are in the same component. *)
Theorem partition_components (comps : list (list F * gset string)) :
  _partition terms sum_vars = Ok comps →
  (∀ t, t ∈ terms → ∃ c, c ∈ comps ∧ t ∈ c.1)
  ∧ (∀ c, c ∈ comps →
       c.1 ≠ [] ∧ NoDup c.1 ∧ (∀ t, t ∈ c.1 → t ∈ terms)
       ∧ ∀ d, d ∈ c.2 ↔ d ∈ sum_vars ∧ ∃ t, t ∈ c.1 ∧ d ∈ inputs t)
  ∧ (∀ i j c c', comps !! i = Some c → comps !! j = Some c' → i ≠ j →
       (∀ t, t ∈ c.1 → t ∉ c'.1) ∧ c.2 ## c'.2).
Proof.
  unfold _partition. intros Hloop.
  apply components_loop_inv in Hloop.
  - destruct Hloop as (_ & _ & Hcover & Hcomps & _ & Hsep).
    split; [|split; [|exact Hsep]].
    + intros t Ht. destruct (Hcover t Ht) as [?%elem_of_nil | Hc]; done.
    + intros c Hc. rewrite Forall_forall in Hcomps. by apply Hcomps.
  - split; [done|]. split; [apply build_neighbors_NoDup|].
    split; [|split; [constructor|split]].
    + intros t Ht. left. destruct (build_neighbors_term_keys terms sum_vars t Ht) as [adj Hadj].
      by eapply OD_get_Some_keys.
    + by intros c ?%elem_of_nil.
    + by intros i j c c' ?.
Qed.
End PartitionFacts.



Section BucketFacts.
Context {F Op R : Type} `{API : FunsorAPI F Op R}.
Import SumProduct.
Variables (plates svars : gset string) (vto : gmap string (gset string)).

Lemma append_to_otf_ok (L : gset string) (f : F) (otf : list (gset string * list F)) :
  bucket_ok plates svars vto L f → otf_ok plates svars vto otf →
  otf_ok plates svars vto (append_to L f otf).
Proof.
  intros Hf Hotf L' fs Hin. unfold append_to in Hin.
  apply OD_set_elem in Hin as [[= -> ->] | Hin]; [|by apply Hotf].
  apply Forall_app. split; [|by apply Forall_singleton].
  destruct (OD.get L otf) as [old|] eqn:Hget; simpl; [|apply Forall_nil_2].
  apply OD_get_elem in Hget. by apply Hotf.
Qed.
End BucketFacts.

Section EngineLaws.
Context {F Op R : Type} `{API : FunsorAPI F Op R}.
Import SumProduct.

Hypothesis apply_op_inputs : ∀ o f g r,
  apply_op o f g = Ok r → input_set r ⊆ input_set f ∪ input_set g.
Hypothesis reduce_inputs : ∀ f o vars r,
  reduce f o vars = Ok r → input_set r ⊆ input_set f ∖ vars.

Variables (sum_op prod_op : Op) (eliminate plates : gset string).
Variable vto : gmap string (gset string).
Variable otv : gmap (gset string) (gset string).

Local Notation "'sv'" := (sum_vars eliminate plates).
Local Notation "'ok'" := (bucket_ok plates (sum_vars eliminate plates) vto).

Lemma bucket_ok_subseteq (L : gset string) (f g : F) :
  input_set g ⊆ input_set f → ok L f → ok L g.
Proof.
  intros Hsub [Hp Hv]. split.
  { intros x [Hx1 Hx2]%elem_of_intersection. apply Hp.
    apply elem_of_intersection. split; [done | by apply Hsub]. }
  intros v Hsv Hin. apply Hv; [done|]. by apply Hsub.
Qed.

Lemma bucket_ok_apply_op (L : gset string) (o : Op) (f g r : F) :
  ok L f → ok L g → apply_op o f g = Ok r → ok L r.
Proof.
  intros [Hpf Hvf] [Hpg Hvg] Hop. apply apply_op_inputs in Hop. split.
  - intros x [Hx1 Hx2]%elem_of_intersection. apply Hop in Hx2.
    apply elem_of_union in Hx2 as [Hx2 | Hx2]; [apply Hpf | apply Hpg];
      by apply elem_of_intersection.
  - intros v Hsv Hin. apply Hop in Hin. apply elem_of_union in Hin as [Hin | Hin]; auto.
Qed.

Lemma foldM_bucket_ok (L : gset string) (o : Op) (l : list F) (acc p : F) :
  ok L acc → Forall (ok L) l → foldM (apply_op o) l acc = Ok p → ok L p.
Proof.
  revert acc. induction l as [|x l IH]; intros acc Hacc Hl; simpl.
  - by intros [= <-].
  - inversion Hl; subst. intros (a & Ha & Hrest)%rbind_Ok.
    apply (IH a); [|done|done]. by apply (bucket_ok_apply_op L o acc x a).
Qed.

Lemma py_reduce_bucket_ok (L : gset string) (o : Op) (l : list F) (p : F) :
  Forall (ok L) l → py_reduce (apply_op o) l = Ok p → ok L p.
Proof.
  destruct l as [|x l]; simpl; [done|].
  intros Hl. inversion Hl; subst. by apply foldM_bucket_ok.
Qed.

Lemma recompute_ordinal_spec (remaining new_plates : gset string) :
  recompute_ordinal vto remaining = Ok new_plates →
  (∀ v, v ∈ remaining → ∃ o, vto !! v = Some o ∧ o ⊆ new_plates)
  ∧ ∀ x, x ∈ new_plates → ∃ v o, v ∈ remaining ∧ vto !! v = Some o ∧ x ∈ o.
Proof.
  unfold recompute_ordinal.
  assert (Hgen : ∀ (l : list string) (acc : gset string),
    foldM (fun acc v => let* o := of_option (vto !! v) KeyError in Ok (acc ∪ o)) l acc
      = Ok new_plates →
    acc ⊆ new_plates
    ∧ (∀ v, v ∈ l → ∃ o, vto !! v = Some o ∧ o ⊆ new_plates)
    ∧ ∀ x, x ∈ new_plates → x ∈ acc ∨ ∃ v o, v ∈ l ∧ vto !! v = Some o ∧ x ∈ o).
  { induction l as [|v l IH]; intros acc; simpl.
    - intros [= <-]. split; [done|]. split; [by intros v ?%elem_of_nil | by left].
    - intros (a & Ha & Hrest)%rbind_Ok.
      destruct (vto !! v) as [o|] eqn:Hv; simpl in Ha; [|done].
      injection Ha as <-. apply IH in Hrest as (Hacc & Hl & Hnp).
      split; [intros y Hy; apply Hacc, elem_of_union; by left|]. split.
      + intros v' [-> | Hin]%elem_of_cons.
        * exists o. split; [done|]. intros y Hy. apply Hacc, elem_of_union. by right.
        * by apply Hl.
      + intros x Hx. apply Hnp in Hx as [Hx | (v' & o' & Hin & Hv' & Hx)].
        * apply elem_of_union in Hx as [Hx | Hx]; [by left|].
          right. exists v, o. split; [left | done].
        * right. exists v', o'. split; [by right | done]. }
  intros Hfold. apply Hgen in Hfold as (_ & Hl & Hnp). split.
  - intros v Hv. apply Hl. by apply elem_of_elements.
  - intros x Hx. apply Hnp in Hx as [Hx | (v & o & Hin & Hv & Hx)];
      [by apply elem_of_empty in Hx|].
    exists v, o. split; [by apply elem_of_elements in Hin | done].
Qed.

Lemma pow2_succ_le (a b : nat) : a < b → 1 + 2 ^ a ≤ 2 ^ b.
Proof.
  intros Hlt. assert (Hb : 2 ^ S a ≤ 2 ^ b) by (apply Nat.pow_le_mono_r; lia).
  assert (Ha : 1 ≤ 2 ^ a) by (apply Nat.neq_0_lt_0, Nat.pow_nonzero; lia).
  rewrite Nat.pow_succ_r' in Hb. lia.
Qed.

Lemma weight_append_to (k : gset string) (x : F) (d : list (gset string * list F)) :
  weight (append_to k x d) ≤ weight d + 1 + 2 ^ size k.
Proof.
  unfold append_to, weight. induction d as [|[k0 v0] d IH]; cbn [OD.get OD.set].
  - unfold bucket_weight. simpl. lia.
  - destruct (decide (k = k0)) as [-> | Hne]; cbn [default map sum_list_with sum_list].
    + unfold bucket_weight. cbn [fst snd]. rewrite length_app. simpl. nia.
    + unfold id, sum_list in *. lia.
Qed.

Lemma weight_pop (k : gset string) (fs : list F) (d d' : list (gset string * list F)) :
  OD.pop k d = Some (fs, d') → weight d = weight d' + bucket_weight (k, fs).
Proof.
  unfold OD.pop. destruct (OD.get k d) as [v|] eqn:Hget; [|done].
  intros [= <- <-]. revert v Hget. unfold weight.
  induction d as [|[k0 v0] d IH]; intros v Hget; cbn [OD.get OD.remove] in *; [done|].
  destruct (decide (k = k0)) as [-> | Hne].
  - injection Hget as ->. cbn [map sum_list sum_list_with]. unfold id. lia.
  - cbn [map sum_list sum_list_with]. specialize (IH v Hget).
    unfold id, sum_list in *. lia.
Qed.

Lemma process_group_ok (leaf : gset string) (st st' : state)
    (group : list F * gset string) :
  Forall (ok leaf) group.1 → state_ok eliminate plates vto st →
  process_group sum_op prod_op eliminate plates vto leaf st group = Ok st' →
  state_ok eliminate plates vto st'
  ∧ weight (ordinal_to_factors st') ≤ weight (ordinal_to_factors st) + 2 ^ size leaf.
Proof.
  intros Hgroup [Hotf Hres]. destruct group as [group_factors group_vars].
  simpl in Hgroup. unfold process_group.
  intros (p & Hp & (f & Hf & Hrest)%rbind_Ok)%rbind_Ok.
  apply py_reduce_bucket_ok with (L := leaf) in Hp; [|done].
  assert (Hfok : ok leaf f).
  { eapply bucket_ok_subseteq; [|exact Hp]. apply reduce_inputs in Hf.
    intros x Hx. apply Hf in Hx. by apply elem_of_difference in Hx as [Hx _]. }
  case_decide as Hrem.
  - apply rbind_Ok in Hrest as (r & Hr & [= <-]). simpl. split; [|lia].
    split; [done|]. apply Forall_app. split; [done|]. constructor; [|constructor].
    apply reduce_inputs in Hr. destruct Hfok as [Hplates _].
    unfold eliminated. apply set_eq. intros x. split; [|by intros ?%elem_of_empty].
    intros [Hxr Hxe]%elem_of_intersection. apply Hr in Hxr.
    apply elem_of_difference in Hxr as [Hxf Hxn].
    destruct (decide (x ∈ plates)) as [Hxp | Hxp].
    + exfalso. apply Hxn. apply elem_of_intersection. split; [|done].
      apply Hplates. by apply elem_of_intersection.
    + assert (Hx : x ∈ sv ∩ input_set f).
      { apply elem_of_intersection. split; [|done].
        unfold sum_vars. by apply elem_of_difference. }
      by rewrite Hrem in Hx.
  - apply rbind_Ok in Hrest as (new_plates & Hnew & Hrest).
    case_decide as Hleaf; [done|].
    apply rbind_Ok in Hrest as (f' & Hf' & [= <-]). simpl.
    apply recompute_ordinal_spec in Hnew as [Hvars Hunion].
    assert (Hsub : new_plates ⊆ leaf).
    { intros x Hx. apply Hunion in Hx as (v & o & Hv & Ho & Hx).
      apply elem_of_intersection in Hv as [Hvs Hvf].
      destruct Hfok as [_ Hfv]. destruct (Hfv v Hvs Hvf) as (o' & Ho' & Hle).
      rewrite Ho in Ho'. injection Ho' as <-. by apply Hle. }
    assert (Hsize : size new_plates < size leaf).
    { apply subset_size. split; [done|]. intros Hle. apply Hleaf.
      apply set_eq. intros y. split; [apply Hsub | apply Hle]. }
    apply reduce_inputs in Hf'. split.
    + split; [|done]. apply append_to_otf_ok; [|done]. split.
      * intros x [Hxp Hxf]%elem_of_intersection. apply Hf' in Hxf.
        apply elem_of_difference in Hxf as [Hxf Hxn].
        destruct (decide (x ∈ new_plates)) as [|Hnp]; [done|].
        exfalso. apply Hxn. apply elem_of_difference. split; [|done].
        apply Hfok. by apply elem_of_intersection.
      * intros v Hvs Hvf. apply Hf' in Hvf. apply elem_of_difference in Hvf as [Hvf _].
        apply Hvars. by apply elem_of_intersection.
    + pose proof (weight_append_to new_plates f' (ordinal_to_factors st)) as Hw.
      pose proof (pow2_succ_le _ _ Hsize). lia.
Qed.

Lemma foldM_process_group_ok (leaf : gset string)
    (groups : list (list F * gset string)) (st st' : state) :
  Forall (fun g => Forall (ok leaf) g.1) groups → state_ok eliminate plates vto st →
  foldM (process_group sum_op prod_op eliminate plates vto leaf) groups st = Ok st' →
  state_ok eliminate plates vto st'
  ∧ weight (ordinal_to_factors st')
      ≤ weight (ordinal_to_factors st) + length groups * 2 ^ size leaf.
Proof.
  revert st. induction groups as [|g groups IH]; intros st Hgroups Hst; simpl.
  - intros [= <-]. split; [done | lia].
  - inversion Hgroups; subst. intros (st1 & Hst1 & Hrest)%rbind_Ok.
    apply process_group_ok in Hst1 as [Hok1 Hw1]; [|done..].
    apply IH in Hrest as [Hok' Hw']; [|done..]. split; [done | lia].
Qed.

Lemma process_leaf_ok (st st' : state) :
  state_ok eliminate plates vto st →
  process_leaf sum_op prod_op eliminate plates vto otv st = Ok st' →
  state_ok eliminate plates vto st'
  ∧ weight (ordinal_to_factors st') < weight (ordinal_to_factors st).
Proof.
  intros [Hotf Hres]. unfold process_leaf.
  intros (leaf & _ & ([leaf_factors otf1] & Hpop & (groups & Hpart & Hfold)%rbind_Ok)%rbind_Ok)%rbind_Ok.
  destruct (OD.pop leaf (ordinal_to_factors st)) as [[lf o1]|] eqn:Hpop'; simpl in Hpop;
    [|done].
  injection Hpop as -> ->.
  pose proof (weight_pop _ _ _ _ Hpop') as Hw.
  apply OD_pop_elem in Hpop' as [Hleaf Hsub].
  pose proof (_partition_members _ _ _ Hpart) as Hmem.
  pose proof (_partition_count _ _ _ Hpart) as Hcount.
  apply foldM_process_group_ok in Hfold as [Hok Hw'].
  - split; [done|]. simpl in Hw'. unfold bucket_weight in Hw. simpl in Hw.
    assert (length groups * 2 ^ size leaf ≤ length leaf_factors * 2 ^ size leaf)
      by (by apply Nat.mul_le_mono_r).
    lia.
  - apply Forall_forall. intros g Hg. rewrite Forall_forall in Hmem.
    destruct (Hmem g Hg) as (_ & Hterms & _).
    apply Forall_forall. intros t Ht. apply Hterms in Ht.
    specialize (Hotf _ _ Hleaf). rewrite Forall_forall in Hotf. by apply Hotf.
  - split; [|done]. intros L fs Hin. apply Hotf. by apply Hsub.
Qed.

Lemma main_loop_eliminated (fuel : nat) (st : state) (rs : list F) :
  state_ok eliminate plates vto st →
  main_loop sum_op prod_op eliminate plates vto otv fuel st = Ok rs →
  Forall (eliminated eliminate) rs.
Proof.
  revert st. induction fuel as [|fuel IH]; intros st Hst; simpl.
  - destruct (ordinal_to_factors st); [|done]. intros [= <-]. apply Hst.
  - destruct (ordinal_to_factors st) eqn:Hotf; [intros [= <-]; apply Hst|].
    intros (st1 & Hst1 & Hrest)%rbind_Ok.
    apply process_leaf_ok in Hst1 as [Hok _]; [|done]. by eapply IH.
Qed.

Hypothesis apply_op_python : ∀ o f g, apply_op o f g ≠ Raise OutOfFuel.
Hypothesis reduce_python : ∀ f o vars, reduce f o vars ≠ Raise OutOfFuel.

Lemma foldM_python {A B} (step : A → B → result A) (l : list B) (acc : A) :
  (∀ a x, step a x ≠ Raise OutOfFuel) → foldM step l acc ≠ Raise OutOfFuel.
Proof.
  intros Hstep. revert acc. induction l as [|x l IH]; intros acc; simpl; [done|].
  destruct (step acc x) as [a|e] eqn:Hs; simpl; [apply IH|].
  intros [= ->]. by apply (Hstep acc x).
Qed.

Lemma process_group_python (leaf : gset string) (st : state)
    (group : list F * gset string) :
  process_group sum_op prod_op eliminate plates vto leaf st group ≠ Raise OutOfFuel.
Proof.
  destruct group as [group_factors group_vars]. unfold process_group.
  destruct (py_reduce _ group_factors) as [p|e] eqn:Hp; simpl.
  2:{ intros [= ->]. destruct group_factors as [|x l]; [done|]. simpl in Hp.
      by apply foldM_python in Hp. }
  destruct (reduce p sum_op group_vars) as [f|e] eqn:Hf; simpl.
  2:{ intros [= ->]. by apply reduce_python in Hf. }
  case_decide.
  - destruct (reduce f prod_op _) as [r|e] eqn:Hr; simpl; [done|].
    intros [= ->]. by apply reduce_python in Hr.
  - destruct (recompute_ordinal vto _) as [np|e] eqn:Hnp; simpl.
    2:{ intros [= ->]. unfold recompute_ordinal in Hnp.
        apply foldM_python in Hnp; [done|]. intros a x.
        by destruct (vto !! x). }
    case_decide; [done|].
    destruct (reduce f prod_op _) as [r|e] eqn:Hr; simpl; [done|].
    intros [= ->]. by apply reduce_python in Hr.
Qed.

Lemma process_leaf_python (st : state) :
  process_leaf sum_op prod_op eliminate plates vto otv st ≠ Raise OutOfFuel.
Proof.
  unfold process_leaf.
  destruct (choose_leaf _) as [leaf|]; simpl; [|done].
  destruct (OD.pop leaf _) as [[lf o1]|]; simpl; [|done].
  destruct (_partition lf _) as [groups|e] eqn:Hpart; simpl.
  2:{ intros [= ->]. by apply _partition_fuel in Hpart. }
  apply foldM_python. intros a x. apply process_group_python.
Qed.

Lemma main_loop_enough (fuel : nat) (st : state) :
  state_ok eliminate plates vto st →
  weight (ordinal_to_factors st) ≤ fuel →
  main_loop sum_op prod_op eliminate plates vto otv fuel st ≠ Raise OutOfFuel.
Proof.
  revert st. induction fuel as [|fuel IH]; intros st Hst Hw; simpl.
  - destruct (ordinal_to_factors st) as [|b otf]; [done|].
    unfold weight, bucket_weight in Hw. simpl in Hw. lia.
  - destruct (ordinal_to_factors st) as [|b otf] eqn:Hotf; [done|].
    destruct (process_leaf _ _ _ _ _ _ st) as [st1|e] eqn:Hleaf; simpl.
    + apply process_leaf_ok in Hleaf as [Hok Hlt]; [|done].
      apply IH; [done|]. rewrite Hotf in Hlt. lia.
    + intros [= ->]. by apply process_leaf_python in Hleaf.
Qed.

Lemma main_loop_mono (fuel fuel' : nat) (st : state) :
  main_loop sum_op prod_op eliminate plates vto otv fuel st ≠ Raise OutOfFuel →
  fuel ≤ fuel' →
  main_loop sum_op prod_op eliminate plates vto otv fuel' st
    = main_loop sum_op prod_op eliminate plates vto otv fuel st.
Proof.
  revert fuel' st. induction fuel as [|fuel IH]; intros fuel' st Hne Hle.
  - simpl in Hne |- *. destruct fuel'; simpl; destruct (ordinal_to_factors st); done.
  - destruct fuel' as [|fuel']; [lia|]. simpl in Hne |- *.
    destruct (ordinal_to_factors st); [done|].
    destruct (process_leaf _ _ _ _ _ _ st) as [st1|e]; simpl in Hne |- *; [|done].
    apply IH; [done | lia].
Qed.
End EngineLaws.

Section EngineStart.
Context {F Op R : Type} `{API : FunsorAPI F Op R}.
Import SumProduct.
Variables (plates svars : gset string).

Lemma index_factor_ordinals (ordinal : gset string) (l : list string)
    (vto0 : gmap string (gset string)) :
  let vto' := fold_left (fun (vto : gmap string (gset string)) var =>
                <[var := default ordinal (vto !! var) ∩ ordinal]> vto) l vto0 in
  (∀ v o, vto0 !! v = Some o → ∃ o', vto' !! v = Some o' ∧ o' ⊆ o)
  ∧ ∀ v, v ∈ l → ∃ o', vto' !! v = Some o' ∧ o' ⊆ ordinal.
Proof.
  revert vto0. induction l as [|x l IH]; intros vto0; simpl.
  - split; [|by intros v ?%elem_of_nil]. intros v o Hv. by exists o.
  - destruct (IH (<[x := default ordinal (vto0 !! x) ∩ ordinal]> vto0)) as [Hmono Hnew].
    split.
    + intros v o Hv. destruct (decide (v = x)) as [-> | Hne].
      * destruct (Hmono x (o ∩ ordinal)) as (o' & Ho' & Hle).
        { rewrite lookup_insert_eq, Hv. done. }
        exists o'. split; [done|]. etrans; [exact Hle|]. apply intersection_subseteq_l.
      * apply Hmono. by rewrite lookup_insert_ne.
    + intros v [-> | Hin]%elem_of_cons; [|by apply Hnew].
      destruct (Hmono x (default ordinal (vto0 !! x) ∩ ordinal)) as (o' & Ho' & Hle).
      { by rewrite lookup_insert_eq. }
      exists o'. split; [done|]. etrans; [exact Hle|]. apply intersection_subseteq_r.
Qed.

Lemma bucket_ok_mono (vto vto' : gmap string (gset string)) (L : gset string) (f : F) :
  (∀ v o, vto !! v = Some o → ∃ o', vto' !! v = Some o' ∧ o' ⊆ o) →
  bucket_ok plates svars vto L f → bucket_ok plates svars vto' L f.
Proof.
  intros Hmono [Hp Hv]. split; [done|].
  intros v Hsv Hin. destruct (Hv v Hsv Hin) as (o & Ho & Hle).
  destruct (Hmono v o Ho) as (o' & Ho' & Hle'). exists o'. split; [done|].
  by etrans.
Qed.

Lemma index_factor_ok (acc : gmap string (gset string) * list (gset string * list F))
    (f : F) :
  otf_ok plates svars acc.1 acc.2 →
  otf_ok plates svars (index_factor plates svars acc f).1
    (index_factor plates svars acc f).2.
Proof.
  destruct acc as [vto otf]. intros Hok. unfold index_factor. cbn [fst snd].
  destruct (index_factor_ordinals (plates ∩ input_set f)
              (elements (svars ∩ input_set f)) vto) as [Hmono Hnew].
  apply append_to_otf_ok.
  - split; [done|]. intros v Hsv Hin. apply Hnew.
    apply elem_of_elements. by apply elem_of_intersection.
  - intros L fs Hin. eapply Forall_impl; [by apply Hok|].
    intros g. by apply bucket_ok_mono.
Qed.

Lemma index_factors_ok (factors : list F) :
  otf_ok plates svars (index_factors plates svars factors).1
    (index_factors plates svars factors).2.
Proof.
  unfold index_factors.
  assert (Hgen : ∀ acc, otf_ok plates svars acc.1 acc.2 →
    otf_ok plates svars (fold_left (index_factor plates svars) factors acc).1
      (fold_left (index_factor plates svars) factors acc).2).
  { induction factors as [|f l IH]; intros acc Hacc; simpl; [done|].
    apply IH. by apply index_factor_ok. }
  apply Hgen. intros L fs Hin. by apply elem_of_nil in Hin.
Qed.
End EngineStart.

Section EngineTheorems.
Context {F Op R : Type} `{API : FunsorAPI F Op R}.
Import SumProduct.

Lemma foldM_eliminated (eliminate : gset string) (o : Op) (l : list F) (acc r : F) :
  (∀ o f g r, apply_op o f g = Ok r → input_set r ⊆ input_set f ∪ input_set g) →
  eliminated eliminate acc → Forall (eliminated eliminate) l →
  foldM (apply_op o) l acc = Ok r → eliminated eliminate r.
Proof.
  intros Hop. revert acc. induction l as [|x l IH]; intros acc Hacc Hl; simpl.
  - by intros [= <-].
  - inversion Hl as [|? ? Hx Hl']; subst. intros (a & Ha & Hrest)%rbind_Ok.
    apply (IH a); [|done|done]. apply Hop in Ha. unfold eliminated in *.
    apply set_eq. intros y. split; [|by intros ?%elem_of_empty].
    intros [Hya Hye]%elem_of_intersection. apply Ha in Hya.
    apply elem_of_union in Hya as [Hy | Hy].
    + rewrite <- Hacc. by apply elem_of_intersection.
    + rewrite <- Hx. by apply elem_of_intersection.
Qed.

(** X2: over funsors whose operations obey the laws of inputs (the inputs of
    [op(f, g)] are among those of [f] and [g]; [f.reduce(op, vars)] has none
    of [vars] and no new input), no factor that [partial_sum_product]
    returns has a variable of [eliminate] among its inputs; nor has the
    funsor that [sum_product] returns, when [Number]s have no inputs. *)
Theorem partial_sum_product_eliminates (fuel : nat) (sum_op prod_op : Op)
    (factors : list F) (eliminate plates : gset string) :
  (∀ o f g r, apply_op o f g = Ok r → input_set r ⊆ input_set f ∪ input_set g) →
  (∀ f o vars r, reduce f o vars = Ok r → input_set r ⊆ input_set f ∖ vars) →
  (∀ results,
     partial_sum_product fuel sum_op prod_op factors eliminate plates = Ok results →
     Forall (fun r => input_set r ∩ eliminate = ∅) results)
  ∧ ((∀ x, inputs (Number x) = []) →
     ∀ r, sum_product fuel sum_op prod_op factors eliminate plates = Ok r →
          input_set r ∩ eliminate = ∅).
Proof.
  intros Hop Hred.
  assert (Hpartial : ∀ results,
     partial_sum_product fuel sum_op prod_op factors eliminate plates = Ok results →
     Forall (eliminated eliminate) results).
  { intros results. unfold partial_sum_product.
    pose proof (index_factors_ok plates (sum_vars eliminate plates) factors) as Hstart.
    destruct (index_factors plates (sum_vars eliminate plates) factors) as [vto otf].
    apply main_loop_eliminated; [done | done |]. split; [exact Hstart | constructor]. }
  split; [exact Hpartial|].
  intros Hnum r. unfold sum_product.
  intros (results & Hresults & (unit & _ & Hfold)%rbind_Ok)%rbind_Ok.
  apply Hpartial in Hresults.
  apply (foldM_eliminated eliminate prod_op results (Number unit) r Hop); [|done|done].
  unfold eliminated, input_set. rewrite Hnum. simpl. apply intersection_empty_l_L.
Qed.

(** X3: over funsors whose operations obey the laws of inputs and raise only
    exceptions of Python, the main loop of [partial_sum_product] comes to an
    end: some number of rounds is enough, and with that many or more the
    call gives one and the same outcome, a list of factors or an exception
    of Python. *)
Theorem partial_sum_product_terminates (sum_op prod_op : Op)
    (factors : list F) (eliminate plates : gset string) :
  (∀ o f g r, apply_op o f g = Ok r → input_set r ⊆ input_set f ∪ input_set g) →
  (∀ f o vars r, reduce f o vars = Ok r → input_set r ⊆ input_set f ∖ vars) →
  (∀ o f g, apply_op o f g ≠ Raise OutOfFuel) →
  (∀ f o vars, reduce f o vars ≠ Raise OutOfFuel) →
  ∃ n r, r ≠ Raise OutOfFuel
       ∧ ∀ fuel, n ≤ fuel →
           partial_sum_product fuel sum_op prod_op factors eliminate plates = r.
Proof.
  intros Hop Hred Hop_py Hred_py. unfold partial_sum_product.
  pose proof (index_factors_ok plates (sum_vars eliminate plates) factors) as Hstart.
  destruct (index_factors plates (sum_vars eliminate plates) factors) as [vto otf].
  simpl in Hstart.
  set (st := {| ordinal_to_factors := otf; results := [] |}).
  assert (Hst : state_ok eliminate plates vto st) by (split; [exact Hstart | constructor]).
  exists (weight otf).
  exists (main_loop sum_op prod_op eliminate plates vto (build_ordinal_to_vars vto)
            (weight otf) st).
  assert (Hne : main_loop sum_op prod_op eliminate plates vto (build_ordinal_to_vars vto)
                  (weight otf) st ≠ Raise OutOfFuel).
  { by apply main_loop_enough. }
  split; [exact Hne|]. intros fuel Hfuel. by apply main_loop_mono.
Qed.
End EngineTheorems.

Section DictUpdateKeys.
Context {K V : Type} `{EqDecision K}.

Lemma OD_keys_update_elem (l acc : list (K * V)) (k : K) :
  k ∈ OD.keys (OD.update acc l) ↔ k ∈ map fst l ∨ k ∈ OD.keys acc.
Proof.
  unfold OD.update. revert acc. induction l as [|[k0 v0] l IH]; intros acc; simpl.
  - split; [by right | by intros [?%elem_of_nil | ?]].
  - rewrite IH, OD_keys_set_elem, elem_of_cons. tauto.
Qed.
End DictUpdateKeys.

Section TensorLaws.
Import Torch DenseTensor SumProduct.

Lemma Tensor_init_inputs {A} (d : list A) (ins : list (string * nat)) (dt : dtype)
    (r : Tensor A) :
  Tensor_init d ins dt = Ok r → tinputs r = ins.
Proof. unfold Tensor_init. repeat case_decide; [|done..]. by intros [= <-]. Qed.

Lemma Tensor_init_python {A} (d : list A) (ins : list (string * nat)) (dt : dtype) :
  Tensor_init d ins dt ≠ Raise OutOfFuel.
Proof. unfold Tensor_init. by repeat case_decide. Qed.

Lemma tget_python {A} (t : Tensor A) (e : env) : tget t e ≠ Raise OutOfFuel.
Proof.
  unfold tget. destruct (offset (tinputs t) e); [|done].
  by destruct (data t !! n).
Qed.

Lemma mapR_python {A B} (f : A → result B) (l : list A) :
  (∀ x, f x ≠ Raise OutOfFuel) → mapR f l ≠ Raise OutOfFuel.
Proof.
  intros Hf Hmap. apply mapR_Raise in Hmap as (x & _ & Hx). by apply (Hf x).
Qed.

Lemma Tensor_API_apply_op_inputs (o : binop) (f g r : Tensor Z) :
  apply_op o f g = Ok r → input_set r ⊆ input_set f ∪ input_set g.
Proof.
  simpl. unfold Tensor_binary. intros (d & _ & Hinit)%rbind_Ok.
  apply Tensor_init_inputs in Hinit. unfold input_set. simpl. rewrite Hinit.
  intros k Hk. apply elem_of_list_to_set in Hk.
  apply (OD_keys_update_elem (tinputs g) (tinputs f) k) in Hk.
  apply elem_of_union. rewrite !elem_of_list_to_set. tauto.
Qed.

Lemma Tensor_API_reduce_inputs (f : Tensor Z) (o : binop) (vars : gset string)
    (r : Tensor Z) :
  reduce f o vars = Ok r → input_set r ⊆ input_set f ∖ vars.
Proof.
  simpl. unfold Tensor_reduce. case_decide; [|done].
  intros (d & _ & Hinit)%rbind_Ok.
  apply Tensor_init_inputs in Hinit. unfold input_set. simpl. rewrite Hinit.
  intros k Hk. apply elem_of_list_to_set in Hk.
  apply list_elem_of_fmap in Hk as ([k' n] & -> & [Hvars Hin]%list_elem_of_filter).
  simpl in Hvars. apply elem_of_difference. split; [|done].
  apply elem_of_list_to_set. apply list_elem_of_fmap. by exists (k', n).
Qed.

Lemma rbind_python {A B} (m : result A) (k : A → result B) :
  m ≠ Raise OutOfFuel → (∀ a, k a ≠ Raise OutOfFuel) → rbind m k ≠ Raise OutOfFuel.
Proof. intros Hm Hk. destruct m as [a|e]; simpl; [apply Hk | congruence]. Qed.

Lemma Tensor_API_apply_op_python (o : binop) (f g : Tensor Z) :
  apply_op o f g ≠ Raise OutOfFuel.
Proof.
  simpl. unfold Tensor_binary, tabulate.
  apply rbind_python; [|intros d; apply Tensor_init_python].
  apply mapR_python. intros e.
  apply rbind_python; [apply tget_python|]. intros a.
  apply rbind_python; [apply tget_python | done].
Qed.

Lemma py_reduce_total_python {A} (op : A → A → A) (cells : list A) :
  py_reduce (fun a b => Ok (op a b)) cells ≠ Raise OutOfFuel.
Proof.
  destruct cells as [|x l]; simpl; [done|]. revert x.
  induction l as [|y l IH]; intros x; simpl; [done | apply IH].
Qed.

Lemma Tensor_API_reduce_python (f : Tensor Z) (o : binop) (vars : gset string) :
  reduce f o vars ≠ Raise OutOfFuel.
Proof.
  simpl. unfold Tensor_reduce, tabulate. case_decide; [|done].
  apply rbind_python; [|intros d; apply Tensor_init_python].
  apply mapR_python. intros e.
  apply rbind_python; [|intros cells; apply py_reduce_total_python].
  apply mapR_python. intros e'. apply tget_python.
Qed.
End TensorLaws.

Section EngineWitnesses.
Import Torch DenseTensor SumProduct Examples.

Lemma partial_sum_product_eliminates_witness :
  (∀ results,
     partial_sum_product 8 OpAdd OpMul [k_x; m_x; g_ax] abxy ab = Ok results →
     Forall (fun r => input_set r ∩ abxy = ∅) results)
  ∧ ∀ r, sum_product 8 OpAdd OpMul [k_x; m_x; g_ax] abxy ab = Ok r →
         input_set r ∩ abxy = ∅.
Proof.
  destruct (partial_sum_product_eliminates 8 OpAdd OpMul [k_x; m_x; g_ax] abxy ab
              Tensor_API_apply_op_inputs Tensor_API_reduce_inputs) as [Hpartial Htotal].
  split; [exact Hpartial|]. apply Htotal. reflexivity.
Defined.

Lemma partial_sum_product_terminates_witness :
  ∃ n r, r ≠ Raise OutOfFuel
       ∧ ∀ fuel, n ≤ fuel →
           partial_sum_product fuel OpAdd OpMul [k_x; m_x; g_ax] abxy ab = r.
Proof.
  exact (partial_sum_product_terminates OpAdd OpMul [k_x; m_x; g_ax] abxy ab
           Tensor_API_apply_op_inputs Tensor_API_reduce_inputs
           Tensor_API_apply_op_python Tensor_API_reduce_python).
Defined.


Lemma partition_components_witness :
  ∃ comps,
    _partition [k_x; g_ax; h_by] {["x"; "y"]} = Ok comps
    ∧ (∀ t, t ∈ [k_x; g_ax; h_by] → ∃ c, c ∈ comps ∧ t ∈ c.1)
    ∧ (∀ c, c ∈ comps →
         c.1 ≠ [] ∧ NoDup c.1 ∧ (∀ t, t ∈ c.1 → t ∈ [k_x; g_ax; h_by])
         ∧ ∀ d, d ∈ c.2 ↔ d ∈ ({["x"; "y"]} : gset string) ∧ ∃ t, t ∈ c.1 ∧ d ∈ inputs t)
    ∧ (∀ i j c c', comps !! i = Some c → comps !! j = Some c' → i ≠ j →
         (∀ t, t ∈ c.1 → t ∉ c'.1) ∧ c.2 ## c'.2).
Proof.
  eexists. split; [vm_compute; reflexivity|].
  apply (partition_components [k_x; g_ax; h_by] {["x"; "y"]}).
  vm_compute. reflexivity.
Defined.
End EngineWitnesses.

(** * The dims of calls, operators and reductions *)

Section FilterFacts.
Context {A : Type} (P Q : A → Prop) `{∀ x, Decision (P x)} `{∀ x, Decision (Q x)}.

Lemma filter_ext_elem (l : list A) :
  (∀ x, x ∈ l → (P x ↔ Q x)) → filter P l = filter Q l.
Proof.
  induction l as [|a l IH]; intros Hext; [done|].
  assert (Hl : filter P l = filter Q l).
  { apply IH. intros x Hx. apply Hext. by right. }
  destruct (decide (P a)) as [Ha | Ha].
  - rewrite !filter_cons_True; [by rewrite Hl | by apply Hext; [left|] | done].
  - rewrite !filter_cons_False; [done | | done].
    intros HQ. apply Ha. apply Hext; [left | done].
Qed.

Lemma filter_all (l : list A) : (∀ x, x ∈ l → P x) → filter P l = l.
Proof.
  induction l as [|a l IH]; intros Hall; [done|].
  rewrite filter_cons_True by (apply Hall; left).
  f_equal. apply IH. intros x Hx. apply Hall. by right.
Qed.

Lemma filter_none (l : list A) : (∀ x, x ∈ l → ¬ P x) → filter P l = [].
Proof.
  induction l as [|a l IH]; intros Hall; [done|].
  rewrite filter_cons_False by (apply Hall; left).
  apply IH. intros x Hx. apply Hall. by right.
Qed.
End FilterFacts.

Section DictMore.
Context {K V : Type} `{EqDecision K}.

Lemma OD_keys_get (k : K) (d : list (K * V)) :
  k ∈ OD.keys d → ∃ v, OD.get k d = Some v ∧ v ∈ map snd d.
Proof.
  unfold OD.keys. induction d as [|[k0 v0] d IH]; simpl; [by intros ?%elem_of_nil|].
  intros Hin. destruct (decide (k = k0)) as [-> | Hne].
  - exists v0. split; [done | left].
  - apply elem_of_cons in Hin as [-> | Hin]; [done|].
    destruct (IH Hin) as (v & Hv & Hvin). exists v. split; [done | by right].
Qed.

(** The keys after [d.update(l)]: those of [d], then the new ones in the
    order of [l]. *)
Lemma OD_keys_update (l acc : list (K * V)) :
  NoDup (map fst l) →
  OD.keys (fold_left (fun acc kv => OD.set kv.1 kv.2 acc) l acc)
    = OD.keys acc ++ filter (fun k => k ∉ OD.keys acc) (map fst l).
Proof.
  revert acc. induction l as [|[k v] l IH]; intros acc Hnd; simpl.
  - by rewrite filter_nil, app_nil_r.
  - apply NoDup_cons in Hnd as [Hk Hnd]. rewrite IH by done.
    rewrite OD_keys_set. destruct (decide (k ∈ OD.keys acc)) as [Hin | Hnin].
    + by rewrite filter_cons_False by (intros Hn; by apply Hn).
    + rewrite filter_cons_True by done. rewrite <- app_assoc. simpl. do 2 f_equal.
      apply filter_ext_elem. intros x Hx.
      rewrite elem_of_app, list_elem_of_singleton.
      split; [tauto|]. intros Hn [? | ->]; [tauto | done].
Qed.
End DictMore.

Section FunctionCall.
Import Torch Terms.
Context {num : Type} `{Numeric num}.

Lemma schema_of_keys (dims : list string) (shape : list domain) :
  NoDup dims → length dims = length shape →
  OD.keys (schema_of dims shape) = dims.
Proof.
  intros Hnd Hlen. unfold schema_of. rewrite OD_keys_update by (by rewrite fst_zip by lia).
  rewrite fst_zip by lia. simpl. apply filter_all.
  intros x _. apply not_elem_of_nil.
Qed.



End FunctionCall.

Section TensorRename.
Import Torch Terms.
Context {num : Type} `{Numeric num}.

Lemma index_of_lookup (x : string) (l : list string) (pos : nat) :
  index_of x l = Some pos → l !! pos = Some x.
Proof.
  revert pos. induction l as [|y l IH]; intros pos; simpl; [done|].
  destruct (decide (x = y)) as [-> | Hne].
  - by intros [= <-].
  - destruct (index_of x l) as [p|]; simpl; [|done].
    intros [= <-]. simpl. by apply IH.
Qed.

Lemma index_of_elem (x : string) (l : list string) :
  x ∈ l → ∃ pos, index_of x l = Some pos.
Proof.
  induction l as [|y l IH]; [by intros ?%elem_of_nil|].
  intros Hin. simpl. destruct (decide (x = y)) as [-> | Hne]; [by eexists|].
  apply elem_of_cons in Hin as [-> | Hin]; [done|].
  destruct (IH Hin) as [p ->]. by eexists.
Qed.

Lemma Tensor_init_wf_Ok (dims : list string) (data : array num) :
  wf (Tensor dims data) → Tensor_init dims (VData data) = Ok (Tensor dims data).
Proof.
  intros [Hnd Hlen]. simpl in Hnd, Hlen. unfold Tensor_init.
  rewrite Funsor_init_constructed; [done | done | | done].
  apply Forall_forall. by intros s (n & -> & _)%list_elem_of_fmap.
Qed.

(** X4: calling a [Tensor] with a string for one of its dimensions does not
    rename the dimension: [_substitute] writes the old name [dim] back at
    its position, and the call returns a tensor with the dims and the data
    of the receiver. A name that is no dim of the tensor is ignored. *)
Theorem Tensor_rename_no_effect (dims : list string) (data : array num)
    (dim new : string) :
  wf (Tensor dims data) →
  Tensor_call (Tensor dims data) [] [(dim, VStr new)]
    = Ok (VFunsor (Tensor dims data)).
Proof.
  intros Hwf. unfold Tensor_call, own_kwargs. cbn [find_pos f_dims].
  replace (zip dims ([] : list (value num))) with ([] : list (string * value num))
    by (by destruct dims).
  destruct (decide (dim ∈ dims)) as [Hin | Hnin].
  - rewrite filter_cons_True by done. rewrite filter_nil.
    cbn [OD.update fold_left foldM fst snd rbind].
    destruct (index_of_elem dim dims Hin) as [pos Hpos].
    unfold Tensor__substitute. rewrite Hpos. cbn [of_option rbind].
    apply index_of_lookup in Hpos.
    case_decide; [done|].
    rewrite list_insert_id by done. by rewrite Tensor_init_wf_Ok.
  - rewrite filter_cons_False by done. rewrite filter_nil. done.
Qed.
End TensorRename.

Section VariableRegistry.
Import Torch Terms.
Context {num : Type} `{Numeric num}.

(** X5: for a continuous domain of [DOMAINS] and a fresh key, [var] returns
    a [Variable] and registers it: for as long as the object is held, [var]
    returns this very object again, and constructing a [Variable] for the
    key directly fails the assertion of [Variable.__init__]. For a string
    that is no domain, [var] fails the assertion of [Funsor.__init__]. *)
Theorem var_continuous_registered (name tag : string) (reg : registry num) :
  _VARIABLES reg !! (name, Cont tag) = None →
  (tag ∈ DOMAINS →
     ∃ o reg1,
       var name (Cont tag) reg = Ok (o, reg1)
       ∧ oval o = Variable_ name (Cont tag)
       ∧ ∀ reg2, evolves o reg1 reg2 →
           var name (Cont tag) reg2 = Ok (o, reg2)
           ∧ Variable_init name (Cont tag) reg2 = Raise AssertionError)
  ∧ (tag ∉ DOMAINS → var name (Cont tag) reg = Raise AssertionError).
Proof.
  intros Hfresh. split.
  - intros Htag.
    assert (Hvar : var name (Cont tag) reg
              = Ok (mkObj (next_id reg) (Variable_ name (Cont tag)),
                    mkRegistry (S (next_id reg))
                      (<[(name, Cont tag) := mkObj (next_id reg) (Variable_ name (Cont tag))]>
                         (_VARIABLES reg)))).
    { unfold var, Variable_init. rewrite Hfresh. unfold lift, Funsor_init.
      rewrite decide_True by apply NoDup_singleton. simpl.
      by rewrite bool_decide_eq_true_2. }
    eexists; eexists. split; [exact Hvar|]. split; [done|].
    intros reg2 Hev.
    assert (Hkept : _VARIABLES reg2 !! (name, Cont tag)
                    = Some (mkObj (next_id reg) (Variable_ name (Cont tag)))).
    { eapply evolves_keeps; [exact Hev|]. by eapply var_registers. }
    split; [by apply var_cached|].
    unfold Variable_init. by rewrite Hkept.
  - intros Htag. unfold var, Variable_init. rewrite Hfresh. unfold lift, Funsor_init.
    rewrite decide_True by apply NoDup_singleton. simpl.
    by rewrite bool_decide_eq_false_2.
Qed.
End VariableRegistry.

Section VariableRegistryExamples.
Import Torch Terms TermExamples.

Lemma var_continuous_registered_witness :
  (∃ o reg1,
     var "x" (Cont "real") empty_registry = Ok (o, reg1)
     ∧ oval o = Variable_ "x" (Cont "real")
     ∧ ∀ reg2, evolves o reg1 reg2 →
         var "x" (Cont "real") reg2 = Ok (o, reg2)
         ∧ Variable_init "x" (Cont "real") reg2 = Raise AssertionError)
  ∧ var "x" (Cont "complex") empty_registry = Raise AssertionError.
Proof.
  split.
  - apply (var_continuous_registered "x" "real" empty_registry); [reflexivity|].
    apply list_elem_of_here.
  - apply (var_continuous_registered "x" "complex" empty_registry); [reflexivity|].
    unfold DOMAINS. intros Hin.
    repeat (apply elem_of_cons in Hin as [Hin | Hin]; [discriminate|]).
    by apply elem_of_nil in Hin.
Defined.
End VariableRegistryExamples.

Section BinaryDims.
Import Torch Terms.
Context {num : Type} `{Numeric num}.

Lemma f_schema_keys (f : funsor num) : wf f → OD.keys (f_schema f) = f_dims f.
Proof. intros [Hnd Hlen]. by apply schema_of_keys. Qed.

Lemma f_schema_NoDup (f : funsor num) : wf f → NoDup (map fst (f_schema f)).
Proof. intros Hwf. fold (OD.keys (f_schema f)). rewrite f_schema_keys by done. apply Hwf. Qed.

Lemma Tensor_init_dims (dims : list string) (data : value num) (f : funsor num) :
  Tensor_init dims data = Ok f → ∃ t, f = Tensor dims t.
Proof.
  unfold Tensor_init. destruct data; try done.
  intros (u & _ & [= <-])%rbind_Ok. by eexists.
Qed.

Lemma _align_tensors_dims (sdims odims : list string) (sdata odata : array num)
    (dims : list string) (xs : list (array num)) :
  NoDup sdims → NoDup odims →
  _align_tensors [(sdims, sdata); (odims, odata)] = Ok (dims, xs) →
  dims = sdims ++ filter (fun d => d ∉ sdims) odims.
Proof.
  intros Hs Ho. unfold _align_tensors. cbn [foldM].
  destruct (decide (length sdims = length (ashape sdata))) as [Hls|]; [|done].
  cbn [rbind].
  destruct (decide (length odims = length (ashape odata))) as [Hlo|]; [|done].
  cbn [rbind].
  intros (tensors & _ & [= <- _])%rbind_Ok.
  rewrite OD_keys_update by (by rewrite fst_zip by lia).
  rewrite OD_keys_update by (by rewrite fst_zip by lia).
  rewrite !fst_zip by lia. simpl.
  rewrite (filter_all _ sdims) by (intros x _; apply not_elem_of_nil). done.
Qed.

(** X7: when [pointwise_binary] of two funsors returns, the result is a
    funsor whose dims are those of [self], in their order, followed by the
    dims of [other] that [self] does not have, in their order; this holds
    for the lazy [Function] of [Funsor.pointwise_binary] and for the
    aligned data of [Tensor.pointwise_binary] alike. *)
Theorem pointwise_binary_merges
    (apply' : value num → list (value num) → M num (value num))
    (self other : funsor num) (op : value num) (reg reg' : registry num)
    (v : value num) :
  wf self → wf other →
  pointwise_binary apply' self (VFunsor other) op reg = Ok (v, reg') →
  ∃ f, v = VFunsor f
     ∧ f_dims f = f_dims self ++ filter (fun d => d ∉ f_dims self) (f_dims other).
Proof.
  intros Hself Hother.
  assert (Hsame : f_dims self = f_dims other →
            f_dims self = f_dims self ++ filter (fun d => d ∉ f_dims self) (f_dims other)).
  { intros <-. rewrite filter_none; [by rewrite app_nil_r|]. intros x Hx Hn. by apply Hn. }
  assert (Hgen : Funsor_pointwise_binary apply' self (VFunsor other) op reg = Ok (v, reg') →
    ∃ f, v = VFunsor f
       ∧ f_dims f = f_dims self ++ filter (fun d => d ∉ f_dims self) (f_dims other)).
  { unfold Funsor_pointwise_binary. case_decide as Hdims; unfold lift.
    - destruct (Function_init _ _ _) as [f|] eqn:Hinit; simpl; [|done].
      intros [= <- <-]. apply Function_init_Ok in Hinit as ->.
      eexists. split; [done|]. by apply Hsame.
    - destruct (Function_init _ _ _) as [f|] eqn:Hinit; simpl; [|done].
      intros [= <- <-]. apply Function_init_Ok in Hinit as ->.
      eexists. split; [done|]. simpl. fold (OD.keys (OD.update (f_schema self) (f_schema other))).
      unfold OD.update. rewrite OD_keys_update by (by apply f_schema_NoDup).
      fold (OD.keys (f_schema other)). by rewrite !f_schema_keys. }
  destruct self as [name size | sdims sshape sfn | sdims sdata]; try exact Hgen.
  destruct other as [oname osize | odims oshape ofn | odims odata]; try exact Hgen.
  unfold pointwise_binary, Tensor_pointwise_binary. case_decide as Hdims.
  - unfold bind. destruct (apply' _ _ reg) as [[data reg1]|]; [|done].
    unfold lift. destruct (Tensor_init sdims data) as [f|] eqn:Hinit; simpl; [|done].
    intros [= <- <-]. apply Tensor_init_dims in Hinit as [t ->].
    eexists. split; [done|]. by apply (Hsame Hdims).
  - unfold bind at 1. unfold lift at 1.
    destruct (_align_tensors _) as [[dims xs]|] eqn:Halign; [|done].
    apply _align_tensors_dims in Halign; [|apply Hself|apply Hother].
    destruct xs as [|self_x [|other_x [|? ?]]]; try done.
    unfold bind. destruct (apply' _ _ reg) as [[data reg1]|]; [|done].
    unfold lift. destruct (Tensor_init dims data) as [f|] eqn:Hinit; simpl; [|done].
    intros [= <- <-]. apply Tensor_init_dims in Hinit as [t ->].
    eexists. split; [done|]. exact Halign.
Qed.
End BinaryDims.

Section ReduceDims.
Import Torch Terms.
Context {num : Type} `{Numeric num}.
Variable frozenset_iter : gset string → list string.
Hypothesis frozenset_iter_perm : ∀ s, frozenset_iter s ≡ₚ elements s.

#[local] Arguments apply {num H} _ _ _ _ : simpl never.

Lemma index_of_delete (x : string) (l : list string) (pos : nat) :
  NoDup l → index_of x l = Some pos →
  take pos l ++ drop (S pos) l = filter (fun d => d ≠ x) l.
Proof.
  revert pos. induction l as [|y l IH]; intros pos Hnd; simpl; [done|].
  apply NoDup_cons in Hnd as [Hy Hnd].
  destruct (decide (x = y)) as [-> | Hne].
  - intros [= <-]. simpl. rewrite filter_cons_False by (intros Hn; by apply Hn).
    symmetry. apply filter_all. intros d Hd ->. done.
  - destruct (index_of x l) as [p|] eqn:Hp; simpl; [|done].
    intros [= <-]. simpl. rewrite filter_cons_True by done. f_equal. by apply IH.
Qed.

Lemma call_number_dims (f : funsor num) (x : string) (n : num)
    (reg reg' : registry num) (v : value num) :
  wf f → concrete f → x ∈ f_dims f →
  call f [] [(x, VNum n)] reg = Ok (v, reg') →
  over_dims (filter (fun d => d ≠ x) (f_dims f)) v.
Proof.
  intros Hwf Hconc Hx. destruct f as [name size | dims shape fn | dims data]; [done| |].
  - unfold call, lift, Function_call, own_kwargs. simpl in Hx.
    rewrite filter_cons_True by done. rewrite filter_nil.
    destruct (mapR _ _) as [shape'|] eqn:Hmap; simpl; [|done].
    destruct (Function_init _ _ _) as [g|] eqn:Hinit; simpl; [|done].
    intros [= <- <-]. pose proof (Function_init_wf _ _ _ _ Hinit) as Hg.
    apply Function_init_Ok in Hinit as ->.
    eexists. split; [done|]. split; [|done]. simpl.
    apply filter_ext_elem. intros d _. simpl.
    rewrite elem_of_cons. split; [intros Hn ->; apply Hn; by left|].
    intros Hn [-> | Hnil%elem_of_nil]; done.
  - unfold call, lift, Tensor_call, own_kwargs. simpl in Hx. cbn [f_dims find_pos].
    rewrite filter_cons_True by done. rewrite filter_nil.
    replace (zip dims ([] : list (value num))) with ([] : list (string * value num))
      by (by destruct dims).
    cbn [OD.update fold_left foldM fst snd].
    destruct (Tensor__substitute _ _ _) as [g|] eqn:Hsub; simpl; [|done].
    intros [= <- <-].
    pose proof (Tensor__substitute_wf _ _ _ _ Hwf Hsub) as Hg.
    unfold Tensor__substitute in Hsub.
    apply rbind_Ok in Hsub as (pos & Hpos & Hsub).
    destruct (index_of x dims) as [p|] eqn:Hp; simpl in Hpos; [|done].
    injection Hpos as ->.
    apply rbind_Ok in Hsub as (i & _ & (data' & _ & Hinit)%rbind_Ok).
    apply Tensor_init_dims in Hinit as [t ->].
    eexists. split; [done|]. split; [|done]. simpl.
    apply index_of_delete; [apply Hwf | done].
Qed.

Lemma pointwise_binary_same_dims
    (apply' : value num → list (value num) → M num (value num))
    (f g : funsor num) (op : value num) (reg reg' : registry num) (v : value num) :
  f_dims f = f_dims g →
  pointwise_binary apply' f (VFunsor g) op reg = Ok (v, reg') →
  over_dims (f_dims f) v.
Proof.
  intros Hdims.
  assert (Hgen : Funsor_pointwise_binary apply' f (VFunsor g) op reg = Ok (v, reg') →
                 over_dims (f_dims f) v).
  { unfold Funsor_pointwise_binary. rewrite decide_True by done. unfold lift.
    destruct (Function_init _ _ _) as [r|] eqn:Hinit; simpl; [|done].
    intros [= <- <-]. pose proof (Function_init_wf _ _ _ _ Hinit) as Hr.
    apply Function_init_Ok in Hinit as ->. by eexists. }
  destruct f as [name size | sdims sshape sfn | sdims sdata]; try exact Hgen.
  destruct g as [oname osize | odims oshape ofn | odims odata]; try exact Hgen.
  unfold pointwise_binary, Tensor_pointwise_binary. simpl in Hdims.
  rewrite decide_True by done.
  unfold bind. destruct (apply' _ _ reg) as [[data reg1]|]; [|done].
  unfold lift. destruct (Tensor_init sdims data) as [r|] eqn:Hinit; simpl; [|done].
  intros [= <- <-]. pose proof (Tensor_init_wf _ _ _ Hinit) as Hr.
  apply Tensor_init_dims in Hinit as [t ->]. by eexists.
Qed.

Lemma apply_binary_same_dims (fuel : nat) (o : binary_op) (D : list string)
    (x y : value num) (reg reg' : registry num) (v : value num) :
  over_dims D x → over_dims D y →
  apply frozenset_iter fuel (VBinary o) [x; y] reg = Ok (v, reg') →
  over_dims D v.
Proof.
  intros (f & -> & <- & Hf & Hcf) (g & -> & Hg & _ & _).
  destruct fuel as [|fuel]; [done|]. rewrite apply_S. unfold apply_binary.
  destruct o; try done; by apply pointwise_binary_same_dims.
Qed.

Lemma reduce_dim_dims (fuel : nat) (o : binary_op) (f : funsor num) (x : string)
    (size : nat) (reg reg' : registry num) (v : value num) :
  wf f → concrete f → x ∈ f_dims f →
  reduce_dim (apply frozenset_iter fuel) (VBinary o) f x size reg = Ok (v, reg') →
  over_dims (filter (fun d => d ≠ x) (f_dims f)) v.
Proof.
  intros Hwf Hconc Hx. unfold reduce_dim. destruct size as [|size]; [done|].
  unfold bind at 1.
  destruct (call f [] [(x, VNum (num_of_Z 0))] reg) as [[first reg1]|] eqn:Hfirst; [|done].
  apply call_number_dims in Hfirst; [|done..].
  generalize (seq 1 size). intros l. revert first reg1 Hfirst.
  induction l as [|i l IH]; intros acc reg1 Hacc; simpl.
  - unfold ret. by intros [= <- <-].
  - unfold bind at 1. unfold bind at 1.
    destruct (call f [] _ reg1) as [[item reg2]|] eqn:Hitem; [|done].
    apply call_number_dims in Hitem; [|done..].
    destruct (apply frozenset_iter fuel _ _ reg2) as [[acc' reg3]|] eqn:Happ; [|done].
    apply IH. eapply apply_binary_same_dims; [exact Hacc | exact Hitem | exact Happ].
Qed.

Lemma reduce_rounds_dims (fuel : nat) (o : binary_op) (l : list string)
    (D : list string) (acc : value num) (reg reg' : registry num) (v : value num) :
  over_dims D acc →
  foldMM (reduce_round (apply frozenset_iter fuel) (VBinary o)) l acc reg = Ok (v, reg') →
  over_dims (filter (fun d => d ∉ l) D) v.
Proof.
  revert D acc reg. induction l as [|x l IH]; intros D acc reg Hacc; simpl.
  - unfold ret. intros [= <- <-]. rewrite filter_all; [done|]. intros d _. apply not_elem_of_nil.
  - unfold bind at 1.
    destruct (reduce_round _ _ acc x reg) as [[acc' reg1]|] eqn:Hround; [|done].
    intros Hrest. destruct Hacc as (f & -> & <- & Hf & Hcf).
    unfold reduce_round, bind, lift in Hround.
    destruct (OD.get x (f_schema f)) as [[size | tag]|] eqn:Hget; simpl in Hround;
      [|done|done].
    assert (Hx : x ∈ f_dims f) by (by eapply schema_of_dims).
    apply reduce_dim_dims in Hround; [|done..].
    apply (IH _ _ _ Hround) in Hrest.
    rewrite list_filter_filter in Hrest.
    erewrite filter_ext_elem; [exact Hrest|].
    intros d _. simpl. rewrite elem_of_cons. split.
    + intros Hn. split; [intros ?; apply Hn; by right | intros ->; apply Hn; by left].
    + intros [Hl Hne] [-> | Hin]; done.
Qed.

Lemma Funsor_reduce_dims (fuel : nat) (self : funsor num) (o : binary_op)
    (dims : option (gset string)) (reg reg' : registry num) (v : value num) :
  wf self → concrete self →
  Funsor_reduce frozenset_iter (apply frozenset_iter fuel) self (VBinary o) dims reg
    = Ok (v, reg') →
  ∃ f, v = VFunsor f
     ∧ f_dims f = match dims with
                  | None => []
                  | Some ds => filter (fun d => d ∉ ds) (f_dims self)
                  end.
Proof.
  intros Hwf Hconc Hred. unfold Funsor_reduce in Hred.
  apply reduce_rounds_dims with (D := f_dims self) in Hred; [|by exists self].
  destruct Hred as (f & -> & Hdims & _). exists f. split; [done|]. rewrite Hdims.
  destruct dims as [ds|].
  - apply filter_ext_elem. intros d Hd. rewrite frozenset_iter_perm.
    rewrite elem_of_elements, elem_of_intersection, elem_of_list_to_set. tauto.
  - apply filter_none. intros d Hd Hn. apply Hn. rewrite frozenset_iter_perm.
    rewrite elem_of_elements. by apply elem_of_list_to_set.
Qed.

(** X8: when [reduce(op, dims)] on a [Function] or a [Tensor] returns, the
    result is a funsor whose dims are those of the receiver without the
    names in [dims], in their order (no dims at all when [dims] is [None]),
    for the torch reductions of [Tensor.reduce] and for the loop of
    [Funsor.reduce] alike. *)
Theorem reduce_removes_dims (fuel : nat) (self : funsor num) (o : binary_op)
    (dims : option (gset string)) (reg reg' : registry num) (v : value num) :
  wf self → concrete self →
  reduce_ frozenset_iter (apply frozenset_iter fuel) self (VBinary o) dims reg
    = Ok (v, reg') →
  ∃ f, v = VFunsor f
     ∧ f_dims f = match dims with
                  | None => []
                  | Some ds => filter (fun d => d ∉ ds) (f_dims self)
                  end.
Proof.
  intros Hwf Hconc.
  destruct self as [name size | sdims sshape sfn | sdims sdata]; [done | |].
  - by apply Funsor_reduce_dims.
  - unfold reduce_, Tensor_reduce.
    destruct (in_REDUCE_OP_TO_TORCH o); [|by apply Funsor_reduce_dims].
    destruct dims as [ds|].
    + case_decide as Hempty.
      * intros [= <- <-]. eexists. split; [done|]. simpl.
        symmetry. apply filter_all. intros d Hd Hds.
        apply (not_elem_of_empty (C:=gset string) d). rewrite <- Hempty.
        apply elem_of_intersection. split; [done | by apply elem_of_list_to_set].
      * unfold lift. destruct (rbind _ _) as [r|] eqn:Hr; [|done]. intros [= <- <-].
        apply rbind_Ok in Hr as (data & _ & (f & Hinit & [= <-])%rbind_Ok).
        apply Tensor_init_dims in Hinit as [t ->].
        eexists. split; [done|]. simpl. apply filter_ext_elem. intros d Hd.
        rewrite elem_of_intersection, elem_of_list_to_set. tauto.
    + unfold lift. destruct (rbind _ _) as [r|] eqn:Hr; [|done]. intros [= <- <-].
      apply rbind_Ok in Hr as (data & _ & (f & Hinit & [= <-])%rbind_Ok).
      apply Tensor_init_dims in Hinit as [t ->].
      by eexists.
Qed.
End ReduceDims.

Section ArgreduceFacts.
Import Torch Terms.
Context {num : Type} `{Numeric num}.
Variable frozenset_iter : gset string → list string.
Variable apply' : value num → list (value num) → M num (value num).
Variable user_fn : nat → list (value num) → list (string * value num) → M num (value num).

Lemma Tensor_argreduce_raises (tdims : list string) (tdata : array num)
    (op : binary_op) (dims : gset string) (reg : registry num) :
  dims ∩ list_to_set tdims ≠ ∅ →
  ∃ e, Tensor_argreduce frozenset_iter (Tensor tdims tdata) op dims reg = Raise e.
Proof.
  intros Hne. unfold Tensor_argreduce. cbn [f_dims].
  rewrite decide_False by done.
  destruct op; try (by eexists); case_decide; try (by eexists).
  unfold bind, lift.
  destruct (of_option _ _) as [pos|]; [|by eexists].
  destruct (ashape tdata !! pos) as [[|n]|]; by eexists.
Qed.

Lemma Funsor_materialize_dims (self : funsor num) (reg reg' : registry num)
    (m : value num) :
  Funsor_materialize apply' user_fn self reg = Ok (m, reg') →
  ∃ t, m = VFunsor (Tensor (f_dims self) t).
Proof.
  unfold Funsor_materialize, bind.
  destruct (lift _ reg) as [[sizes reg1]|]; [|done].
  destruct (call self _ [] reg1) as [[applied reg2]|]; [|done].
  destruct (item apply' user_fn applied reg2) as [[data reg3]|]; [|done].
  unfold lift. destruct (rbind _ _) as [r|] eqn:Hr; [|done]. intros [= <- <-].
  apply rbind_Ok in Hr as (f & Hinit & [= <-]).
  apply Tensor_init_dims in Hinit as [t ->]. by exists t.
Qed.

(** X9: [argreduce] computes no reduction. When none of [dims] is a dim of
    the funsor it returns the empty dictionary and the funsor itself; in
    every other case it raises, for every operator and for each of the three
    classes: whenever [argreduce] returns, it has returned that pair. *)
Theorem argreduce_never_reduces (self : funsor num) (op : binary_op)
    (dims : gset string) (reg : registry num) :
  (dims ∩ list_to_set (f_dims self) = ∅ →
   argreduce frozenset_iter apply' user_fn self op dims reg
     = Ok (([], VFunsor self), reg))
  ∧ ∀ r reg',
      argreduce frozenset_iter apply' user_fn self op dims reg = Ok (r, reg') →
      dims ∩ list_to_set (f_dims self) = ∅ ∧ r = ([], VFunsor self) ∧ reg' = reg.
Proof.
  assert (Hreturns : dims ∩ list_to_set (f_dims self) = ∅ →
            argreduce frozenset_iter apply' user_fn self op dims reg
              = Ok (([], VFunsor self), reg)).
  { intros Hempty.
    destruct self as [name size | sdims sshape sfn | sdims sdata];
      unfold argreduce, Funsor_argreduce, Function_argreduce, Tensor_argreduce;
      by rewrite decide_True. }
  split; [exact Hreturns|].
  - intros r reg'.
    destruct (decide (dims ∩ list_to_set (f_dims self) = ∅)) as [Hempty|Hne].
    { rewrite (Hreturns Hempty). by intros [= <- <-]. }
    destruct self as [name size | sdims sshape sfn | sdims sdata].
    + unfold argreduce, Funsor_argreduce. by rewrite decide_False.
    + unfold argreduce, Function_argreduce. rewrite decide_False by done.
      unfold bind, materialize.
      destruct (Funsor_materialize _ _ _ reg) as [[m reg1]|] eqn:Hm; [|done].
      apply Funsor_materialize_dims in Hm as [t ->].
      destruct (Tensor_argreduce_raises (f_dims (Function sdims sshape sfn)) t op
                  (dims ∩ list_to_set (f_dims (Function sdims sshape sfn))) reg1)
        as [e He].
      { intros Hempty. apply Hne. rewrite <- Hempty.
        apply set_eq. intros x. rewrite !elem_of_intersection. tauto. }
      by rewrite He.
    + unfold argreduce.
      destruct (Tensor_argreduce_raises sdims sdata op dims reg Hne) as [e He].
      by rewrite He.
Qed.
End ArgreduceFacts.

Section TermWitnesses.
Import Torch Terms TermExamples.

Lemma Tensor_rename_no_effect_witness :
  Tensor_call t_i [] [("i", VStr "j")] = Ok (VFunsor t_i).
Proof.
  apply (Tensor_rename_no_effect ["i"] (mkArray [2] [1; 2]%Z) "i" "j").
  split; [apply NoDup_singleton | reflexivity].
Defined.


Lemma pointwise_binary_merges_witness :
  ∃ f, VFunsor (Function ["i"; "j"] [Int 2; Int 2]
                  (fn_broadcast ["i"; "j"] f_i f_j (VBinary op_mul))) = VFunsor f
     ∧ f_dims f = f_dims f_i ++ filter (fun d => d ∉ f_dims f_i) (f_dims f_j).
Proof.
  apply (pointwise_binary_merges (apply elements 3) f_i f_j (VBinary op_mul)
           empty_registry empty_registry).
  - split; [apply NoDup_singleton | reflexivity].
  - split; [apply NoDup_singleton | reflexivity].
  - by vm_compute.
Defined.

Lemma reduce_removes_dims_witness :
  ∃ f, VFunsor (Tensor [] (mkArray [] [3%Z])) = VFunsor f
     ∧ f_dims f = filter (fun d => d ∉ ({["i"; "zz"]} : gset string)) (f_dims t_i).
Proof.
  apply (reduce_removes_dims elements (fun s => reflexivity _) 3 t_i op_add
           (Some {["i"; "zz"]}) empty_registry empty_registry).
  - split; [apply NoDup_singleton | reflexivity].
  - exact I.
  - by vm_compute.
Defined.

Lemma argreduce_never_reduces_witness :
  argreduce elements (apply elements 3) (fun _ _ _ => raise TypeError) t_i op_max
    {["zz"]} empty_registry = Ok (([], VFunsor t_i), empty_registry).
Proof.
  apply (argreduce_never_reduces elements (apply elements 3)
           (fun _ _ _ => raise TypeError) t_i op_max {["zz"]} empty_registry).
  by vm_compute.
Defined.
End TermWitnesses.

Section PartitionTotal.
Context {F Op R : Type} `{API : FunsorAPI F Op R}.
Import SumProduct.
Variables (terms : list F) (sum_vars : gset string).

Lemma append_to_adj_NoDup (g : list (@node F * list (@node F))) (k x : @node F) :
  adj_NoDup g → ¬ has_edge g k x → adj_NoDup (append_to k x g).
Proof.
  intros Hg Hfresh k' adj. rewrite OD_get_append_to. case_decide as Hk; [|apply Hg].
  subst k'. intros [= <-]. apply NoDup_app. split; [|split; [|apply NoDup_singleton]].
  - destruct (OD.get k g) as [old|] eqn:Hget; simpl; [by eapply Hg | constructor].
  - intros y Hy ->%list_elem_of_singleton. apply Hfresh.
    destruct (OD.get k g) as [old|] eqn:Hget; simpl in Hy; [by exists old|].
    by apply elem_of_nil in Hy.
Qed.

Lemma step_dim_edges (t : F) (ds : list string) (acc : list (@node F * list (@node F)))
    (k u : @node F) :
  has_edge (fold_left (fun acc dim =>
              if decide (dim ∈ sum_vars)
              then append_to (NDim dim) (NTerm t) (append_to (NTerm t) (NDim dim) acc)
              else acc) ds acc) k u
  ↔ has_edge acc k u
    ∨ ∃ d, d ∈ ds ∧ d ∈ sum_vars
           ∧ ((k = NTerm t ∧ u = NDim d) ∨ (k = NDim d ∧ u = NTerm t)).
Proof.
  revert acc. induction ds as [|d ds IH]; intros acc; simpl.
  - split; [by left|]. intros [? | (d & ?%elem_of_nil & _)]; done.
  - rewrite IH. case_decide as Hd.
    + rewrite !has_edge_append_to. split.
      * intros [[[He | [-> ->]] | [-> ->]] | (d' & Hd' & Hp)].
        -- by left.
        -- right. exists d. split; [left|]. split; [done|]. by left.
        -- right. exists d. split; [left|]. split; [done|]. by right.
        -- right. exists d'. split; [by right | done].
      * intros [He | (d' & [-> | Hd']%elem_of_cons & Hp)].
        -- left. left. by left.
        -- destruct Hp as [_ [[-> ->] | [-> ->]]]; left; [left; by right | by right].
        -- right. by exists d'.
    + split.
      * intros [He | (d' & Hd' & Hp)]; [by left|]. right. exists d'. split; [by right|done].
      * intros [He | (d' & [-> | Hd']%elem_of_cons & Hp)]; [by left | |].
        -- by destruct Hp as [? _].
        -- right. by exists d'.
Qed.

Lemma step_dim_adj_NoDup (t : F) (ds : list string)
    (acc : list (@node F * list (@node F))) :
  NoDup ds →
  (∀ d, d ∈ ds → ¬ has_edge acc (NTerm t) (NDim d) ∧ ¬ has_edge acc (NDim d) (NTerm t)) →
  adj_NoDup acc →
  adj_NoDup (fold_left (fun acc dim =>
               if decide (dim ∈ sum_vars)
               then append_to (NDim dim) (NTerm t) (append_to (NTerm t) (NDim dim) acc)
               else acc) ds acc).
Proof.
  revert acc. induction ds as [|d ds IH]; intros acc Hnd Hfresh Hacc; simpl; [done|].
  apply NoDup_cons in Hnd as [Hd Hnd].
  destruct (Hfresh d) as [Hf1 Hf2]; [left|].
  case_decide as Hsv.
  - apply IH; [done| |].
    + intros d' Hd'. destruct (Hfresh d') as [Hf1' Hf2']; [by right|].
      rewrite !has_edge_append_to. split.
      * intros [[He | [_ [= ->]]] | [[=] _]]; done.
      * intros [[He | [[=] _]] | [[= ->] _]]; done.
    + apply append_to_adj_NoDup; [by apply append_to_adj_NoDup|].
      rewrite has_edge_append_to. intros [He | [[=] _]]. done.
  - apply IH; [done | | done]. intros d' Hd'. apply Hfresh. by right.
Qed.

Lemma build_neighbors_adj_NoDup :
  NoDup terms → (∀ t, t ∈ terms → NoDup (inputs t)) →
  adj_NoDup (build_neighbors terms sum_vars).
Proof.
  intros Hterms Hinputs. unfold build_neighbors.
  assert (Hinit : ∀ (l : list F) (acc : list (@node F * list (@node F))),
            (∀ k adj, OD.get k acc = Some adj → adj = []) →
            ∀ k adj, OD.get k (fold_left (fun acc t => OD.set (NTerm t) [] acc) l acc)
                     = Some adj → adj = []).
  { induction l as [|t l IH]; intros acc Hacc; simpl; [done|].
    apply IH. intros k adj. rewrite OD_get_set. case_decide; [by intros [= <-]|].
    apply Hacc. }
  set (acc0 := fold_left (fun acc t => OD.set (NTerm t) [] acc) terms []).
  assert (H0 : ∀ k adj, OD.get k acc0 = Some adj → adj = []).
  { apply Hinit. intros k adj. done. }
  assert (Hmain : ∀ (l : list F) (acc : list (@node F * list (@node F))),
            NoDup l → (∀ t, t ∈ l → NoDup (inputs t)) →
            (∀ t d, t ∈ l →
               ¬ has_edge acc (NTerm t) (NDim d) ∧ ¬ has_edge acc (NDim d) (NTerm t)) →
            adj_NoDup acc →
            adj_NoDup (fold_left (fun acc term =>
              fold_left (fun acc dim =>
                if decide (dim ∈ sum_vars)
                then append_to (NDim dim) (NTerm term)
                       (append_to (NTerm term) (NDim dim) acc)
                else acc) (inputs term) acc) l acc)).
  { induction l as [|t l IH]; intros acc Hnd Hin Hfresh Hacc; simpl; [done|].
    apply NoDup_cons in Hnd as [Ht Hnd].
    apply IH; [done | intros t' Ht'; apply Hin; by right | |].
    - intros t' d Ht'. destruct (Hfresh t' d) as [Hf1 Hf2]; [by right|].
      rewrite !step_dim_edges. split.
      + intros [He | (d' & _ & _ & [[[= ->] _] | [[=] _]])]; done.
      + intros [He | (d' & _ & _ & [[[=] _] | [_ [= ->]]])]; done.
    - apply step_dim_adj_NoDup; [apply Hin; left | | done].
      intros d _. apply Hfresh. left. }
  apply Hmain; [done | done | |].
  - intros t d _. split; intros (adj & Hget & Hu); apply H0 in Hget; subst adj;
      by apply elem_of_nil in Hu.
  - intros k adj Hget. apply H0 in Hget as ->. constructor.
Qed.

Lemma build_neighbors_closed : closed_graph (build_neighbors terms sum_vars).
Proof.
  intros k adj u Hin Hu.
  assert (He : has_edge (build_neighbors terms sum_vars) k u).
  { exists adj. split; [|done]. apply OD_elem_get; [apply build_neighbors_NoDup | done]. }
  apply build_neighbors_edges in He. split.
  - assert (He' : edge_of_graph terms sum_vars u k).
    { destruct k, u; done. }
    apply build_neighbors_edges in He' as (a & Hget & _).
    by eapply OD_get_Some_keys.
  - intros ->. by destruct k.
Qed.

Lemma OD_pop_key {K V} `{EqDecision K} (k : K) (d : list (K * V)) :
  k ∈ OD.keys d → ∃ v d', OD.pop k d = Some (v, d').
Proof.
  intros Hk. apply OD_keys_get in Hk as (v & Hv & _).
  unfold OD.pop. rewrite Hv. by eexists; eexists.
Qed.

Lemma grow_step_fresh (adj c p : list (@node F)) :
  ∃ new,
    fold_left (fun '(c, p) u =>
      if decide (u ∈ c) then (c, p) else (c ++ [u], p ++ [u])) adj (c, p)
    = (c ++ new, p ++ new)
    ∧ (∀ w, w ∈ adj → w ∈ c ++ new)
    ∧ (NoDup c → NoDup (c ++ new))
    ∧ ∀ w, w ∈ new → w ∈ adj.
Proof.
  revert c p. induction adj as [|u adj IH]; intros c p; simpl.
  - exists []. rewrite !app_nil_r. split; [done|].
    split; [by intros w ?%elem_of_nil|]. split; [done | by intros w ?%elem_of_nil].
  - case_decide as Hu.
    + destruct (IH c p) as (new & Hnew & Hadj & Hnd & Hsub). exists new.
      split; [done|]. split; [|split; [done|]].
      * intros w [-> | Hw]%elem_of_cons; [apply elem_of_app; by left | by apply Hadj].
      * intros w Hw. right. by apply Hsub.
    + destruct (IH (c ++ [u]) (p ++ [u])) as (new & Hnew & Hadj & Hnd & Hsub).
      exists (u :: new). rewrite Hnew. rewrite <- !app_assoc. split; [done|].
      split; [|split].
      * intros w [-> | Hw]%elem_of_cons.
        -- apply elem_of_app. right. left.
        -- apply Hadj in Hw. by rewrite <- app_assoc in Hw.
      * intros Hc. rewrite <- app_assoc in Hnd. apply Hnd.
        apply NoDup_app. split; [done|]. split; [|apply NoDup_singleton].
        intros x Hx ->%list_elem_of_singleton. done.
      * intros w [-> | Hw]%elem_of_cons; [left | right; by apply Hsub].
Qed.

Lemma grow_succeeds (start : list (@node F * list (@node F))) (fuel : nat)
    (N : list (@node F * list (@node F))) (c p : list (@node F)) :
  closed_graph start → length N < fuel →
  grow_inv start N c p → NoDup p → (∀ u, u ∈ p → u ∈ OD.keys N) →
  ∃ N' C, grow fuel N c p = Ok (N', C).
Proof.
  intros Hclosed. revert N c p.
  induction fuel as [|fuel IH]; intros N c p Hfuel Hinv Hndp Hpk; [lia|].
  simpl. destruct (list_pop p) as [[v q]|] eqn:Hpop; [|by eexists; eexists].
  apply list_pop_app in Hpop as ->.
  destruct (OD_pop_key v N) as (adj & N1 & Hpopn).
  { apply Hpk. apply elem_of_app. right. left. }
  rewrite Hpopn.
  destruct (grow_step_fresh adj c q) as (new & Hfold & Hadj & Hndc & Hnew).
  rewrite Hfold.
  pose proof (grow_inv_step _ _ _ _ _ _ _ _ Hinv Hpopn Hadj Hndc) as Hinv1.
  destruct Hinv as (Hsub & Hnd & Hcover & Hpend & Hnodes & Hc).
  destruct (OD_pop_keys _ _ _ _ Hnd Hpopn) as (Hnd1 & Hv1 & Hkeys & Hkeys1).
  pose proof (OD_pop_length _ _ _ _ Hpopn) as Hlen.
  apply OD_pop_elem in Hpopn as [Hvadj Hsub1].
  assert (Hvc : v ∈ c) by (apply Hpend, elem_of_app; right; left).
  assert (Hfresh : ∀ w, w ∈ new → w ∉ c).
  { intros w Hw Hwc. specialize (Hndc Hc). apply NoDup_app in Hndc as (_ & Hdisj & _).
    by apply (Hdisj w Hwc). }
  apply NoDup_app in Hndp as (Hndq & Hqv & _).
  apply IH; [lia | done | |].
  - apply NoDup_app. split; [done|]. split.
    + intros w Hwq Hwn. apply (Hfresh w Hwn). apply Hpend. apply elem_of_app. by left.
    + specialize (Hndc Hc). by apply NoDup_app in Hndc as (_ & _ & Hn).
  - intros u [Hu | Hu]%elem_of_app.
    + assert (Huk : u ∈ OD.keys N) by (apply Hpk, elem_of_app; by left).
      destruct (Hkeys u Huk) as [Huv | Hk]; [|done].
      exfalso. apply (Hqv u Hu). subst u. left.
    + assert (Huk : u ∈ OD.keys start).
      { eapply Hclosed; [apply Hsub; exact Hvadj | by apply Hnew]. }
      destruct (Hcover u Huk) as [Hk | Hk]; [|by apply Hfresh in Hu].
      destruct (Hkeys u Hk) as [-> | Hk1]; [by apply Hfresh in Hu | done].
Qed.

Lemma grow_inv_start (N1 : list (@node F * list (@node F))) (v0 : @node F)
    (p0 : list (@node F)) :
  NoDup (OD.keys (N1 ++ [(v0, p0)])) →
  grow_inv (N1 ++ [(v0, p0)]) N1 (fold_left oset_add p0 [v0]) p0.
Proof.
  intros Hnd.
  assert (HkeysN : OD.keys (N1 ++ [(v0, p0)]) = OD.keys N1 ++ [v0]).
  { unfold OD.keys. by rewrite map_app. }
  rewrite HkeysN in Hnd. apply NoDup_app in Hnd as (Hnd1 & Hv0 & _).
  destruct (oset_add_fold_spec p0 [v0]) as [Hc0 Hndc0].
  split; [|split; [|split; [|split; [|split]]]].
  - intros kv Hkv. apply elem_of_app. by left.
  - done.
  - intros k. rewrite HkeysN, elem_of_app, list_elem_of_singleton.
    intros [Hk | ->]; [by left|]. right. apply Hc0. left. left.
  - intros u Hu. apply Hc0. by right.
  - intros u [->%list_elem_of_singleton | Hu]%Hc0; [|by left].
    right. split; [intros Hk; apply (Hv0 v0 Hk); left|].
    exists p0. split; [apply elem_of_app; right; left|].
    intros w Hw. apply Hc0. by right.
  - apply Hndc0, NoDup_singleton.
Qed.

Lemma components_loop_succeeds (fuel : nat) (N : list (@node F * list (@node F)))
    (comps : list (list F * gset string)) :
  adj_NoDup (build_neighbors terms sum_vars) →
  length N ≤ fuel →
  (∀ kv, kv ∈ N → kv ∈ build_neighbors terms sum_vars) →
  NoDup (OD.keys N) → closed_graph N →
  ∃ result, components_loop fuel N comps = Ok result.
Proof.
  intros Hadj. revert N comps.
  induction fuel as [|fuel IH]; intros N comps Hfuel Hsub Hnd Hclosed;
    cbn [components_loop].
  - destruct N as [|kv N]; [by eexists | simpl in Hfuel; lia].
  - destruct (OD.popitem N) as [[[v0 p0] N1]|] eqn:Hpop; [|by eexists].
    apply OD_popitem_app in Hpop. subst N.
    assert (HkeysN : OD.keys (N1 ++ [(v0, p0)]) = OD.keys N1 ++ [v0]).
    { unfold OD.keys. by rewrite map_app. }
    assert (Hlast : (v0, p0) ∈ N1 ++ [(v0, p0)]) by (apply elem_of_app; right; left).
    assert (Hget0 : OD.get v0 (build_neighbors terms sum_vars) = Some p0).
    { apply OD_elem_get; [apply build_neighbors_NoDup | by apply Hsub]. }
    pose proof (grow_inv_start N1 v0 p0 Hnd) as Hinv.
    destruct (grow_succeeds (N1 ++ [(v0, p0)]) (S (length N1)) N1
                (fold_left oset_add p0 [v0]) p0) as (N2 & C & Hgrow);
      [done | lia | done | by eapply Hadj | |].
    { intros u Hu. destruct (Hclosed v0 p0 u Hlast Hu) as [Hk Hne].
      rewrite HkeysN in Hk. apply elem_of_app in Hk as [Hk | Hk%list_elem_of_singleton];
        done. }
    rewrite Hgrow. cbn [rbind].
    pose proof (grow_fuel (S (length N1)) N1 (fold_left oset_add p0 [v0]) p0) as Hlen.
    rewrite Hgrow in Hlen. specialize (Hlen ltac:(lia)).
    rewrite length_app in Hfuel. simpl in Hfuel.
    apply (grow_inv_result (N1 ++ [(v0, p0)])) in Hgrow; [|done].
    destruct Hgrow as (Hsub2 & Hnd2 & Hcover2 & _ & Hnodes & HndC).
    apply IH; [lia | | done |].
    + intros kv Hkv. by apply Hsub, Hsub2.
    + intros k adj u Hk Hu.
      destruct (Hclosed k adj u (Hsub2 _ Hk) Hu) as [Huk Hne]. split; [|done].
      destruct (Hcover2 u Huk) as [Hu2 | HuC]; [done|]. exfalso.
      destruct (Hnodes u HuC) as [?%elem_of_nil | (_ & adju & Hadju & Hw)]; [done|].
      assert (He : has_edge (build_neighbors terms sum_vars) k u).
      { exists adj. split; [|done].
        apply OD_elem_get; [apply build_neighbors_NoDup | by apply Hsub, Hsub2]. }
      apply build_neighbors_edges in He.
      assert (He' : edge_of_graph terms sum_vars u k) by (destruct k, u; done).
      apply build_neighbors_edges in He' as (a & Hget & Hka).
      assert (a = adju) as ->.
      { apply Hsub in Hadju.
        apply (OD_elem_get _ _ _ (build_neighbors_NoDup terms sum_vars)) in Hadju.
        congruence. }
      destruct (Hnodes k (Hw k Hka)) as [?%elem_of_nil | (Hnk & _)]; [done|].
      apply Hnk. by eapply OD_elem_keys.
Qed.

(** X10: for terms that are pairwise distinct, each with its inputs named
    once, [_partition] returns its components: no [neighbors.pop(v)] of
    the inner loop meets a missing key. *)
Theorem partition_total :
  NoDup terms → (∀ t, t ∈ terms → NoDup (inputs t)) →
  ∃ comps, _partition terms sum_vars = Ok comps.
Proof.
  intros Hterms Hinputs. unfold _partition.
  apply components_loop_succeeds.
  - by apply build_neighbors_adj_NoDup.
  - done.
  - done.
  - apply build_neighbors_NoDup.
  - apply build_neighbors_closed.
Qed.
End PartitionTotal.

Section TotalWitness.
Import Torch DenseTensor SumProduct Examples.

Lemma partition_total_witness :
  ∃ comps, _partition [k_x; g_ax; h_by] {["x"; "y"]} = Ok comps.
Proof.
  apply (partition_total (API:=Tensor_API) [k_x; g_ax; h_by] {["x"; "y"]}).
  - repeat (apply NoDup_cons; split; [by apply (bool_decide_unpack _)|]).
    apply NoDup_nil_2.
  - intros t Ht.
    assert (Hall : Forall (fun t : Tensor Z => NoDup (inputs t)) [k_x; g_ax; h_by]).
    { repeat constructor; by apply (bool_decide_unpack _). }
    by apply (proj1 (Forall_forall _ _) Hall t Ht).
Defined.
End TotalWitness.

Section DictOrder.
Context {K V : Type} `{EqDecision K}.

Lemma OD_set_same (k : K) (v : V) (d : list (K * V)) :
  OD.get k d = Some v → OD.set k v d = d.
Proof.
  induction d as [|[k0 v0] d IH]; simpl; [done|].
  destruct (decide (k = k0)) as [-> | Hne]; [by intros [= ->]|].
  intros Hget. by rewrite IH.
Qed.

Lemma OD_set_new (k : K) (v : V) (d : list (K * V)) :
  k ∉ OD.keys d → OD.set k v d = d ++ [(k, v)].
Proof.
  unfold OD.keys. induction d as [|[k0 v0] d IH]; simpl; [done|].
  intros Hk. apply not_elem_of_cons in Hk as [Hne Hk].
  rewrite decide_False by done. by rewrite IH.
Qed.

Lemma OD_popitem_snoc (kv : K * V) (d : list (K * V)) :
  OD.popitem (d ++ [kv]) = Some (kv, d).
Proof. unfold OD.popitem. rewrite rev_app_distr. simpl. by rewrite rev_involutive. Qed.
End DictOrder.

Section FirstOccurrences.
Context {A : Type} `{EqDecision A}.

Lemma elem_of_rev (x : A) (l : list A) : x ∈ rev l ↔ x ∈ l.
Proof. rewrite !list_elem_of_In. symmetry. apply in_rev. Qed.

Lemma remove_dups_id (l : list A) : NoDup l → remove_dups l = l.
Proof.
  induction l as [|x l IH]; simpl; [done|].
  intros [Hx Hnd]%NoDup_cons. case_decide; [done|]. by rewrite IH.
Qed.

Lemma first_occurrences_snoc (l : list A) (x : A) :
  rev (remove_dups (rev (l ++ [x])))
  = if decide (x ∈ l) then rev (remove_dups (rev l))
    else rev (remove_dups (rev l)) ++ [x].
Proof.
  rewrite rev_app_distr. simpl.
  destruct (decide (x ∈ l)) as [Hx | Hx]; case_decide as Hx'; try done.
  - exfalso. apply Hx'. by rewrite elem_of_rev.
  - exfalso. apply Hx. by rewrite elem_of_rev in Hx'.
Qed.

Lemma first_occurrences_elem (l : list A) (x : A) :
  x ∈ rev (remove_dups (rev l)) ↔ x ∈ l.
Proof. by rewrite elem_of_rev, elem_of_remove_dups, elem_of_rev. Qed.
End FirstOccurrences.

Section NothingToSum.
Context {F Op R : Type} `{API : FunsorAPI F Op R}.
Import SumProduct.

Lemma build_neighbors_isolated (terms : list F) (sum_vars : gset string) :
  (∀ t d, t ∈ terms → d ∈ inputs t → d ∉ sum_vars) →
  build_neighbors terms sum_vars
  = map (fun t => (NTerm t, [])) (rev (remove_dups (rev terms))).
Proof.
  intros Hnone. unfold build_neighbors.
  assert (Hmain : ∀ (l : list F) (acc : list (@node F * list (@node F))),
            (∀ t d, t ∈ l → d ∈ inputs t → d ∉ sum_vars) →
            fold_left (fun acc term =>
              fold_left (fun acc dim =>
                if decide (dim ∈ sum_vars)
                then append_to (NDim dim) (NTerm term)
                       (append_to (NTerm term) (NDim dim) acc)
                else acc) (inputs term) acc) l acc = acc).
  { induction l as [|t l IH]; intros acc Hl; simpl; [done|].
    assert (Hinner : ∀ ds (a : list (@node F * list (@node F))),
              (∀ d, d ∈ ds → d ∉ sum_vars) →
              fold_left (fun acc dim =>
                if decide (dim ∈ sum_vars)
                then append_to (NDim dim) (NTerm t) (append_to (NTerm t) (NDim dim) acc)
                else acc) ds a = a).
    { induction ds as [|d ds IHd]; intros a Hds; simpl; [done|].
      rewrite decide_False by (apply Hds; left). apply IHd.
      intros d' Hd'. apply Hds. by right. }
    rewrite Hinner by (intros d Hd; apply (Hl t d); [left | done]).
    apply IH. intros t' d Ht'. apply Hl. by right. }
  rewrite Hmain by done. clear Hmain Hnone.
  induction terms as [|t l IH] using rev_ind; [done|].
  rewrite fold_left_app. simpl. rewrite IH, first_occurrences_snoc.
  destruct (decide (t ∈ l)) as [Ht | Ht].
  - apply OD_set_same. apply OD_elem_get.
    + unfold OD.keys. rewrite map_map. simpl.
      apply NoDup_fmap_2; [by intros x y [= ->] |].
      rewrite <- Permutation_rev. apply NoDup_remove_dups.
    + apply list_elem_of_fmap. exists t. split; [done|].
      by apply first_occurrences_elem.
  - rewrite map_app. simpl. apply OD_set_new.
    unfold OD.keys. rewrite map_map. simpl.
    intros Hin. apply list_elem_of_fmap in Hin as (t' & Heq & Ht').
    injection Heq as <-. by rewrite first_occurrences_elem in Ht'.
Qed.

Lemma components_loop_isolated (fuel : nat) (ts : list F)
    (comps : list (list F * gset string)) :
  length ts ≤ fuel →
  components_loop fuel (map (fun t => (NTerm t, [])) ts) comps
  = Ok (comps ++ map (fun t => ([t], ∅)) (rev ts)).
Proof.
  revert fuel comps. induction ts as [|t ts IH] using rev_ind; intros fuel comps Hfuel.
  - destruct fuel; simpl; by rewrite app_nil_r.
  - rewrite length_app in Hfuel. simpl in Hfuel.
    destruct fuel as [|fuel]; [lia|].
    rewrite map_app. cbn [map components_loop]. rewrite OD_popitem_snoc.
    cbn [fold_left grow list_pop rev rbind omap is_term is_dim].
    rewrite IH by lia. rewrite rev_app_distr. simpl.
    by rewrite <- app_assoc.
Qed.

Lemma _partition_isolated (terms : list F) (sum_vars : gset string) :
  (∀ t d, t ∈ terms → d ∈ inputs t → d ∉ sum_vars) →
  _partition terms sum_vars
  = Ok (map (fun t => ([t], ∅)) (remove_dups (rev terms))).
Proof.
  intros Hnone. unfold _partition. rewrite build_neighbors_isolated by done.
  rewrite components_loop_isolated by (by rewrite length_map).
  by rewrite rev_involutive.
Qed.

(** X11: when no term has an input among [sum_vars], [_partition] returns
    one component per distinct term, holding that term alone and no
    variable, the components in the reverse order of the first occurrences:
    a term given twice is returned once. *)
Theorem partition_nothing_to_sum (terms : list F) (sum_vars : gset string) :
  (∀ t d, t ∈ terms → d ∈ inputs t → d ∉ sum_vars) →
  _partition terms sum_vars
  = Ok (map (fun t => ([t], ∅)) (remove_dups (rev terms))).
Proof. apply _partition_isolated. Qed.
End NothingToSum.

Section DictMap.
Context {K V W : Type} `{EqDecision K} (g : V → W).

Lemma OD_get_map (k : K) (d : list (K * V)) :
  OD.get k (map (fun b => (b.1, g b.2)) d) = g <$> OD.get k d.
Proof.
  induction d as [|[k0 v0] d IH]; simpl; [done|]. by destruct (decide (k = k0)).
Qed.

Lemma OD_set_map (k : K) (v : V) (d : list (K * V)) :
  map (fun b => (b.1, g b.2)) (OD.set k v d)
  = OD.set k (g v) (map (fun b => (b.1, g b.2)) d).
Proof.
  induction d as [|[k0 v0] d IH]; simpl; [done|].
  destruct (decide (k = k0)); simpl; [done | by rewrite IH].
Qed.

Lemma OD_remove_map (k : K) (d : list (K * V)) :
  map (fun b => (b.1, g b.2)) (OD.remove k d)
  = OD.remove k (map (fun b => (b.1, g b.2)) d).
Proof.
  induction d as [|[k0 v0] d IH]; simpl; [done|].
  destruct (decide (k = k0)); simpl; [done | by rewrite IH].
Qed.

Lemma OD_keys_map (d : list (K * V)) :
  OD.keys (map (fun b => (b.1, g b.2)) d) = OD.keys d.
Proof. unfold OD.keys. rewrite map_map. done. Qed.
End DictMap.

Section Buckets.
Context {K A : Type} `{EqDecision K} `{EqDecision A}.
Variable key : A → K.

Local Notation "'D'" := (fun l : list A => rev (remove_dups (rev l))).
Local Notation "'Dm'" := (fun b : K * list A => (b.1, rev (remove_dups (rev b.2)))).
Local Notation "'B'" := (fun l : list A =>
  fold_left (fun otf f => SumProduct.append_to (key f) f otf) l []).

Lemma get_append_to (otf : list (K * list A)) (k k' : K) (x : A) :
  OD.get k (SumProduct.append_to k' x otf)
  = if decide (k = k') then Some (default [] (OD.get k' otf) ++ [x]) else OD.get k otf.
Proof. unfold SumProduct.append_to. by rewrite OD_get_set. Qed.

Lemma buckets_elem (l : list A) :
  (∀ f, f ∈ l → ∃ fs, OD.get (key f) (B l) = Some fs ∧ f ∈ fs)
  ∧ (∀ o fs f, OD.get o (B l) = Some fs → f ∈ fs → f ∈ l).
Proof.
  induction l as [|x l [IH1 IH2]] using rev_ind.
  - split; [by intros f ?%elem_of_nil | done].
  - rewrite fold_left_app. simpl. split.
    + intros f Hf. rewrite get_append_to. case_decide as Hk.
      * eexists. split; [done|]. apply elem_of_app in Hf as [Hf | ->%list_elem_of_singleton].
        -- apply IH1 in Hf as (fs & Hget & Hfs). rewrite <- Hk, Hget. simpl.
           apply elem_of_app. by left.
        -- apply elem_of_app. right. left.
      * apply elem_of_app in Hf as [Hf | ->%list_elem_of_singleton]; [by apply IH1 | done].
    + intros o fs f. rewrite get_append_to. case_decide as Hk.
      * intros [= <-] [Hf | ->%list_elem_of_singleton]%elem_of_app;
          apply elem_of_app; [left | right; left].
        destruct (OD.get (key x) _) as [old|] eqn:Hget; simpl in Hf;
          [by eapply IH2 | by apply elem_of_nil in Hf].
      * intros Hget Hf. apply elem_of_app. left. by eapply IH2.
Qed.

Lemma buckets_first_occurrences (l : list A) :
  B (rev (remove_dups (rev l))) = map Dm (B l).
Proof.
  induction l as [|x l IH] using rev_ind; [done|].
  destruct (buckets_elem l) as [Hin Hsub].
  rewrite first_occurrences_snoc. rewrite (fold_left_app _ l). simpl.
  unfold SumProduct.append_to at 2. rewrite (OD_set_map (fun fs => rev (remove_dups (rev fs)))).
  simpl in IH. rewrite <- IH.
  destruct (decide (x ∈ l)) as [Hx | Hx].
  - destruct (Hin x Hx) as (fs & Hget & Hfs). rewrite Hget. simpl.
    symmetry. apply OD_set_same. rewrite IH.
    rewrite (OD_get_map (fun fs => rev (remove_dups (rev fs)))), Hget. simpl.
    f_equal. rewrite first_occurrences_snoc. by case_decide.
  - rewrite fold_left_app. simpl. unfold SumProduct.append_to at 1. f_equal.
    rewrite IH, (OD_get_map (fun fs => rev (remove_dups (rev fs)))).
    rewrite first_occurrences_snoc.
    destruct (OD.get (key x) _) as [old|] eqn:Hget; simpl.
    + match goal with |- context [if ?c then _ else _] => destruct c as [Hold | Hold] end;
        [|done]. exfalso. apply Hx. by eapply Hsub.
    + done.
Qed.
End Buckets.

Section NothingToSumEngine.
Context {F Op R : Type} `{API : FunsorAPI F Op R}.
Import SumProduct.
Variables (sum_op prod_op : Op) (eliminate plates : gset string).

Local Notation "'Dm'" :=
  (fun b : gset string * list F => (b.1, rev (remove_dups (rev b.2)))).
Local Notation "'dd'" := (fun st : state =>
  {| ordinal_to_factors := map Dm (ordinal_to_factors st); results := results st |}).
Local Notation "'lift'" := (fun r : result state =>
  match r with Ok s => Ok (dd s) | Raise e => Raise e end).

Lemma index_factors_nothing (svars : gset string) (factors : list F) :
  (∀ f, f ∈ factors → svars ∩ input_set f = ∅) →
  index_factors plates svars factors
  = (∅, fold_left (fun otf f => append_to (plates ∩ input_set f) f otf) factors []).
Proof.
  unfold index_factors. generalize (∅ : gmap string (gset string)).
  generalize (@nil (gset string * list F)).
  induction factors as [|f l IH]; intros otf vto Hl; simpl; [done|].
  unfold index_factor at 2. cbn [fst snd].
  rewrite (Hl f) by left. rewrite elements_empty. simpl.
  apply IH. intros f' Hf'. apply Hl. by right.
Qed.

Lemma build_ordinal_to_vars_empty : build_ordinal_to_vars ∅ = ∅.
Proof. unfold build_ordinal_to_vars. by rewrite map_to_list_empty. Qed.

Lemma recompute_ordinal_empty (remaining : gset string) :
  remaining ≠ ∅ → recompute_ordinal ∅ remaining = Raise KeyError.
Proof.
  intros Hne. unfold recompute_ordinal.
  destruct (elements remaining) as [|x l] eqn:Hel.
  - by apply elements_empty_inv, leibniz_equiv in Hel.
  - simpl. by rewrite lookup_empty.
Qed.

Lemma process_group_dedup (leaf : gset string) (st : state) (g : list F * gset string) :
  process_group sum_op prod_op eliminate plates ∅ leaf (dd st) g
  = lift (process_group sum_op prod_op eliminate plates ∅ leaf st g).
Proof.
  unfold process_group. destruct g as [gf gv].
  destruct (py_reduce _ gf) as [p|e]; [|done]. cbn [rbind].
  destruct (reduce p sum_op gv) as [f|e]; [|done]. cbn [rbind].
  case_decide as Hrem.
  - by destruct (reduce f prod_op _).
  - by rewrite recompute_ordinal_empty.
Qed.

Lemma foldM_process_group_dedup (leaf : gset string) (groups : list (list F * gset string))
    (st : state) :
  foldM (process_group sum_op prod_op eliminate plates ∅ leaf) groups (dd st)
  = lift (foldM (process_group sum_op prod_op eliminate plates ∅ leaf) groups st).
Proof.
  revert st. induction groups as [|g groups IH]; intros st; [done|].
  cbn [foldM]. rewrite process_group_dedup.
  destruct (process_group _ _ _ _ _ leaf st g) as [s|e]; [|done].
  cbn [rbind]. apply IH.
Qed.

Lemma process_leaf_dedup (st : state) :
  process_leaf sum_op prod_op eliminate plates ∅ ∅ (dd st)
  = lift (process_leaf sum_op prod_op eliminate plates ∅ ∅ st).
Proof.
  unfold process_leaf. cbn [ordinal_to_factors results].
  unfold choose_leaf. rewrite (OD_keys_map (fun fs : list F => rev (remove_dups (rev fs)))).
  destruct (py_max size _) as [leaf|]; [|done]. cbn [of_option rbind].
  unfold OD.pop. rewrite (OD_get_map (fun fs : list F => rev (remove_dups (rev fs)))).
  destruct (OD.get leaf _) as [fs|]; [|done]. cbn [fmap option_fmap option_map of_option rbind].
  rewrite lookup_empty. cbn [default].
  rewrite !_partition_isolated by (intros t d _ _; apply not_elem_of_empty).
  rewrite rev_involutive, (remove_dups_id (remove_dups _)) by apply NoDup_remove_dups.
  cbn [rbind].
  rewrite <- (OD_remove_map (fun fs : list F => rev (remove_dups (rev fs)))).
  apply (foldM_process_group_dedup leaf _
           {| ordinal_to_factors := OD.remove leaf (ordinal_to_factors st);
              results := results st |}).
Qed.

Lemma main_loop_dedup (fuel : nat) (st : state) :
  main_loop sum_op prod_op eliminate plates ∅ ∅ fuel (dd st)
  = main_loop sum_op prod_op eliminate plates ∅ ∅ fuel st.
Proof.
  revert st. induction fuel as [|fuel IH]; intros st.
  - destruct st as [[|b otf] rs]; done.
  - destruct st as [[|b otf] rs]; [done|].
    pose proof (process_leaf_dedup
                  {| ordinal_to_factors := b :: otf; results := rs |}) as Hpl.
    cbn [main_loop ordinal_to_factors results map] in Hpl |- *.
    rewrite Hpl. clear Hpl.
    destruct (process_leaf _ _ _ _ _ _ _) as [s|e]; [|done].
    cbn [rbind]. apply IH.
Qed.

Lemma partial_sum_product_dedup (fuel : nat) (factors : list F) :
  (∀ f, f ∈ factors → sum_vars eliminate plates ∩ input_set f = ∅) →
  partial_sum_product fuel sum_op prod_op factors eliminate plates
  = partial_sum_product fuel sum_op prod_op (rev (remove_dups (rev factors)))
      eliminate plates.
Proof.
  intros Hnone. unfold partial_sum_product.
  rewrite (index_factors_nothing _ factors) by done.
  rewrite (index_factors_nothing _ (rev (remove_dups (rev factors)))).
  2:{ intros f Hf. apply Hnone. by rewrite first_occurrences_elem in Hf. }
  rewrite build_ordinal_to_vars_empty.
  rewrite (buckets_first_occurrences (fun f => plates ∩ input_set f) factors).
  symmetry.
  apply (main_loop_dedup fuel
           {| ordinal_to_factors :=
                fold_left (fun otf f => append_to (plates ∩ input_set f) f otf) factors [];
              results := [] |}).
Qed.
End NothingToSumEngine.

Section RepeatedTerm.
Context {F Op R : Type} `{API : FunsorAPI F Op R}.
Import SumProduct.

(** Once a node is pending twice, or is pending after it left the
    dictionary, the inner loop of [_partition] ends in [KeyError]. *)
Lemma grow_repeated (fuel : nat) (N : list (@node F * list (@node F)))
    (c p : list (@node F)) :
  NoDup (OD.keys N) → (¬ NoDup p ∨ ∃ u, u ∈ p ∧ u ∉ OD.keys N) →
  length N < fuel → grow fuel N c p = Raise KeyError.
Proof.
  revert N c p. induction fuel as [|fuel IH]; intros N c p Hnd HJ Hfuel; [lia|].
  simpl. destruct (list_pop p) as [[v q]|] eqn:Hpop.
  2:{ apply list_pop_None in Hpop as ->. exfalso.
      destruct HJ as [HJ | (u & Hu & _)]; [apply HJ; constructor | by apply elem_of_nil in Hu]. }
  apply list_pop_app in Hpop as ->.
  destruct (OD.pop v N) as [[adj N1]|] eqn:Hpopn; [|done].
  destruct (OD_pop_keys _ _ _ _ Hnd Hpopn) as (Hnd1 & Hv1 & Hkeys & Hkeys1).
  pose proof (OD_pop_length _ _ _ _ Hpopn) as Hlen.
  apply OD_pop_elem in Hpopn as [Hvadj Hsub1].
  destruct (grow_step_spec adj c q) as (new & Hfold & _).
  rewrite Hfold. apply IH; [done | | lia].
  destruct HJ as [HJ | (u & Hu & Hk)].
  - destruct (decide (v ∈ q)) as [Hvq | Hvq].
    + right. exists v. split; [apply elem_of_app; by left | done].
    + left. intros Hq. apply NoDup_app in Hq as (Hq & _ & _). apply HJ.
      apply NoDup_app. split; [done|]. split; [|apply NoDup_singleton].
      intros x Hx ->%list_elem_of_singleton. done.
  - apply elem_of_app in Hu as [Hu | ->%list_elem_of_singleton].
    + right. exists u. split; [apply elem_of_app; by left|].
      intros Hk1. by apply Hk, Hkeys1.
    + exfalso. apply Hk. by eapply OD_elem_keys.
Qed.

Lemma count_append_to (g : list (@node F * list (@node F))) (k k' x u : @node F) :
  count_occ node_eq_dec (default [] (OD.get k (append_to k' x g))) u
  = count_occ node_eq_dec (default [] (OD.get k g)) u
    + (if decide (k = k' ∧ x = u) then 1 else 0).
Proof.
  rewrite OD_get_append_to. destruct (decide (k = k')) as [-> | Hne].
  - simpl. rewrite count_occ_app. f_equal. simpl.
    destruct (node_eq_dec x u) as [-> | Hxu].
    + by rewrite decide_True.
    + rewrite decide_False; [done | by intros [_ ?]].
  - rewrite decide_False; [lia | by intros [? _]].
Qed.

Lemma count_step_dims (t : F) (sum_vars : gset string) (k u : @node F) (ds : list string) :
  ∃ m, ∀ acc : list (@node F * list (@node F)),
    count_occ node_eq_dec
      (default [] (OD.get k (fold_left (fun acc dim =>
         if decide (dim ∈ sum_vars)
         then append_to (NDim dim) (NTerm t) (append_to (NTerm t) (NDim dim) acc)
         else acc) ds acc))) u
    = count_occ node_eq_dec (default [] (OD.get k acc)) u + m.
Proof.
  induction ds as [|d ds [m IH]]; simpl.
  - exists 0. intros acc. lia.
  - destruct (decide (d ∈ sum_vars)) as [Hd | Hd].
    + exists ((if decide (k = NTerm t ∧ NDim d = u) then 1 else 0)
              + (if decide (k = NDim d ∧ NTerm t = u) then 1 else 0) + m).
      intros acc. rewrite IH, !count_append_to. lia.
    + exists m. intros acc. apply IH.
Qed.

Lemma build_neighbors_dim_nonempty (terms : list F) (sum_vars : gset string)
    (d : string) (adj : list (@node F)) :
  OD.get (NDim d) (build_neighbors terms sum_vars) = Some adj → adj ≠ [].
Proof.
  unfold build_neighbors. revert adj.
  assert (Hinit : ∀ (l : list F) (acc : list (@node F * list (@node F))),
            OD.get (NDim d) acc = None →
            OD.get (NDim d) (fold_left (fun acc t => OD.set (NTerm t) [] acc) l acc)
            = None).
  { induction l as [|t l IH]; intros acc Hacc; simpl; [done|].
    apply IH. by rewrite OD_get_set, decide_False. }
  assert (Hmain : ∀ (l : list F) (acc : list (@node F * list (@node F))),
            (∀ adj, OD.get (NDim d) acc = Some adj → adj ≠ []) →
            ∀ adj, OD.get (NDim d) (fold_left (fun acc term =>
              fold_left (fun acc dim =>
                if decide (dim ∈ sum_vars)
                then append_to (NDim dim) (NTerm term)
                       (append_to (NTerm term) (NDim dim) acc)
                else acc) (inputs term) acc) l acc) = Some adj → adj ≠ []).
  { induction l as [|t l IH]; intros acc Hacc; simpl; [done|].
    apply IH. generalize (inputs t). intros ds. revert acc Hacc.
    induction ds as [|d' ds IHd]; intros acc Hacc; simpl; [done|].
    apply IHd. case_decide; [|done]. intros adj.
    rewrite !OD_get_append_to. case_decide.
    - intros [= <-]. by intros ?%app_eq_nil%proj2.
    - rewrite decide_False by done. apply Hacc. }
  apply Hmain. intros adj. by rewrite Hinit.
Qed.

Lemma _partition_repeated (t : F) (sum_vars : gset string) (d : string) :
  d ∈ inputs t → d ∈ sum_vars → _partition [t; t] sum_vars = Raise KeyError.
Proof.
  intros Hd Hsv. unfold _partition.
  pose proof (build_neighbors_NoDup [t; t] sum_vars) as Hnd.
  pose proof (build_neighbors_graph_nodes [t; t] sum_vars) as Hnodes.
  pose proof (build_neighbors_edges [t; t] sum_vars) as Hedges.
  pose proof (build_neighbors_dim_nonempty [t; t] sum_vars) as Hdim.
  assert (Hcount : ∀ k u, ∃ m,
            count_occ node_eq_dec
              (default [] (OD.get k (build_neighbors [t; t] sum_vars))) u = m + m).
  { intros k u. unfold build_neighbors. cbn [fold_left].
    destruct (count_step_dims t sum_vars k u (inputs t)) as [m Hm].
    exists m. rewrite !Hm. cbn [OD.set]. rewrite decide_True by done.
    cbn [OD.get]. by destruct (decide (k = NTerm t)). }
  set (G := build_neighbors [t; t] sum_vars) in *.
  assert (Hdup : ∀ v p, (v, p) ∈ G → ¬ NoDup p).
  { intros v p Hin Hp.
    assert (Hget : OD.get v G = Some p) by by apply OD_elem_get.
    assert (Hne : ∃ u, u ∈ p).
    { destruct v as [t' | d'].
      - exists (NDim d). destruct (Hnodes _ _ Hin) as [Ht' _]. simpl in Ht'.
        assert (t' = t) as ->.
        { by apply elem_of_cons in Ht' as [-> | ->%list_elem_of_singleton]. }
        assert (He : has_edge G (NTerm t) (NDim d)).
        { apply Hedges. simpl. split; [left | done]. }
        destruct He as (adj & Hadj & Hu). congruence.
      - destruct p as [|u p]; [by apply Hdim in Hget | exists u; left]. }
    destruct Hne as [u Hu]. destruct (Hcount v u) as [m Hm].
    rewrite Hget in Hm. simpl in Hm.
    apply NoDup_ListNoDup in Hp.
    pose proof (proj1 (NoDup_count_occ node_eq_dec p) Hp u) as Hle.
    apply list_elem_of_In in Hu. apply (count_occ_In node_eq_dec) in Hu. lia. }
  destruct (OD.popitem G) as [[[v p] N1]|] eqn:Hpop.
  - apply OD_popitem_app in Hpop. rewrite Hpop in *. rewrite length_app.
    replace (length N1 + length [(v, p)]) with (S (length N1)) by (simpl; lia).
    cbn [components_loop]. rewrite OD_popitem_snoc.
    rewrite grow_repeated; [done | | | lia].
    + unfold OD.keys in Hnd. rewrite map_app in Hnd. by apply NoDup_app in Hnd as [? _].
    + left. apply (Hdup v p). apply elem_of_app. right. left.
  - exfalso. unfold OD.popitem in Hpop. destruct (rev G) as [|x r] eqn:Hrev; [|done].
    apply (f_equal (@rev _)) in Hrev. rewrite rev_involutive in Hrev. simpl in Hrev.
    assert (He : has_edge G (NTerm t) (NDim d)).
    { apply Hedges. simpl. split; [left | done]. }
    destruct He as (adj & Hadj & _). by rewrite Hrev in Hadj.
Qed.
End RepeatedTerm.

Section RepeatedFactor.
Context {F Op R : Type} `{API : FunsorAPI F Op R}.
Import SumProduct.

Lemma build_ordinal_to_vars_spec (vto : gmap string (gset string))
    (o : gset string) (v : string) :
  v ∈ default ∅ (build_ordinal_to_vars vto !! o) ↔ vto !! v = Some o.
Proof.
  unfold build_ordinal_to_vars. rewrite <- elem_of_map_to_list.
  assert (Hgen : ∀ (l : list (string * gset string))
                   (acc : gmap (gset string) (gset string)),
            v ∈ default ∅ (fold_left
                  (fun (otv : gmap (gset string) (gset string)) '(var, ordinal) =>
                     <[ordinal := default ∅ (otv !! ordinal) ∪ {[var]}]> otv) l acc !! o)
            ↔ v ∈ default ∅ (acc !! o) ∨ (v, o) ∈ l).
  { induction l as [|[v' o'] l IH]; intros acc.
    - simpl. split; [by left | by intros [? | ?%elem_of_nil]].
    - cbn [fold_left]. rewrite IH, elem_of_cons.
      destruct (decide (o = o')) as [<- | Hne].
      + rewrite lookup_insert_eq. simpl.
        rewrite elem_of_union, elem_of_singleton. split.
        * intros [[Hv | ->] | Hl]; [by left | right; by left | right; by right].
        * intros [Hv | [[= -> ] | Hl]]; [left; by left | left; by right | by right].
      + rewrite lookup_insert_ne by done. split.
        * intros [Hv | Hl]; [by left | right; by right].
        * intros [Hv | [[= _ ?] | Hl]]; [by left | done | by right]. }
  rewrite Hgen, lookup_empty. simpl. split; [intros [?%elem_of_empty | ?] | by right]; done.
Qed.

Lemma index_factor_same_ordinal (ordinal : gset string) (l : list string)
    (vto0 : gmap string (gset string)) :
  (∀ v o, vto0 !! v = Some o → o = ordinal) →
  let vto' := fold_left (fun (vto : gmap string (gset string)) var =>
                <[var := default ordinal (vto !! var) ∩ ordinal]> vto) l vto0 in
  (∀ v o, vto' !! v = Some o → o = ordinal)
  ∧ ∀ v, v ∈ l → vto' !! v = Some ordinal.
Proof.
  revert vto0. induction l as [|x l IH]; intros vto0 H0; simpl.
  - split; [done | by intros v ?%elem_of_nil].
  - assert (Hx : default ordinal (vto0 !! x) ∩ ordinal = ordinal).
    { assert (Hidem : ordinal ∩ ordinal = ordinal).
      { apply set_eq. intros z. rewrite elem_of_intersection. tauto. }
      destruct (vto0 !! x) as [o|] eqn:Hget; simpl; [|done].
      by apply H0 in Hget as ->. }
    rewrite Hx.
    destruct (IH (<[x := ordinal]> vto0)) as [IH1 IH2].
    { intros v o. destruct (decide (v = x)) as [-> | Hne].
      - rewrite lookup_insert_eq. by intros [= <-].
      - rewrite lookup_insert_ne by done. apply H0. }
    split; [done|]. intros v [-> | Hv]%elem_of_cons; [|by apply IH2].
    destruct (decide (x ∈ l)) as [Hxl | Hxl]; [by apply IH2|].
    clear -Hxl. revert vto0. induction l as [|y l IHl]; intros vto0; simpl.
    + by rewrite lookup_insert_eq.
    + apply not_elem_of_cons in Hxl as [Hne Hxl].
      rewrite insert_insert_ne by done.
      assert (Hy : ∀ m : gmap string (gset string),
                default ordinal (<[x:=ordinal]> m !! y) = default ordinal (m !! y)).
      { intros m. by rewrite lookup_insert_ne. }
      rewrite Hy. by apply IHl.
Qed.

(** X12: when no factor has an input to sum (an input in [eliminate] that
    is not a plate), [partial_sum_product] gives for a list of factors what
    it gives for the list without the repetitions: a factor given several
    times enters the products once. *)
Theorem partial_sum_product_repeated_once (fuel : nat) (sum_op prod_op : Op)
    (factors : list F) (eliminate plates : gset string) :
  (∀ f, f ∈ factors → sum_vars eliminate plates ∩ input_set f = ∅) →
  partial_sum_product fuel sum_op prod_op factors eliminate plates
  = partial_sum_product fuel sum_op prod_op (rev (remove_dups (rev factors)))
      eliminate plates.
Proof. apply partial_sum_product_dedup. Qed.

(** X13: a factor given twice that has an input to sum makes
    [partial_sum_product], and [sum_product] with it, raise [KeyError]: the
    inner loop of [_partition] pops the factor from [neighbors] a second
    time. *)
Theorem partial_sum_product_repeated_factor (fuel : nat) (sum_op prod_op : Op)
    (f : F) (eliminate plates : gset string) (d : string) :
  d ∈ inputs f → d ∈ eliminate → d ∉ plates → 0 < fuel →
  partial_sum_product fuel sum_op prod_op [f; f] eliminate plates = Raise KeyError
  ∧ sum_product fuel sum_op prod_op [f; f] eliminate plates = Raise KeyError.
Proof.
  intros Hd Hel Hpl Hfuel.
  assert (Hpartial : partial_sum_product fuel sum_op prod_op [f; f] eliminate plates
                     = Raise KeyError).
  { unfold partial_sum_product, index_factors. cbn [fold_left].
    unfold index_factor. cbn [fst snd].
    set (ordinal := plates ∩ input_set f).
    set (l := elements (sum_vars eliminate plates ∩ input_set f)).
    destruct (index_factor_same_ordinal ordinal l ∅) as [Hall Hl].
    { intros v o. by rewrite lookup_empty. }
    destruct (index_factor_same_ordinal ordinal l
                (fold_left (fun (vto : gmap string (gset string)) var =>
                   <[var := default ordinal (vto !! var) ∩ ordinal]> vto) l ∅) Hall)
      as [_ Hl2].
    assert (Hdl : d ∈ l).
    { apply elem_of_elements, elem_of_intersection. split.
      - by apply elem_of_difference.
      - by apply elem_of_list_to_set. }
    apply Hl2 in Hdl. apply build_ordinal_to_vars_spec in Hdl.
    assert (Hotf : append_to ordinal f (append_to ordinal f []) = [(ordinal, [f; f])]).
    { unfold append_to. simpl. by rewrite !decide_True by done. }
    rewrite Hotf.
    destruct fuel as [|fuel]; [lia|].
    cbn [main_loop ordinal_to_factors].
    unfold process_leaf, choose_leaf, OD.pop.
    cbn [ordinal_to_factors results OD.keys map fst py_max py_max_by of_option rbind OD.get].
    rewrite decide_True by done. cbn [of_option rbind].
    by rewrite (_partition_repeated f _ d Hd Hdl). }
  split; [done|]. unfold sum_product. by rewrite Hpartial.
Qed.
End RepeatedFactor.

Section RepeatedWitnesses.
Import Torch DenseTensor SumProduct Examples.

Lemma partition_nothing_to_sum_witness :
  _partition [k_x; g_ax; k_x] {["b"]} = Ok [([g_ax], ∅); ([k_x], ∅)].
Proof.
  apply (partition_nothing_to_sum (API:=Tensor_API) [k_x; g_ax; k_x] {["b"]}).
  intros t d Ht Hd Hb. apply elem_of_singleton in Hb as ->.
  assert (Hall : Forall (fun t : Tensor Z => "b" ∉ inputs t) [k_x; g_ax; k_x]).
  { repeat constructor; by apply (bool_decide_unpack _). }
  by apply (proj1 (Forall_forall _ _) Hall t Ht).
Defined.

Lemma partial_sum_product_repeated_once_witness :
  partial_sum_product 8 OpAdd OpMul [k_x; g_ax; k_x] ab ab
  = partial_sum_product 8 OpAdd OpMul [k_x; g_ax] ab ab.
Proof.
  apply (partial_sum_product_repeated_once (API:=Tensor_API) 8 OpAdd OpMul
           [k_x; g_ax; k_x] ab ab).
  intros f _. apply set_eq. intros z. unfold sum_vars.
  rewrite elem_of_intersection, elem_of_difference. split; [tauto|].
  by intros ?%elem_of_empty.
Defined.

Lemma partial_sum_product_repeated_factor_witness :
  partial_sum_product 8 OpAdd OpMul [k_x; k_x] abxy ab = Raise KeyError
  ∧ sum_product 8 OpAdd OpMul [k_x; k_x] abxy ab = Raise KeyError.
Proof.
  apply (partial_sum_product_repeated_factor 8 OpAdd OpMul k_x abxy ab "x").
  - left.
  - by vm_compute.
  - by vm_compute.
  - lia.
Defined.
End RepeatedWitnesses.
